(** * clime: command resolution and argument binding (draft/cli/index.ts)

    A shallow embedding of [CLI.parse] and [CLI.load] together with the
    closures [consumeFlags], [consumeToggleOrOption], [consumeOption],
    [consumeArgument] and [castArgument], and the properties of the
    resolver, the token classifier, the binder and the dispatcher.

    Strings are sequences of 8-bit code units: a JavaScript string whose
    code units are all below 256 is the [string] with the same units.
    Numbers are doubles, and the tables of [load] are plain objects with
    what they inherit from [Object.prototype]. *)

From Stdlib Require Import ZArith NArith Ascii String.
From stdpp Require Import base option list strings gmap.

(** ** The JavaScript primitives the program relies on *)

Module JS.

Local Open Scope char_scope.

Definition code (c : ascii) : N := N_of_ascii c.

Definition between (lo hi : N) (c : ascii) : bool :=
  ((lo <=? code c) && (code c <=? hi))%N.

(** [\d] *)
Definition is_digit (c : ascii) : bool := between 48 57 c.

(** [\w]: letters, digits and the underscore. *)
Definition is_word (c : ascii) : bool :=
  is_digit c || between 65 90 c || between 97 122 c || (code c =? 95)%N.

(** WhiteSpace and LineTerminator code units below 256. *)
Definition is_space (c : ascii) : bool :=
  between 9 13 c || (code c =? 32)%N || (code c =? 160)%N.

Definition lower_char (c : ascii) : ascii :=
  if between 65 90 c || (between 192 222 c && negb (code c =? 215)%N)
  then ascii_of_N (code c + 32)
  else c.

(** [String.prototype.toLowerCase] *)
Fixpoint toLowerCase (s : string) : string :=
  match s with
  | EmptyString => EmptyString
  | String c s' => String (lower_char c) (toLowerCase s')
  end.

(** [s[i]]: [None] stands for [undefined]. *)
Definition charAt (i : nat) (s : string) : option ascii := String.get i s.

(** [s.substr(start)] for a non-negative [start]. *)
Fixpoint substr (start : nat) (s : string) : string :=
  match start, s with
  | O, _ => s
  | S n, String _ s' => substr n s'
  | S _, EmptyString => EmptyString
  end.

(** *** Numbers

    A number is a double: [Finite s m e] is [(-1)^s * m * 2^e] with [m] odd,
    or zero with [m = 0] and [e = 0], so that two numbers are the same
    double exactly when they are the same term. *)
Inductive number : Type :=
| NaN
| Infinity (negative : bool)
| Finite (negative : bool) (mantissa : N) (exponent : Z).

Definition isNaN (n : number) : bool :=
  match n with NaN => true | _ => false end.

(** The double is [+0] or [-0]. *)
Definition is_zero (n : number) : bool :=
  match n with
  | Finite _ m _ => (m =? 0)%N
  | _ => false
  end.

(** The integer nearest to [p / q], the even one of two that are equally
    near. *)
Definition round_half_even (p q : Z) : Z :=
  let k := (p / q)%Z in
  let r := (p mod q)%Z in
  if (2 * r <? q)%Z then k
  else if (q <? 2 * r)%Z then (k + 1)%Z
  else if Z.even k then k else (k + 1)%Z.

(** [m * 2^e] with the factors two of [m] moved to the exponent. *)
Fixpoint odd_part (m : positive) (e : Z) : positive * Z :=
  match m with
  | xO m' => odd_part m' (e + 1)
  | _ => (m, e)
  end.

(** The double [(-1)^s * m * 2^e], for [m] and [e] that need no rounding. *)
Definition binary (negative : bool) (m e : Z) : number :=
  match m with
  | Zpos p => let '(p', e') := odd_part p e in Finite negative (Npos p') e'
  | _ => Finite negative 0 0
  end.

(** [p / (q * 2^e)] as a fraction of integers. *)
Definition scaled (p q e : Z) : Z * Z :=
  if (0 <=? e)%Z then (p, q * 2 ^ e)%Z else (p * 2 ^ (- e), q)%Z.

(** The double nearest to [(-1)^s * p / q] for [0 <= p] and [0 < q], ties
    to even: 53 significant bits, no exponent below -1074, and infinity
    from [2^1024] on. *)
Definition round (negative : bool) (p q : Z) : number :=
  if (p =? 0)%Z then Finite negative 0 0 else
  let e0 := (Z.log2 p - Z.log2 q - 52)%Z in
  let e1 := let '(a, b) := scaled p q e0 in
            if (a <? b * 2 ^ 52)%Z then (e0 - 1)%Z else e0 in
  let e := Z.max e1 (-1074) in
  let '(a, b) := scaled p q e in
  let m := round_half_even a b in
  if (971 <? e)%Z || ((e =? 971)%Z && (m =? 2 ^ 53)%Z) then Infinity negative
  else binary negative m e.

(** The double nearest to [(-1)^s * m * 10^e]. *)
Definition decimal (negative : bool) (m : N) (e : Z) : number :=
  if (0 <=? e)%Z then round negative (Z.of_N m * 10 ^ e) 1
  else round negative (Z.of_N m) (10 ^ (- e)).


(** [Boolean(n)] *)
Definition toBoolean (n : number) : bool := negb (isNaN n || is_zero n).

Fixpoint skip_space (l : list ascii) : list ascii :=
  match l with
  | c :: l' => if is_space c then skip_space l' else l
  | [] => []
  end.

Definition trim (l : list ascii) : list ascii :=
  rev (skip_space (rev (skip_space l))).

(** The longest prefix of characters satisfying [p], and the rest. *)
Fixpoint span (p : ascii -> bool) (l : list ascii) : list ascii * list ascii :=
  match l with
  | c :: l' =>
      if p c then let '(a, b) := span p l' in (c :: a, b) else ([], l)
  | [] => ([], [])
  end.

Definition digit_value (c : ascii) : N :=
  if is_digit c then (code c - 48)%N
  else if between 97 102 c then (code c - 87)%N
  else if between 65 70 c then (code c - 55)%N
  else 0%N.

Definition is_radix_digit (radix : N) (c : ascii) : bool :=
  (is_digit c || between 97 102 c || between 65 70 c)
  && (digit_value c <? radix)%N.

Definition digits_value (radix : N) (l : list ascii) : N :=
  fold_left (fun acc c => (acc * radix + digit_value c)%N) l 0%N.

Definition take_sign (l : list ascii) : bool * list ascii :=
  match l with
  | "+" :: t => (false, t)
  | "-" :: t => (true, t)
  | _ => (false, l)
  end.

Definition signed (negative : bool) (n : N) : Z :=
  if negative then (- Z.of_N n)%Z else Z.of_N n.

Definition Infinity_literal : list ascii :=
  ["I"; "n"; "f"; "i"; "n"; "i"; "t"; "y"].

(** StrDecimalLiteral, rounded to the nearest double. *)
Definition parse_decimal (l : list ascii) : number :=
  let '(negative, l1) := take_sign l in
  if bool_decide (l1 = Infinity_literal) then Infinity negative else
  let '(int_part, l2) := span is_digit l1 in
  let '(frac_part, l3) :=
    match l2 with
    | "." :: t => span is_digit t
    | _ => ([], l2)
    end in
  match int_part ++ frac_part with
  | [] => NaN
  | digits =>
      let m := digits_value 10 digits in
      let shift := Z.of_nat (length frac_part) in
      match l3 with
      | [] => decimal negative m (- shift)
      | c :: l4 =>
          if bool_decide (c = "e") || bool_decide (c = "E") then
            let '(eneg, l5) := take_sign l4 in
            let '(exp_digits, l6) := span is_digit l5 in
            match exp_digits, l6 with
            | _ :: _, [] =>
                decimal negative m (signed eneg (digits_value 10 exp_digits) - shift)
            | _, _ => NaN
            end
          else NaN
      end
  end.

(** NonDecimalIntegerLiteral, after its two-character prefix, rounded to
    the nearest double. *)
Definition parse_radix (radix : N) (l : list ascii) : number :=
  match l with
  | [] => NaN
  | _ => if forallb (is_radix_digit radix) l
         then round false (Z.of_N (digits_value radix l)) 1
         else NaN
  end.

(** [Number(s)] on a string: StringToNumber. *)
Definition Number (s : string) : number :=
  match trim (list_ascii_of_string s) with
  | [] => Finite false 0 0
  | ("0" :: p :: t) as l =>
      if bool_decide (p = "x") || bool_decide (p = "X") then parse_radix 16 t
      else if bool_decide (p = "o") || bool_decide (p = "O") then parse_radix 8 t
      else if bool_decide (p = "b") || bool_decide (p = "B") then parse_radix 2 t
      else parse_decimal l
  | l => parse_decimal l
  end.

(** The values that reach a command: tokens, their coercions and the
    declared defaults ([VObject] is any other value, by reference). *)
Inductive value : Type :=
| VUndefined
| VBoolean (b : bool)
| VNumber (n : number)
| VString (s : string)
| VObject (ref : N).

End JS.

Import JS.

(** ** Plain objects used as tables

    The tables of [load] are object literals [{}] that are read and
    written with brackets ([HashTable<T>]).  Their own properties are what
    the brackets create; of their inherited properties two matter to the
    program: a write to the key [__proto__] creates no own property (it
    replaces the prototype when the value is an object and does nothing
    otherwise), and the method [hasOwnProperty] is the inherited one only
    as long as no own property has that key. *)

Module JSObject.

(** *** Own properties whose order is not observed *)

(** [table[name] = v]: the own properties afterwards. *)
Definition assign {V : Type} (name : string) (v : V) (table : gmap string V)
    : gmap string V :=
  if bool_decide (name = "__proto__") then table else <[name := v]> table.

(** [table.hasOwnProperty] is the method of [Object.prototype]: no own
    property of that name shadows it.  When it is shadowed the program has
    a definition or a name in its place, and the call throws. *)
Definition hasMethod {V : Type} (table : gmap string V) : bool :=
  bool_decide (table !! "hasOwnProperty" = None).

(** *** Own properties in the order of their creation *)

Definition ordered (V : Type) : Type := list (string * V).

(** The own keys, in the order of their creation. *)
Definition own {V : Type} (table : ordered V) : list string := table.*1.

(** [table[name] = v]: an own property keeps its place, a new one comes
    last. *)
Definition assignOrdered {V : Type} (name : string) (v : V) (table : ordered V)
    : ordered V :=
  if bool_decide (name = "__proto__") then table
  else if bool_decide (name ∈ own table)
       then (λ kv : string * V, if bool_decide (kv.1 = name) then (name, v) else kv)
              <$> table
       else table ++ [(name, v)].

(** [delete table[name]] *)
Definition remove {V : Type} (name : string) (table : ordered V) : ordered V :=
  filter (λ kv : string * V, kv.1 <> name) table.

(** An array index: the canonical numeral of an integer from 0 to
    [2^32 - 2]. *)
Definition arrayIndex (key : string) : option N :=
  match list_ascii_of_string key with
  | [] => None
  | c :: l =>
      if forallb is_digit (c :: l)
         && (negb (bool_decide (c = "0"%char)) || bool_decide (l = []))
         && (digits_value 10 (c :: l) <=? 4294967294)%N
      then Some (digits_value 10 (c :: l))
      else None
  end.

Fixpoint insertIndex (n : N) (key : string) (l : list (N * string))
    : list (N * string) :=
  match l with
  | [] => [(n, key)]
  | (m, k) :: l' =>
      if (n <? m)%N then (n, key) :: l else (m, k) :: insertIndex n key l'
  end.

(** The keys that are array indices, in ascending numeric order. *)
Definition indexKeys (keys : list string) : list string :=
  (foldr (λ key acc,
            match arrayIndex key with
            | Some n => insertIndex n key acc
            | None => acc
            end) [] keys).*2.

(** [Object.keys(table)]: the array indices in ascending order, then the
    other keys in the order of their creation. *)
Definition keys {V : Type} (table : ordered V) : list string :=
  indexKeys (own table)
  ++ filter (λ key, arrayIndex key = None) (own table).

(** The own keys as a set. *)
Definition dom {V : Type} (table : ordered V) : gset string :=
  list_to_set (own table).

End JSObject.


(** ** Data model *)

(** The [type] of a definition: the constructors [String], [Number] and
    [Boolean], or anything else. *)
Inductive jstype : Type := TString | TNumber | TBoolean | TOther.

Module ParamDefinition.
Record t : Type := { type : jstype; default : value }.
End ParamDefinition.

Module OptionDefinition.
(** [flag] is [None] when the definition has no [flag] property. *)
Record t : Type := {
  name : string;
  flag : option string;
  required : bool;
  toggle : bool;
  default : value;
  type : jstype
}.
End OptionDefinition.

(** What [load] reads from the command object it instantiates;
    [optionDefinitions] is [None] when the property is undefined. *)
Record Command : Type := {
  optionDefinitions : option (list OptionDefinition.t);
  paramDefinitions : list ParamDefinition.t;
  requiredParamsNumber : nat
}.

Module Context.
Record t : Type := {
  cwd : string;
  args : list string;
  commands : list string
}.
End Context.

(** One thrown [Error] per [throw] of the source, with the data its message
    is built from; [TypeError] is a property access on [undefined] and
    [ModuleNotFound] a failing [require]. *)
Inductive error : Type :=
| UnknownOptionFlag (flag : string)
| UnknownOptionName (name : string)
| MissingOptionValue (name : string)
| OptionValueLooksLikeOption (arg name : string)
| NonTerminalFlagTakesValue
| InsufficientPositionalArguments (expecting got : nat)
| MissingRequiredOptions (names : list string)
| TypeError
| ModuleNotFound (filename : string).

(** An argument of the call [command.execute(...)]; of the options record
    the own properties. *)
Inductive argument : Type :=
| AValue (v : value)
| AOptions (options : gmap string value)
| AContext (context : Context.t).

(** How an invocation ends: [command.help], [command.execute], or a throw. *)
Inductive outcome : Type :=
| Help (commandSequence : list string)
| Execute (arguments : list argument)
| Error (e : error).

(** ** The resolver: [CLI.parse] *)

Module Resolver.

(** [validCommandNameRegex = /^[\w\d]+(?:-[\w\d]+)*$/], read as an
    automaton: [word] tells whether the previous character was a word
    character, which is what a hyphen and the end of input require. *)
Fixpoint match_name (word : bool) (s : string) : bool :=
  match s with
  | EmptyString => word
  | String c s' =>
      if is_word c then match_name true s'
      else if bool_decide (c = "-"%char) && word then match_name false s'
      else false
  end.

Definition validCommandName (arg : string) : bool := match_name false arg.

Definition defaultEntry : string := "default".

(** [Path.join(dir, file)] for a resolved directory [dir] and a file name
    without separators or dots-only segments. *)
Definition Path_join (dir file : string) : string :=
  if bool_decide (dir = "/") then dir +:+ file else dir +:+ "/" +:+ file.

(** The variables the loop of [parse] leaves behind. *)
Record Resolved : Type := {
  filename : string;
  argsIndex : nat;
  commandSequence : list string
}.

Definition possiblePaths (searchPath : string) : list string :=
  [searchPath +:+ ".js"; Path_join searchPath (defaultEntry +:+ ".js")].

(** The loop [for (let i = 2; i < argv.length; i++)] from index [i] on,
    [tokens] being [argv] from [i]; [existsSync] is the file system. *)
Fixpoint scan (existsSync : string -> bool) (i : nat) (tokens : list string)
    (searchPath : string) (r : Resolved) : Resolved :=
  match tokens with
  | [] => r
  | arg :: rest =>
      if validCommandName arg then
        let searchPath := Path_join searchPath arg in
        match List.find existsSync (possiblePaths searchPath) with
        | Some possiblePath =>
            scan existsSync (S i) rest searchPath
              {| filename := possiblePath;
                 argsIndex := i + 1;
                 commandSequence := commandSequence r ++ [arg] |}
        | None =>
            if negb (existsSync searchPath) then r
            else scan existsSync (S i) rest searchPath r
        end
      else r
  end.

(** [parse] up to the call of [load]; [root] is already resolved. *)
Definition resolve (existsSync : string -> bool) (entry : string)
    (argv : list string) (root : string) : Resolved :=
  scan existsSync 2 (drop 2 argv) root
    {| filename := Path_join root (defaultEntry +:+ ".js");
       argsIndex := 2;
       commandSequence := [entry] |}.

(** The [args] handed to [load]: [argv.slice(argsIndex)]. *)
Definition resolvedArgs (argv : list string) (r : Resolved) : list string :=
  drop (argsIndex r) argv.

End Resolver.

(** ** The binder and the dispatcher: [CLI.load] *)

(** The four tables [load] builds when [optionDefinitions] is defined: the
    own properties of each, with their order for the one table that
    [Object.keys] is taken of.  [definitionPrototype] is the prototype of
    [optionDefinitionMap] once a definition was written to its key
    [__proto__], and [None] as long as it is [Object.prototype]; a
    definition being an ordinary object, the table inherits
    [hasOwnProperty] through it as before.  (The prototypes of the three
    other tables have no part in [load]: nothing is read from the options
    record or from the table of pending options by key, and the flag table
    is only ever given names, which are strings.) *)
Record OptionTables : Type := {
  commandOptions : gmap string value;
  optionDefinitionMap : gmap string OptionDefinition.t;
  definitionPrototype : option OptionDefinition.t;
  requiredOptionMap : JSObject.ordered bool;
  flagToNameMapping : gmap string string
}.

(** The variables of [load] that its closures read and write.  [tables] is
    [None] when the four tables were left undefined. *)
Record Invocation : Type := {
  args : list string;
  commandArgs : list value;
  commandExtraArgs : list string;
  tables : option OptionTables;
  pendingParamDefinitions : list ParamDefinition.t
}.

Definition set_args (a : list string) (st : Invocation) : Invocation :=
  {| args := a;
     commandArgs := commandArgs st;
     commandExtraArgs := commandExtraArgs st;
     tables := tables st;
     pendingParamDefinitions := pendingParamDefinitions st |}.

Definition set_tables (t : OptionTables) (st : Invocation) : Invocation :=
  {| args := args st;
     commandArgs := commandArgs st;
     commandExtraArgs := commandExtraArgs st;
     tables := Some t;
     pendingParamDefinitions := pendingParamDefinitions st |}.

Definition set_commandOptions (o : gmap string value) (t : OptionTables) : OptionTables :=
  {| commandOptions := o;
     optionDefinitionMap := optionDefinitionMap t;
     definitionPrototype := definitionPrototype t;
     requiredOptionMap := requiredOptionMap t;
     flagToNameMapping := flagToNameMapping t |}.

Definition set_requiredOptionMap (r : JSObject.ordered bool) (t : OptionTables)
    : OptionTables :=
  {| commandOptions := commandOptions t;
     optionDefinitionMap := optionDefinitionMap t;
     definitionPrototype := definitionPrototype t;
     requiredOptionMap := r;
     flagToNameMapping := flagToNameMapping t |}.

Definition emptyTables : OptionTables :=
  {| commandOptions := ∅;
     optionDefinitionMap := ∅;
     definitionPrototype := None;
     requiredOptionMap := [];
     flagToNameMapping := ∅ |}.

(** A string is truthy when it is defined and not empty. *)
Definition truthy (s : option string) : option string :=
  match s with
  | Some EmptyString => None
  | _ => s
  end.

(** One turn of [for (let definition of optionDefinitions)]. *)
Definition register (t : OptionTables) (definition : OptionDefinition.t) : OptionTables :=
  let name := OptionDefinition.name definition in
  {| optionDefinitionMap := JSObject.assign name definition (optionDefinitionMap t);
     definitionPrototype :=
       if bool_decide (name = "__proto__") then Some definition
       else definitionPrototype t;
     flagToNameMapping :=
       match truthy (OptionDefinition.flag definition) with
       | Some flag => JSObject.assign flag name (flagToNameMapping t)
       | None => flagToNameMapping t
       end;
     requiredOptionMap :=
       if OptionDefinition.required definition
       then JSObject.assignOrdered name true (requiredOptionMap t)
       else requiredOptionMap t;
     commandOptions :=
       if OptionDefinition.toggle definition
       then JSObject.assign name (VBoolean false) (commandOptions t)
       else JSObject.assign name (OptionDefinition.default definition)
              (commandOptions t) |}.

Definition initialTables (definitions : list OptionDefinition.t) : OptionTables :=
  fold_left register definitions emptyTables.

(** The state of [load] when the [while] loop is entered. *)
Definition initial (command : Command) (args : list string) : Invocation :=
  {| args := args;
     commandArgs := [];
     commandExtraArgs := [];
     tables := initialTables <$> optionDefinitions command;
     pendingParamDefinitions := paramDefinitions command |}.

Definition castArgument (arg : string) (type : jstype) : value :=
  match type with
  | TString => VString arg
  | TNumber => VNumber (Number arg)
  | TBoolean =>
      if bool_decide (toLowerCase arg = "false") then VBoolean false
      else
        let n := Number arg in
        VBoolean (if isNaN n then true else toBoolean n)
  | TOther => VUndefined
  end.

(** [arg[0] === '-'] *)
Definition startsWithDash (arg : string) : bool :=
  bool_decide (charAt 0 arg = Some "-"%char).

(** [/^(?:-[h?]|--help)$/.test(arg)] *)
Definition isHelp (arg : string) : bool :=
  bool_decide (arg = "-h") || bool_decide (arg = "-?") || bool_decide (arg = "--help").

(** *** The closures, as state transformers that may throw *)

Definition M (A : Type) : Type := Invocation -> error + A * Invocation.

#[export] Instance M_ret : MRet M := λ A a st, inr (a, st).

#[export] Instance M_bind : MBind M := λ A B f m st,
  match m st with
  | inl e => inl e
  | inr (a, st') => f a st'
  end.

Definition throw {A : Type} (e : error) : M A := λ _, inl e.

Definition get : M Invocation := λ st, inr (st, st).

Definition put (st : Invocation) : M unit := λ _, inr (tt, st).

(** [args.shift()] *)
Definition shift : M (option string) := λ st,
  match args st with
  | [] => inr (None, st)
  | arg :: rest => inr (Some arg, set_args rest st)
  end.

(** The tables, for code that dereferences one of them unguarded. *)
Definition theTables : M OptionTables := λ st,
  match tables st with
  | Some t => inr (t, st)
  | None => inl TypeError
  end.

(** [commandOptions[name] = v] *)
Definition assignOption (name : string) (v : value) : M unit :=
  t ← theTables;
  st ← get;
  put (set_tables (set_commandOptions (JSObject.assign name v (commandOptions t)) t) st).

(** [delete requiredOptionMap[name]] *)
Definition deleteRequired (name : string) : M unit :=
  t ← theTables;
  st ← get;
  put (set_tables
         (set_requiredOptionMap (JSObject.remove name (requiredOptionMap t)) t) st).

(** [optionDefinitionMap[name]] in [consumeFlags], where [name] is a value
    of the flag table.  Every such value is a name that was written to the
    definition table: an own key, or [__proto__], for which the read gives
    the prototype that the write installed.  Reads of other names, and of
    [__proto__] from a table whose prototype was never replaced, do not
    occur in the tables that [load] builds ([flagDefinition_initial]
    below); for them the model takes [undefined]. *)
Definition definitionOf (t : OptionTables) (name : string)
    : option OptionDefinition.t :=
  match optionDefinitionMap t !! name with
  | Some definition => Some definition
  | None =>
      if bool_decide (name = "__proto__") then definitionPrototype t else None
  end.

Definition consumeOption (name : string) (definition : OptionDefinition.t) : M unit :=
  arg ← shift;
  match arg with
  | None => throw (MissingOptionValue name)
  | Some arg =>
      if startsWithDash arg then throw (OptionValueLooksLikeOption arg name)
      else assignOption name (castArgument arg (OptionDefinition.type definition))
  end.

(** The loop of [consumeFlags] from index [i] on; [flags] is what is left
    of the cluster, so [i !== flags.length - 1] reads "more follows".  The
    call of [hasOwnProperty] throws when a flag of that name shadows the
    method, and the read of a property of [definition] throws when it is
    [undefined]. *)
Fixpoint consumeFlags (flags : string) : M unit :=
  match flags with
  | EmptyString => mret tt
  | String c rest =>
      let flag := String c EmptyString in
      st ← get;
      match tables st with
      | None => throw (UnknownOptionFlag flag)
      | Some t =>
          if negb (JSObject.hasMethod (flagToNameMapping t)) then throw TypeError
          else
            match flagToNameMapping t !! flag with
            | None => throw (UnknownOptionFlag flag)
            | Some name =>
                match definitionOf t name with
                | None => throw TypeError
                | Some definition =>
                    (if OptionDefinition.required definition
                     then deleteRequired name else mret tt);;
                    (if OptionDefinition.toggle definition
                     then assignOption name (VBoolean true)
                     else if bool_decide (rest = EmptyString)
                          then consumeOption name definition
                          else throw NonTerminalFlagTakesValue);;
                    consumeFlags rest
                end
            end
      end
  end.

(** The call of [hasOwnProperty] throws when the table is undefined and
    when a definition of that name shadows the method. *)
Definition consumeToggleOrOption (name : string) : M unit :=
  t ← theTables;
  if negb (JSObject.hasMethod (optionDefinitionMap t)) then throw TypeError
  else
    match optionDefinitionMap t !! name with
    | None => throw (UnknownOptionName name)
    | Some definition =>
        (if OptionDefinition.required definition
         then deleteRequired name else mret tt);;
        if OptionDefinition.toggle definition
        then assignOption name (VBoolean true)
        else consumeOption name definition
    end.

Definition consumeArgument (arg : string) : M unit := λ st,
  match pendingParamDefinitions st with
  | definition :: pending =>
      inr (tt,
           {| args := args st;
              commandArgs :=
                commandArgs st ++ [castArgument arg (ParamDefinition.type definition)];
              commandExtraArgs := commandExtraArgs st;
              tables := tables st;
              pendingParamDefinitions := pending |})
  | [] =>
      inr (tt,
           {| args := args st;
              commandArgs := commandArgs st;
              commandExtraArgs := commandExtraArgs st ++ [arg];
              tables := tables st;
              pendingParamDefinitions := [] |})
  end.

(** The body of the [while] loop after the help test. *)
Definition consumeToken (arg : string) : M unit :=
  if startsWithDash arg then
    if bool_decide (charAt 1 arg = Some "-"%char)
    then consumeToggleOrOption (substr 2 arg)
    else consumeFlags (substr 1 arg)
  else consumeArgument arg.

(** How the [while] loop is left. *)
Inductive loop_exit : Type :=
| Exhausted (st : Invocation)
| HelpRequested
| Thrown (e : error).

(** [while (args.length) { ... }], at most [fuel] turns; [None] when the
    turns run out. *)
Fixpoint consumeTokens (fuel : nat) (st : Invocation) : option loop_exit :=
  match args st with
  | [] => Some (Exhausted st)
  | arg :: rest =>
      match fuel with
      | O => None
      | S fuel' =>
          if isHelp arg then Some HelpRequested
          else
            match consumeToken arg (set_args rest st) with
            | inl e => Some (Thrown e)
            | inr (_, st') => consumeTokens fuel' st'
            end
      end
  end.

(** [Object.keys(m)] *)
Definition Object_keys (m : JSObject.ordered bool) : list string := JSObject.keys m.

(** [load] after the loop: the two checks, the defaults, the call of
    [execute].  The options record was pushed on [executeMethodArgs] by
    reference before the loop, so the call sees its final content. *)
Definition dispatch (command : Command) (commandSequence : list string)
    (cwd : string) (st : Invocation) : outcome :=
  let expecting := requiredParamsNumber command in
  let got := length (commandArgs st) in
  if got <? expecting then Error (InsufficientPositionalArguments expecting got)
  else
    match Object_keys ∘ requiredOptionMap <$> tables st with
    | Some (missing :: others) => Error (MissingRequiredOptions (missing :: others))
    | _ =>
        let commandArgs :=
          commandArgs st ++ (ParamDefinition.default <$> pendingParamDefinitions st) in
        let context :=
          {| Context.cwd := cwd;
             Context.args := commandExtraArgs st;
             Context.commands := commandSequence |} in
        let executeMethodArgs :=
          match tables st with
          | Some t => [AOptions (commandOptions t)]
          | None => []
          end ++ [AContext context] in
        Execute ((AValue <$> commandArgs) ++ executeMethodArgs)
    end.

(** [load], given the command object that [require] and [new] produced.
    Every turn of the loop removes a token, so [length args] turns are
    enough. *)
Definition load (command : Command) (commandSequence : list string)
    (args : list string) (cwd : string) : option outcome :=
  match consumeTokens (length args) (initial command args) with
  | None => None
  | Some (Exhausted st) => Some (dispatch command commandSequence cwd st)
  | Some HelpRequested => Some (Help commandSequence)
  | Some (Thrown e) => Some (Error e)
  end.

(** [parse]: [require] maps the file name of a module to its command, or
    to [None] when the module cannot be loaded. *)
Definition parse (existsSync : string -> bool) (require : string -> option Command)
    (entry : string) (argv : list string) (root cwd : string) : option outcome :=
  let r := Resolver.resolve existsSync entry argv root in
  match require (Resolver.filename r) with
  | None => Some (Error (ModuleNotFound (Resolver.filename r)))
  | Some command =>
      load command (Resolver.commandSequence r) (Resolver.resolvedArgs argv r) cwd
  end.

(** ** The default root: the getter [CLI.root] *)

Definition node_modules : list ascii := list_ascii_of_string "node_modules".

(** A path segment that the tail of the regular expression of [root]
    admits: one or more characters, and not [node_modules]. *)
Definition admissible (segment : list ascii) : bool :=
  negb (bool_decide (segment = [])) && negb (bool_decide (segment = node_modules)).

(** [(?:sep(?!node_modules(?:sep|$))[^sep]+)+$], read as an automaton:
    [segment] is [None] before the first separator and else holds the
    characters read since the last separator.  A separator and the end of
    input both close a segment, which then has to be admissible. *)
Fixpoint tailSegments (sep : ascii) (segment : option (list ascii))
    (l : list ascii) : bool :=
  match l with
  | [] =>
      match segment with
      | Some seg => admissible seg
      | None => false
      end
  | c :: l' =>
      if bool_decide (c = sep) then
        match segment with
        | Some seg => admissible seg && tailSegments sep (Some []) l'
        | None => tailSegments sep (Some []) l'
        end
      else
        match segment with
        | Some seg => tailSegments sep (Some (seg ++ [c])) l'
        | None => false
        end
  end.

(** The regular expression [sep node_modules (sep segment)+ $] matches at
    the head of [l]. *)
Definition matchesHere (sep : ascii) (l : list ascii) : bool :=
  match l with
  | c :: l' =>
      bool_decide (c = sep)
      && bool_decide (take (length node_modules) l' = node_modules)
      && tailSegments sep None (drop (length node_modules) l')
  | [] => false
  end.

(** [__dirname.replace(regex, '')]: the leftmost match, which reaches the
    end of the string, is removed. *)
Fixpoint stripNodeModules (sep : ascii) (l : list ascii) : list ascii :=
  if matchesHere sep l then []
  else
    match l with
    | [] => []
    | c :: l' => c :: stripNodeModules sep l'
    end.

(** [moduleDir], for [Path.sep] being [sep]. *)
Definition moduleDir (sep : ascii) (dirname : string) : string :=
  string_of_list_ascii (stripNodeModules sep (list_ascii_of_string dirname)).

(** [CLI.root] where [Path.sep] is the slash; [dirname] is [__dirname], an
    absolute normalised path.  [Path.join] of the empty path and [cli] is
    the relative path [cli]. *)
Definition root (dirname : string) : string :=
  let moduleDir := moduleDir "/" dirname in
  if bool_decide (moduleDir = EmptyString) then "cli"
  else Resolver.Path_join moduleDir "cli".

(** ** Examples used by the statements below *)

(** A command tree in which [foo] is a directory holding the module [bar]
    and no default module. *)
Definition tree_foo_bar (path : string) : bool :=
  bool_decide (path ∈ ["/cli/foo"; "/cli/foo/bar.js"]).

(** A command tree with both a leaf module [foo] and a directory [foo]
    with a default module. *)
Definition tree_both (path : string) : bool :=
  bool_decide (path ∈ ["/cli/foo.js"; "/cli/foo"; "/cli/foo/default.js"]).

Definition force_option : OptionDefinition.t :=
  {| OptionDefinition.name := "force";
     OptionDefinition.flag := Some "f";
     OptionDefinition.required := false;
     OptionDefinition.toggle := true;
     OptionDefinition.default := VUndefined;
     OptionDefinition.type := TBoolean |}.

Definition name_param : ParamDefinition.t :=
  {| ParamDefinition.type := TString; ParamDefinition.default := VUndefined |}.

(** The command [create/default] of the end-to-end examples: parameter
    [name : String] without default, toggle [force] with flag [f]. *)
Definition create_command : Command :=
  {| optionDefinitions := Some [force_option];
     paramDefinitions := [name_param];
     requiredParamsNumber := 1 |}.

(** The command tree of the end-to-end examples: [create/default]. *)
Definition tree_create (path : string) : bool :=
  bool_decide (path ∈ ["/cli/create"; "/cli/create/default.js"]).

Definition require_create (filename : string) : option Command :=
  if bool_decide (filename = "/cli/create/default.js") then Some create_command
  else None.

Definition token_option : OptionDefinition.t :=
  {| OptionDefinition.name := "token";
     OptionDefinition.flag := Some "t";
     OptionDefinition.required := true;
     OptionDefinition.toggle := false;
     OptionDefinition.default := VUndefined;
     OptionDefinition.type := TString |}.

(** A command with the required value option [token], flag [t], next to
    the toggle [force], and one parameter without default. *)
Definition deploy_command : Command :=
  {| optionDefinitions := Some [token_option; force_option];
     paramDefinitions := [name_param];
     requiredParamsNumber := 1 |}.

(** A command without option definitions. *)
Definition bare_command : Command :=
  {| optionDefinitions := None;
     paramDefinitions := [name_param];
     requiredParamsNumber := 0 |}.

(** Two required value options, declared [beta] first and [alpha] second,
    and the same after the required option [7]. *)
Definition required_option (name : string) : OptionDefinition.t :=
  {| OptionDefinition.name := name;
     OptionDefinition.flag := None;
     OptionDefinition.required := true;
     OptionDefinition.toggle := false;
     OptionDefinition.default := VUndefined;
     OptionDefinition.type := TString |}.

Definition beta_alpha_command : Command :=
  {| optionDefinitions := Some [required_option "beta"; required_option "alpha"];
     paramDefinitions := [];
     requiredParamsNumber := 0 |}.

Definition beta_alpha_7_command : Command :=
  {| optionDefinitions :=
       Some [required_option "beta"; required_option "alpha"; required_option "7"];
     paramDefinitions := [];
     requiredParamsNumber := 0 |}.

(** A command whose option definitions are an empty list. *)
Definition empty_options_command : Command :=
  {| optionDefinitions := Some [];
     paramDefinitions := [];
     requiredParamsNumber := 0 |}.

(** A required toggle named [__proto__], with flag [p]. *)
Definition proto_option : OptionDefinition.t :=
  {| OptionDefinition.name := "__proto__";
     OptionDefinition.flag := Some "p";
     OptionDefinition.required := true;
     OptionDefinition.toggle := true;
     OptionDefinition.default := VUndefined;
     OptionDefinition.type := TBoolean |}.

Definition proto_command : Command :=
  {| optionDefinitions := Some [proto_option];
     paramDefinitions := [];
     requiredParamsNumber := 0 |}.

(** A toggle named [hasOwnProperty], with flag [o], next to the toggle
    [force]. *)
Definition shadow_option : OptionDefinition.t :=
  {| OptionDefinition.name := "hasOwnProperty";
     OptionDefinition.flag := Some "o";
     OptionDefinition.required := false;
     OptionDefinition.toggle := true;
     OptionDefinition.default := VUndefined;
     OptionDefinition.type := TBoolean |}.

Definition shadow_command : Command :=
  {| optionDefinitions := Some [force_option; shadow_option];
     paramDefinitions := [];
     requiredParamsNumber := 0 |}.

(** The halting test in the words of the specification: the token fails
    the grammar or neither candidate module exists, whether or not the
    subdirectory exists. *)
Definition haltsWithoutModule (existsSync : string -> bool)
    (searchPath arg : string) : bool :=
  negb (Resolver.validCommandName arg)
  || negb (existsSync (Resolver.Path_join searchPath arg +:+ ".js"))
     && negb (existsSync (Resolver.Path_join (Resolver.Path_join searchPath arg)
                            "default.js")).

(** What the loop of [parse] tests: the token fails the grammar, or neither
    candidate module nor the subdirectory exists. *)
Definition halts (existsSync : string -> bool) (searchPath arg : string) : bool :=
  haltsWithoutModule existsSync searchPath arg
  && (negb (Resolver.validCommandName arg)
      || negb (existsSync (Resolver.Path_join searchPath arg))).

(** A candidate module exists for [arg] under [searchPath]. *)
Definition hasModule (existsSync : string -> bool) (searchPath arg : string) : bool :=
  Resolver.validCommandName arg
  && (existsSync (Resolver.Path_join searchPath arg +:+ ".js")
      || existsSync (Resolver.Path_join (Resolver.Path_join searchPath arg)
                       "default.js")).

(** The candidate the loop records for [arg]: the leaf module when it
    exists, else the default module of the subdirectory. *)
Definition moduleFile (existsSync : string -> bool) (searchPath arg : string) : string :=
  if existsSync (Resolver.Path_join searchPath arg +:+ ".js")
  then Resolver.Path_join searchPath arg +:+ ".js"
  else Resolver.Path_join (Resolver.Path_join searchPath arg) "default.js".

(** The search path after walking down [tokens]. *)
Definition descend (searchPath : string) (tokens : list string) : string :=
  fold_left Resolver.Path_join tokens searchPath.

(** No token of the list halts the walk that starts at [searchPath]. *)
Fixpoint passes (existsSync : string -> bool) (searchPath : string)
    (tokens : list string) : bool :=
  match tokens with
  | [] => true
  | arg :: rest =>
      negb (halts existsSync searchPath arg)
      && passes existsSync (Resolver.Path_join searchPath arg) rest
  end.

(** No token of the list has a candidate module along the walk. *)
Fixpoint noModules (existsSync : string -> bool) (searchPath : string)
    (tokens : list string) : bool :=
  match tokens with
  | [] => true
  | arg :: rest =>
      negb (hasModule existsSync searchPath arg)
      && noModules existsSync (Resolver.Path_join searchPath arg) rest
  end.

(** Equality of strings up to the case of the letters A to Z. *)
Definition sameLetter (c d : ascii) : bool :=
  bool_decide (c = d)
  || (between 65 90 c && bool_decide (code d = code c + 32)%N)
  || (between 65 90 d && bool_decide (code c = code d + 32)%N).

Fixpoint equalsIgnoringCase (s t : string) : bool :=
  match s, t with
  | EmptyString, EmptyString => true
  | String c s', String d t' => sameLetter c d && equalsIgnoringCase s' t'
  | _, _ => false
  end.

(** *** Vocabulary for the statements about the binder *)

(** The definition a flag character refers to, through both tables. *)
Definition flagDefinition (t : OptionTables) (c : ascii)
    : option (string * OptionDefinition.t) :=
  name ← flagToNameMapping t !! String c EmptyString;
  definition ← definitionOf t name;
  Some (name, definition).

(** The definition declared last under [name]. *)
Definition declared (definitions : list OptionDefinition.t) (name : string)
    : option OptionDefinition.t :=
  last (filter (λ d, OptionDefinition.name d = name) definitions).

(** The definition declared last with the flag [flag]. *)
Definition flagged (definitions : list OptionDefinition.t) (flag : string)
    : option OptionDefinition.t :=
  last (filter (λ d, truthy (OptionDefinition.flag d) = Some flag) definitions).

(** The value the options record is seeded with for a definition. *)
Definition seed (d : OptionDefinition.t) : value :=
  if OptionDefinition.toggle d then VBoolean false else OptionDefinition.default d.

(** The tables once [name] is no longer pending, if it was required. *)
Definition satisfied (name : string) (definition : OptionDefinition.t)
    (t : OptionTables) : OptionTables :=
  if OptionDefinition.required definition
  then set_requiredOptionMap (JSObject.remove name (requiredOptionMap t)) t
  else t.

(** The tables after a reference to the option [name] that gives it the
    value [v]. *)
Definition assigned (name : string) (definition : OptionDefinition.t) (v : value)
    (t : OptionTables) : OptionTables :=
  let t' := satisfied name definition t in
  set_commandOptions (JSObject.assign name v (commandOptions t')) t'.

(** The tables after the flags [flags], each referring to a toggle. *)
Fixpoint toggled (flags : string) (t : OptionTables) : OptionTables :=
  match flags with
  | EmptyString => t
  | String c rest =>
      match flagDefinition t c with
      | Some (name, definition) =>
          toggled rest (assigned name definition (VBoolean true) t)
      | None => t
      end
  end.

(** Every flag of the cluster refers to a toggle. *)
Definition allToggles (t : OptionTables) (flags : string) : Prop :=
  forall c, c ∈ list_ascii_of_string flags ->
    exists name definition,
      flagDefinition t c = Some (name, definition)
      /\ OptionDefinition.toggle definition = true.

(** The option names a token refers to: the long name after [--], or the
    names of the flags after [-]. *)
Definition flagNames (t : OptionTables) (flags : string) : list string :=
  omap (λ c, flagToNameMapping t !! String c EmptyString)
       (list_ascii_of_string flags).

Definition referredNames (t : OptionTables) (arg : string) : list string :=
  if startsWithDash arg then
    if bool_decide (charAt 1 arg = Some "-"%char) then [substr 2 arg]
    else flagNames t (substr 1 arg)
  else [].

(** The same for the tables of a state, if it has any. *)
Definition tokenNames (st : Invocation) (arg : string) : list string :=
  match tables st with
  | Some t => referredNames t arg
  | None => []
  end.

(** [name] is supplied by long name or by flag somewhere in [args]. *)
Definition supplied (t : OptionTables) (args : list string) (name : string) : Prop :=
  exists arg, arg ∈ args /\ name ∈ referredNames t arg.

(** The definition of [name] in the table marks it required. *)
Definition isRequired (t : OptionTables) (name : string) : bool :=
  match definitionOf t name with
  | Some definition => OptionDefinition.required definition
  | None => false
  end.

(** What a token that starts with a hyphen can change when it is consumed
    without a throw: it binds no parameter, leaves the two lookup tables
    and the prototype alone, takes the names it refers to out of the pending required
    options, and removes at most one token, which then does not start with
    a hyphen. *)
Record optionStep (names : list string) (st st' : Invocation) : Prop := {
  step_commandArgs : commandArgs st' = commandArgs st;
  step_commandExtraArgs : commandExtraArgs st' = commandExtraArgs st;
  step_pending : pendingParamDefinitions st' = pendingParamDefinitions st;
  step_args :
    args st' = args st
    \/ exists v, args st = v :: args st' /\ startsWithDash v = false;
  step_tables :
    match tables st, tables st' with
    | Some t, Some t' =>
        optionDefinitionMap t' = optionDefinitionMap t
        /\ definitionPrototype t' = definitionPrototype t
        /\ flagToNameMapping t' = flagToNameMapping t
        /\ JSObject.dom (requiredOptionMap t')
           = JSObject.dom (requiredOptionMap t)
             ∖ list_to_set (filter (λ n, isRequired t n = true) names)
    | None, None => True
    | _, _ => False
    end
}.

(** The required options that the tokens of [args] refer to. *)
Definition satisfiedBy (t : OptionTables) (args : list string) : gset string :=
  list_to_set (filter (λ n, isRequired t n = true) (args ≫= referredNames t)).

(** What the turns of the loop keep true of the pending required options:
    the lookup tables are those built from the definitions, and a pending
    option that the tokens still queued do not refer to is one that was
    pending at the start and that no token refers to. *)
Definition pendingInvariant (t0 : OptionTables) (args0 : list string)
    (st : Invocation) : Prop :=
  exists t,
    tables st = Some t
    /\ optionDefinitionMap t = optionDefinitionMap t0
    /\ definitionPrototype t = definitionPrototype t0
    /\ flagToNameMapping t = flagToNameMapping t0
    /\ JSObject.dom (requiredOptionMap t) ∖ satisfiedBy t0 (args st)
       = JSObject.dom (requiredOptionMap t0) ∖ satisfiedBy t0 args0.

(** What the turns of the loop keep true of the parameter slots: the bound
    values are the tokens [bound] coerced to the types of the first
    parameters, the pending parameters are the others, overflow starts only
    when no parameter is pending, and the tokens bound, overflowed and
    queued appear in that order among the tokens of the invocation. *)
Definition slotsInvariant (params : list ParamDefinition.t) (args0 : list string)
    (bound : list string) (st : Invocation) : Prop :=
  commandArgs st = zip_with castArgument bound (ParamDefinition.type <$> params)
  /\ length bound <= length params
  /\ pendingParamDefinitions st = drop (length bound) params
  /\ (commandExtraArgs st <> [] -> length bound = length params)
  /\ sublist (bound ++ commandExtraArgs st ++ args st) args0.

(** An option of [definitions] is marked required and no token of [args]
    refers to it by long name or by flag. *)
Definition missingRequired (definitions : list OptionDefinition.t)
    (args : list string) (name : string) : Prop :=
  (exists d, d ∈ definitions /\ OptionDefinition.name d = name
             /\ OptionDefinition.required d = true)
  /\ ~ supplied (initialTables definitions) args name.

(** *** Vocabulary for the further properties *)

(** A non-empty run of word characters. *)
Definition isWordSegment (s : string) : bool :=
  negb (bool_decide (s = EmptyString)) && forallb is_word (list_ascii_of_string s).

(** Each segment behind a hyphen of its own. *)
Fixpoint hyphenated (segments : list string) : string :=
  match segments with
  | [] => EmptyString
  | segment :: rest => "-" +:+ segment +:+ hyphenated rest
  end.

(** The segments separated by single hyphens. *)
Definition joinHyphen (segments : list string) : string :=
  match segments with
  | [] => EmptyString
  | segment :: rest => segment +:+ hyphenated rest
  end.

(** Every token of the list has a candidate module along the walk. *)
Fixpoint allModules (existsSync : string -> bool) (searchPath : string)
    (tokens : list string) : bool :=
  match tokens with
  | [] => true
  | arg :: rest =>
      hasModule existsSync searchPath arg
      && allModules existsSync (Resolver.Path_join searchPath arg) rest
  end.

(** The module recorded last along such a walk, [file] when it is empty. *)
Fixpoint lastFile (existsSync : string -> bool) (searchPath : string)
    (tokens : list string) (file : string) : string :=
  match tokens with
  | [] => file
  | arg :: rest =>
      lastFile existsSync (Resolver.Path_join searchPath arg) rest
        (moduleFile existsSync searchPath arg)
  end.

(** The state once the positional tokens [tokens] are bound: the first ones
    fill the pending parameters, the others overflow. *)
Definition boundPositionals (tokens : list string) (st : Invocation) : Invocation :=
  {| args := args st;
     commandArgs :=
       commandArgs st
       ++ zip_with castArgument tokens
            (ParamDefinition.type <$> pendingParamDefinitions st);
     commandExtraArgs :=
       commandExtraArgs st ++ drop (length (pendingParamDefinitions st)) tokens;
     tables := tables st;
     pendingParamDefinitions :=
       drop (length tokens) (pendingParamDefinitions st) |}.

(** The option names of a command that are marked required, as [load]
    would report them before any token is consumed. *)
Definition requiredNames (command : Command) : option (list string) :=
  Object_keys ∘ requiredOptionMap ∘ initialTables <$> optionDefinitions command.

(** What [execute] receives when a tail of positional tokens is
    dispatched. *)
Definition positionalArguments (command : Command) (commandSequence : list string)
    (tokens : list string) (cwd : string) : list argument :=
  (AValue
     <$> zip_with castArgument tokens
           (ParamDefinition.type <$> paramDefinitions command)
         ++ (ParamDefinition.default
               <$> drop (length tokens) (paramDefinitions command)))
  ++ match optionDefinitions command with
     | Some definitions => [AOptions (commandOptions (initialTables definitions))]
     | None => []
     end
  ++ [AContext {| Context.cwd := cwd;
                  Context.args := drop (length (paramDefinitions command)) tokens;
                  Context.commands := commandSequence |}].


(** The tables of a state that the loop never writes to are those built
    from the definitions. *)
Definition lookupTablesOf (definitions : list OptionDefinition.t)
    (t : OptionTables) : Prop :=
  optionDefinitionMap t = optionDefinitionMap (initialTables definitions)
  /\ definitionPrototype t = definitionPrototype (initialTables definitions)
  /\ flagToNameMapping t = flagToNameMapping (initialTables definitions).

(** The names of the required options in the order of declaration,
    [__proto__] apart. *)
Definition declaredRequired (definitions : list OptionDefinition.t) : list string :=
  filter (λ n, n <> "__proto__")
    (OptionDefinition.name
       <$> filter (λ d, OptionDefinition.required d = true) definitions).

(** Each segment behind a separator of its own. *)
Fixpoint separated (sep : ascii) (segments : list string) : string :=
  match segments with
  | [] => EmptyString
  | segment :: rest => String sep segment +:+ separated sep rest
  end.

(** A directory name below [node_modules]: not empty, not [node_modules]
    itself, and without the separator. *)
Definition isPackageSegment (sep : ascii) (segment : string) : Prop :=
  admissible (list_ascii_of_string segment) = true
  /\ sep ∉ list_ascii_of_string segment.

(** * Properties *)

(** ** Coercion *)

Lemma lower_char_cases (c : ascii) (d : ascii) :
  d ∈ ["f"; "a"; "l"; "s"; "e"]%char ->
  bool_decide (lower_char c = d) = sameLetter c d.
Proof.
  intros Hd. repeat (apply elem_of_cons in Hd as [->|Hd]);
    try (destruct c as [[] [] [] [] [] [] [] []]; vm_compute; reflexivity).
  inversion Hd.
Qed.

Lemma toLowerCase_false (arg : string) :
  bool_decide (toLowerCase arg = "false") = equalsIgnoringCase arg "false".
Proof.
  assert (Hcons : forall c s d t,
    bool_decide (String (lower_char c) s = String d t)
    = bool_decide (lower_char c = d) && bool_decide (s = t)).
  { intros. rewrite <- bool_decide_and. apply bool_decide_ext.
    split; [intros [= -> ->] | intros [-> ->]]; done. }
  do 5 (destruct arg as [|? arg]; [reflexivity|];
        cbn [toLowerCase equalsIgnoringCase];
        rewrite Hcons, lower_char_cases by (repeat constructor); f_equal).
  destruct arg; reflexivity.
Qed.

Lemma Number_examples :
  Number "0" = Finite false 0 0
  /\ Number " 12.50 " = Finite false 25 (-1)
  /\ Number "-1e3" = Finite true 125 3
  /\ Number "0x1F" = Finite false 31 0
  /\ Number ".5e-1" = Finite false 3602879701896397 (-56)
  /\ Number "-Infinity" = Infinity true
  /\ Number EmptyString = Finite false 0 0
  /\ Number "yes" = NaN
  /\ Number "1e" = NaN
  /\ Number "." = NaN
  /\ Number "0b" = NaN
  /\ Number "1 2" = NaN.
Proof. repeat split; vm_compute; reflexivity. Qed.

(** Rounding: an integer beyond [2^53] goes to the nearest double, a
    decimal from [2^1024] on to infinity, and two spellings of a double are
    the same number. *)
Lemma Number_rounding :
  Number "9007199254740993" = Number "9007199254740992"
  /\ Number "9007199254740992" = Finite false 1 53
  /\ Number "1e400" = Infinity false
  /\ Number "-1e400" = Infinity true
  /\ Number "1.7976931348623157e308" = Finite false 9007199254740991 971
  /\ Number "5e-324" = Finite false 1 (-1074)
  /\ Number "0.1" = Finite false 3602879701896397 (-55)
  /\ Number "100e-3" = Number "0.1".
Proof. repeat split; vm_compute; reflexivity. Qed.

(** A decimal below half the least subnormal double is zero as a number,
    hence [false] as a Boolean. *)
Lemma castArgument_underflow :
  castArgument "1e-400" TBoolean = VBoolean false
  /\ castArgument "1e-300" TBoolean = VBoolean true.
Proof. split; vm_compute; reflexivity. Qed.

(** Coercion to the other types. *)
Lemma castArgument_others (arg : string) :
  castArgument arg TString = VString arg
  /\ castArgument arg TNumber = VNumber (Number arg)
  /\ castArgument arg TOther = VUndefined.
Proof. repeat split. Qed.

(** C6. Coercion to Boolean: a token equal to "false" up to case gives
    [false]; any other token gives [true] when it does not parse as a
    number, and otherwise the Boolean cast of the number, which is [false]
    exactly for zero.  So "false", "FALSE" and "False" give [false], "0"
    gives [false], "2" and "yes" give [true]. *)
Theorem C6_boolean_coercion :
  (forall arg : string,
     castArgument arg TBoolean
     = VBoolean (if equalsIgnoringCase arg "false" then false
                 else if isNaN (Number arg) then true
                 else negb (is_zero (Number arg))))
  /\ castArgument "false" TBoolean = VBoolean false
  /\ castArgument "FALSE" TBoolean = VBoolean false
  /\ castArgument "False" TBoolean = VBoolean false
  /\ castArgument "0" TBoolean = VBoolean false
  /\ castArgument "2" TBoolean = VBoolean true
  /\ castArgument "yes" TBoolean = VBoolean true.
Proof.
  split; [|repeat split; vm_compute; reflexivity].
  intros arg. unfold castArgument. rewrite toLowerCase_false.
  destruct (equalsIgnoringCase arg "false"); [reflexivity|].
  unfold toBoolean. destruct (isNaN (Number arg)); reflexivity.
Qed.

(** ** The resolver *)

Section Resolution.

Variable existsSync : string -> bool.

Lemma find_possiblePaths (searchPath : string) :
  List.find existsSync (Resolver.possiblePaths searchPath)
  = if existsSync (searchPath +:+ ".js") then Some (searchPath +:+ ".js")
    else if existsSync (Resolver.Path_join searchPath "default.js")
         then Some (Resolver.Path_join searchPath "default.js")
         else None.
Proof. reflexivity. Qed.

(** A turn of the loop at a token that halts it. *)
Lemma scan_halts i arg rest searchPath r :
  halts existsSync searchPath arg = true ->
  Resolver.scan existsSync i (arg :: rest) searchPath r = r.
Proof.
  unfold halts, haltsWithoutModule. cbn [Resolver.scan].
  rewrite find_possiblePaths.
  destruct (Resolver.validCommandName arg); [|reflexivity].
  cbn. intros [[H1 H2]%andb_true_iff H3]%andb_true_iff.
  apply negb_true_iff in H1, H2. rewrite H1, H2, H3. reflexivity.
Qed.

(** A turn at a token with a candidate module. *)
Lemma scan_module i arg rest searchPath r :
  hasModule existsSync searchPath arg = true ->
  Resolver.scan existsSync i (arg :: rest) searchPath r
  = Resolver.scan existsSync (S i) rest (Resolver.Path_join searchPath arg)
      {| Resolver.filename := moduleFile existsSync searchPath arg;
         Resolver.argsIndex := i + 1;
         Resolver.commandSequence := Resolver.commandSequence r ++ [arg] |}.
Proof.
  unfold hasModule, moduleFile. cbn [Resolver.scan].
  rewrite find_possiblePaths.
  intros [-> H]%andb_true_iff.
  destruct (existsSync (Resolver.Path_join searchPath arg +:+ ".js"));
    [reflexivity|].
  cbn in H. rewrite H. reflexivity.
Qed.

(** A turn at a token that names an existing directory without a
    candidate module: the walk goes down and nothing is recorded. *)
Lemma scan_directory i arg rest searchPath r :
  halts existsSync searchPath arg = false ->
  hasModule existsSync searchPath arg = false ->
  Resolver.scan existsSync i (arg :: rest) searchPath r
  = Resolver.scan existsSync (S i) rest (Resolver.Path_join searchPath arg) r.
Proof.
  unfold halts, haltsWithoutModule, hasModule. cbn [Resolver.scan].
  rewrite find_possiblePaths.
  destruct (Resolver.validCommandName arg); [|discriminate].
  destruct (existsSync (Resolver.Path_join searchPath arg +:+ ".js"));
    [discriminate|].
  destruct (existsSync (Resolver.Path_join _ "default.js")); [discriminate|].
  cbn. intros ->%negb_false_iff _. reflexivity.
Qed.

Lemma descend_snoc searchPath tokens arg :
  descend searchPath (tokens ++ [arg])
  = Resolver.Path_join (descend searchPath tokens) arg.
Proof. unfold descend. rewrite fold_left_app. reflexivity. Qed.

(** Over tokens that do not halt it, the loop runs to their end. *)
Lemma scan_app pre : forall i rest searchPath r,
  passes existsSync searchPath pre = true ->
  Resolver.scan existsSync i (pre ++ rest) searchPath r
  = Resolver.scan existsSync (i + length pre) rest (descend searchPath pre)
      (Resolver.scan existsSync i pre searchPath r).
Proof.
  induction pre as [|arg pre IH]; intros i rest searchPath r Hpass.
  - cbn. rewrite Nat.add_0_r. reflexivity.
  - cbn [passes] in Hpass. apply andb_true_iff in Hpass as [Hh Hpass].
    apply negb_true_iff in Hh.
    replace (i + length (arg :: pre)) with (S i + length pre) by (cbn; lia).
    change (descend searchPath (arg :: pre))
      with (descend (Resolver.Path_join searchPath arg) pre).
    rewrite <- app_comm_cons.
    destruct (hasModule existsSync searchPath arg) eqn:Hm.
    + rewrite !scan_module by assumption. apply IH, Hpass.
    + rewrite !scan_directory by assumption. apply IH, Hpass.
Qed.

(** Where the arguments start after a walk that was not halted: past the
    last token with a candidate module. *)
Lemma scan_argsIndex pre : forall i searchPath r,
  passes existsSync searchPath pre = true ->
  exists matched skipped,
    pre = matched ++ skipped
    /\ noModules existsSync (descend searchPath matched) skipped = true
    /\ Resolver.argsIndex (Resolver.scan existsSync i pre searchPath r)
       = match matched with
         | [] => Resolver.argsIndex r
         | _ => i + length matched
         end.
Proof.
  induction pre as [|arg pre IH] using rev_ind; intros i searchPath r Hpass.
  - exists [], []. repeat split.
  - assert (Hpre : passes existsSync searchPath pre = true
                   /\ halts existsSync (descend searchPath pre) arg = false).
    { clear -Hpass. revert searchPath Hpass.
      induction pre as [|a pre IH]; cbn; intros searchPath H.
      - apply andb_true_iff in H as [H _]. apply negb_true_iff in H. done.
      - apply andb_true_iff in H as [-> H]. cbn. apply IH, H. }
    destruct Hpre as [Hpre Hh].
    rewrite scan_app by assumption.
    destruct (hasModule existsSync (descend searchPath pre) arg) eqn:Hm.
    + rewrite scan_module by assumption. cbn.
      exists (pre ++ [arg]), []. rewrite app_nil_r, length_app. cbn.
      repeat split. destruct (pre ++ [arg]) eqn:E; [|lia].
      destruct pre; discriminate.
    + rewrite scan_directory by assumption. cbn.
      destruct (IH i searchPath r Hpre) as (matched & skipped & -> & Hno & Hidx).
      exists matched, (skipped ++ [arg]). rewrite app_assoc. repeat split; [|exact Hidx].
      clear -Hno Hm. unfold descend in *. rewrite fold_left_app in Hm.
      revert Hno Hm. generalize (fold_left Resolver.Path_join matched searchPath).
      induction skipped as [|a skipped IH]; cbn; intros sp Hno Hm.
      * rewrite Hm. reflexivity.
      * apply andb_true_iff in Hno as [-> Hno]. cbn. apply IH; assumption.
Qed.

(** C1, as the code has it. Resolution halts at the first token that fails
    the command-name grammar or for which neither a candidate module nor
    the subdirectory exists: the tokens after it are not looked at, and
    the arguments of the resolved command are the tokens walked since the
    last module match, none of which has a module, followed by the halting
    token and all tokens after it.  A token with no candidate module whose
    subdirectory exists does not halt resolution: the walk goes on with
    the next token inside that subdirectory. *)
Theorem C1_resolution_halts :
  (forall (entry root node script : string) (pre : list string)
          (arg : string) (post : list string),
      passes existsSync root pre = true ->
      halts existsSync (descend root pre) arg = true ->
      let argv := node :: script :: pre ++ arg :: post in
      Resolver.resolve existsSync entry argv root
      = Resolver.resolve existsSync entry (node :: script :: pre) root
      /\ exists matched skipped,
           pre = matched ++ skipped
           /\ noModules existsSync (descend root matched) skipped = true
           /\ Resolver.resolvedArgs argv (Resolver.resolve existsSync entry argv root)
              = skipped ++ arg :: post)
  /\ (forall (i : nat) (arg : string) (rest : list string)
             (searchPath : string) (r : Resolver.Resolved),
        Resolver.validCommandName arg = true ->
        haltsWithoutModule existsSync searchPath arg = true ->
        existsSync (Resolver.Path_join searchPath arg) = true ->
        Resolver.scan existsSync i (arg :: rest) searchPath r
        = Resolver.scan existsSync (S i) rest (Resolver.Path_join searchPath arg) r).
Proof.
  split.
  - intros entry root node script pre arg post Hpass Hhalt argv.
    assert (Hres : Resolver.resolve existsSync entry argv root
                   = Resolver.resolve existsSync entry (node :: script :: pre) root).
    { unfold Resolver.resolve, argv. cbn [drop]. rewrite !drop_0.
      rewrite scan_app by assumption. apply scan_halts, Hhalt. }
    split; [exact Hres|].
    rewrite Hres. unfold Resolver.resolve, Resolver.resolvedArgs. cbn [drop].
    rewrite drop_0.
    match goal with
    | |- context [Resolver.scan _ 2 pre root ?r0] =>
        destruct (scan_argsIndex pre 2 root r0 Hpass)
          as (matched & skipped & -> & Hno & ->)
    end.
    exists matched, skipped. repeat split; [exact Hno|].
    unfold argv. cbn [Resolver.argsIndex].
    replace (match matched with [] => 2 | _ :: _ => 2 + length matched end)
      with (2 + length matched) by (destruct matched; reflexivity).
    cbn [Nat.add drop]. rewrite <- app_assoc. apply drop_app_length.
  - intros i arg rest searchPath r Hv Hw Hd.
    apply scan_directory.
    + unfold halts. rewrite Hw, Hv, Hd. reflexivity.
    + unfold hasModule. unfold haltsWithoutModule in Hw. rewrite Hv in *.
      cbn in Hw |- *. apply andb_true_iff in Hw as [H1 H2].
      apply negb_true_iff in H1, H2. rewrite H1. cbn.
      exact H2.
Qed.

(** C8. In a turn of the loop at a token that obeys the grammar, the leaf
    module is probed first and the default module of the subdirectory
    second, and the first of the two that exists is recorded; so a token
    whose leaf module exists resolves to the leaf module, whatever the
    subdirectory holds. *)
Theorem C8_leaf_module_first (i : nat) (arg : string) (rest : list string)
    (searchPath : string) (r : Resolver.Resolved) :
  Resolver.validCommandName arg = true ->
  let here := Resolver.Path_join searchPath arg in
  let recorded file :=
    Resolver.scan existsSync (S i) rest here
      {| Resolver.filename := file;
         Resolver.argsIndex := i + 1;
         Resolver.commandSequence := Resolver.commandSequence r ++ [arg] |} in
  Resolver.scan existsSync i (arg :: rest) searchPath r
  = (if existsSync (here +:+ ".js") then recorded (here +:+ ".js")
     else if existsSync (Resolver.Path_join here "default.js")
          then recorded (Resolver.Path_join here "default.js")
          else if existsSync here
               then Resolver.scan existsSync (S i) rest here r
               else r)
  /\ (existsSync (here +:+ ".js") = true ->
      forall entry node script,
        Resolver.filename
          (Resolver.resolve existsSync entry [node; script; arg] searchPath)
        = here +:+ ".js").
Proof.
  intros Hv here recorded. split.
  - cbn [Resolver.scan]. rewrite Hv, find_possiblePaths. fold here.
    destruct (existsSync (here +:+ ".js")); [reflexivity|].
    destruct (existsSync (Resolver.Path_join here "default.js")); [reflexivity|].
    destruct (existsSync here); reflexivity.
  - intros Hleaf entry node script. unfold Resolver.resolve.
    cbn [drop Resolver.scan]. rewrite Hv, find_possiblePaths. fold here.
    rewrite Hleaf. reflexivity.
Qed.

End Resolution.

(** Both parts at work: [bar] halts the walk after the module [foo], and
    the module-less directory [foo] is walked through. *)
Lemma C1_resolution_halts_witness :
  (passes tree_both "/cli" ["foo"] = true
   /\ halts tree_both (descend "/cli" ["foo"]) "bar" = true
   /\ Resolver.resolve tree_both "clime" ["node"; "clime"; "foo"; "bar"; "x"] "/cli"
      = Resolver.resolve tree_both "clime" ["node"; "clime"; "foo"] "/cli")
  /\ (Resolver.validCommandName "foo" = true
      /\ haltsWithoutModule tree_foo_bar "/cli" "foo" = true
      /\ tree_foo_bar (Resolver.Path_join "/cli" "foo") = true
      /\ forall r,
           Resolver.scan tree_foo_bar 2 ["foo"; "bar"] "/cli" r
           = Resolver.scan tree_foo_bar 3 ["bar"] "/cli/foo" r).
Proof.
  split.
  - split; [reflexivity|]. split; [reflexivity|].
    exact (proj1 (proj1 (C1_resolution_halts tree_both)
                   "clime" "/cli" "node" "clime" ["foo"] "bar" ["x"]
                   eq_refl eq_refl)).
  - split; [reflexivity|]. split; [reflexivity|]. split; [reflexivity|].
    intros r.
    exact (proj2 (C1_resolution_halts tree_foo_bar) 2 "foo" ["bar"] "/cli" r
             eq_refl eq_refl eq_refl).
Defined.

(** C1 as stated fails: in a tree where [foo] is a directory without a
    default module and [foo/bar] is a module, neither candidate exists for
    the token [foo], and resolution goes on to resolve [bar]. *)
Lemma C1_counterexample :
  haltsWithoutModule tree_foo_bar "/cli" "foo" = true
  /\ Resolver.resolve tree_foo_bar "clime" ["node"; "clime"; "foo"; "bar"; "x"] "/cli"
     = {| Resolver.filename := "/cli/foo/bar.js";
          Resolver.argsIndex := 4;
          Resolver.commandSequence := ["clime"; "bar"] |}
  /\ ~ (forall existsSync i arg rest searchPath r,
          haltsWithoutModule existsSync searchPath arg = true ->
          Resolver.scan existsSync i (arg :: rest) searchPath r = r).
Proof.
  split; [reflexivity|]. split; [reflexivity|].
  intros H.
  specialize (H tree_foo_bar 2 "foo" ["bar"] "/cli"
                {| Resolver.filename := "/cli/default.js";
                   Resolver.argsIndex := 2;
                   Resolver.commandSequence := ["clime"] |} eq_refl).
  discriminate H.
Qed.

(** With both a leaf module and a default module for [foo], the leaf module
    is resolved. *)
Lemma C8_leaf_module_first_witness :
  Resolver.validCommandName "foo" = true
  /\ tree_both "/cli/foo.js" = true
  /\ tree_both "/cli/foo/default.js" = true
  /\ Resolver.filename
       (Resolver.resolve tree_both "clime" ["node"; "clime"; "foo"] "/cli")
     = "/cli/foo.js".
Proof.
  split; [reflexivity|]. split; [reflexivity|]. split; [reflexivity|].
  exact (proj2 (C8_leaf_module_first tree_both 2 "foo" [] "/cli"
                  {| Resolver.filename := "/cli/default.js";
                     Resolver.argsIndex := 2;
                     Resolver.commandSequence := ["clime"] |} eq_refl)
           eq_refl "clime" "node" "clime").
Defined.

(** ** Plain objects used as tables *)

Lemma assign_proto {V : Type} (v : V) (table : gmap string V) :
  JSObject.assign "__proto__" v table = table.
Proof. reflexivity. Qed.

Lemma assign_insert {V : Type} (name : string) (v : V) (table : gmap string V) :
  name <> "__proto__" -> JSObject.assign name v table = <[name := v]> table.
Proof. intros H. unfold JSObject.assign. rewrite bool_decide_false by exact H. reflexivity. Qed.

Lemma lookup_assign_eq {V : Type} (name : string) (v : V) (table : gmap string V) :
  name <> "__proto__" -> JSObject.assign name v table !! name = Some v.
Proof. intros H. rewrite assign_insert by exact H. apply lookup_insert_eq. Qed.

Lemma lookup_assign_ne {V : Type} (name key : string) (v : V) (table : gmap string V) :
  name <> key -> JSObject.assign name v table !! key = table !! key.
Proof.
  intros H. unfold JSObject.assign. case_bool_decide; [reflexivity|].
  apply lookup_insert_ne, H.
Qed.

Lemma lookup_assign_proto {V : Type} (name : string) (v : V) (table : gmap string V) :
  JSObject.assign name v table !! "__proto__" = table !! "__proto__".
Proof.
  unfold JSObject.assign. case_bool_decide; [reflexivity|].
  apply lookup_insert_ne. assumption.
Qed.

Lemma assign_assign {V : Type} (name : string) (v w : V) (table : gmap string V) :
  JSObject.assign name v (JSObject.assign name w table) = JSObject.assign name v table.
Proof.
  unfold JSObject.assign. case_bool_decide; [reflexivity|]. apply insert_insert_eq.
Qed.


Lemma own_assignOrdered {V : Type} (name : string) (v : V) (table : JSObject.ordered V) :
  JSObject.own (JSObject.assignOrdered name v table)
  = if bool_decide (name = "__proto__") then JSObject.own table
    else if bool_decide (name ∈ JSObject.own table) then JSObject.own table
         else JSObject.own table ++ [name].
Proof.
  unfold JSObject.assignOrdered, JSObject.own.
  case_bool_decide; [reflexivity|].
  case_bool_decide; [|rewrite fmap_app; reflexivity].
  rewrite <- list_fmap_compose. apply list_fmap_ext.
  intros i [k w] _. cbn. case_bool_decide; cbn; congruence.
Qed.

Lemma dom_assignOrdered {V : Type} (name : string) (v : V) (table : JSObject.ordered V) :
  JSObject.dom (JSObject.assignOrdered name v table)
  = if bool_decide (name = "__proto__") then JSObject.dom table
    else {[name]} ∪ JSObject.dom table.
Proof.
  unfold JSObject.dom. rewrite own_assignOrdered.
  case_bool_decide; [reflexivity|].
  case_bool_decide; [set_solver|].
  rewrite list_to_set_app_L. set_solver.
Qed.

Lemma own_remove {V : Type} (name : string) (table : JSObject.ordered V) :
  JSObject.own (JSObject.remove name table)
  = filter (λ key, key <> name) (JSObject.own table).
Proof.
  unfold JSObject.remove, JSObject.own.
  induction table as [|[k w] table IH]; [reflexivity|].
  rewrite fmap_cons, (filter_cons _ (k, w)), (filter_cons _ k). cbn [fst].
  repeat case_decide; try contradiction.
  - rewrite fmap_cons. cbn [fst]. f_equal. exact IH.
  - exact IH.
Qed.

Lemma dom_remove {V : Type} (name : string) (table : JSObject.ordered V) :
  JSObject.dom (JSObject.remove name table) = JSObject.dom table ∖ {[name]}.
Proof.
  unfold JSObject.dom. rewrite own_remove. apply set_eq. intros key.
  rewrite elem_of_list_to_set, list_elem_of_filter, elem_of_difference,
    elem_of_list_to_set, elem_of_singleton. tauto.
Qed.

Lemma remove_remove {V : Type} (name : string) (table : JSObject.ordered V) :
  JSObject.remove name (JSObject.remove name table) = JSObject.remove name table.
Proof. unfold JSObject.remove. apply list_filter_filter_l. auto. Qed.

Lemma elem_of_insertIndex n key l m k :
  (m, k) ∈ JSObject.insertIndex n key l <-> (m, k) = (n, key) \/ (m, k) ∈ l.
Proof.
  induction l as [|[m' k'] l IH]; cbn.
  - set_solver.
  - destruct (n <? m')%N; [set_solver|].
    rewrite !elem_of_cons, IH. tauto.
Qed.

Lemma elem_of_indexKeys keys key :
  key ∈ JSObject.indexKeys keys
  <-> key ∈ keys /\ JSObject.arrayIndex key <> None.
Proof.
  unfold JSObject.indexKeys. rewrite list_elem_of_fmap.
  assert (H : forall n k,
             (n, k) ∈ foldr (λ key acc,
                               match JSObject.arrayIndex key with
                               | Some n => JSObject.insertIndex n key acc
                               | None => acc
                               end) [] keys
             <-> k ∈ keys /\ JSObject.arrayIndex k = Some n).
  { induction keys as [|k0 keys IH]; intros n k; cbn [foldr].
    - set_solver.
    - destruct (JSObject.arrayIndex k0) as [n0|] eqn:E.
      + rewrite elem_of_insertIndex, IH, elem_of_cons. split.
        * intros [[= -> ->]|[H1 H2]]; auto.
        * intros [[->|H1] H2]; [left; congruence|auto].
      + rewrite IH, elem_of_cons. split; [tauto|].
        intros [[->|H1] H2]; [congruence|auto]. }
  split.
  - intros ([n k] & -> & Hin). apply H in Hin as [H1 H2]. cbn. split; congruence.
  - intros [H1 H2]. destruct (JSObject.arrayIndex key) as [n|] eqn:E; [|done].
    exists (n, key). split; [reflexivity|]. apply H. auto.
Qed.

(** [Object.keys] lists the own keys, each of them. *)
Lemma elem_of_keys {V : Type} (table : JSObject.ordered V) key :
  key ∈ JSObject.keys table <-> key ∈ JSObject.dom table.
Proof.
  unfold JSObject.keys, JSObject.dom.
  rewrite elem_of_app, elem_of_indexKeys, list_elem_of_filter, elem_of_list_to_set.
  destruct (JSObject.arrayIndex key) as [n|].
  - split; [intros [[H _]|[[=] _]]; exact H|intros H; left; split; [exact H|done]].
  - split; [intros [[_ []]|[_ H]]; [reflexivity|exact H]|intros H; right; done].
Qed.

(** ** The binder *)

Lemma set_tables_id st t : tables st = Some t -> set_tables t st = st.
Proof. destruct st; cbn; intros ->; reflexivity. Qed.

Lemma set_args_id st : set_args (args st) st = st.
Proof. destruct st; reflexivity. Qed.

Lemma bind_eq {A B : Type} (m : M A) (f : A -> M B) (st : Invocation) :
  (m ≫= f) st
  = match m st with
    | inl e => inl e
    | inr (a, st') => f a st'
    end.
Proof. reflexivity. Qed.

(** Run the outermost bind of the goal. *)
Ltac step_bind :=
  match goal with
  | |- context [@mbind M M_bind ?A ?B ?f ?m ?st] => rewrite (bind_eq m f st)
  end.

Lemma assignOption_eq name v st :
  assignOption name v st
  = match tables st with
    | Some t =>
        inr (tt, set_tables
                   (set_commandOptions (JSObject.assign name v (commandOptions t)) t) st)
    | None => inl TypeError
    end.
Proof. unfold assignOption, theTables. rewrite bind_eq. destruct (tables st); reflexivity. Qed.

Lemma deleteRequired_eq name st :
  deleteRequired name st
  = match tables st with
    | Some t =>
        inr (tt, set_tables
                   (set_requiredOptionMap
                      (JSObject.remove name (requiredOptionMap t)) t) st)
    | None => inl TypeError
    end.
Proof. unfold deleteRequired, theTables. rewrite bind_eq. destruct (tables st); reflexivity. Qed.

Lemma consumeOption_eq name definition st :
  consumeOption name definition st
  = match args st with
    | [] => inl (MissingOptionValue name)
    | arg :: rest =>
        if startsWithDash arg then inl (OptionValueLooksLikeOption arg name)
        else assignOption name (castArgument arg (OptionDefinition.type definition))
               (set_args rest st)
    end.
Proof.
  unfold consumeOption, shift. rewrite bind_eq.
  destruct (args st) as [|arg rest]; [reflexivity|].
  destruct (startsWithDash arg); reflexivity.
Qed.

(** The part of [consumeFlags] and of [consumeToggleOrOption] that marks
    the option satisfied. *)
Lemma satisfy_eq name definition st t :
  tables st = Some t ->
  (if OptionDefinition.required definition then deleteRequired name else mret tt) st
  = inr (tt, set_tables (satisfied name definition t) st).
Proof.
  intros Ht. unfold satisfied.
  destruct (OptionDefinition.required definition).
  - rewrite deleteRequired_eq, Ht. reflexivity.
  - rewrite set_tables_id by assumption. reflexivity.
Qed.

Lemma consumeToggleOrOption_eq name st :
  consumeToggleOrOption name st
  = match tables st with
    | None => inl TypeError
    | Some t =>
        if JSObject.hasMethod (optionDefinitionMap t) then
          match optionDefinitionMap t !! name with
          | None => inl (UnknownOptionName name)
          | Some definition =>
              if OptionDefinition.toggle definition
              then inr (tt, set_tables (assigned name definition (VBoolean true) t) st)
              else
                match args st with
                | [] => inl (MissingOptionValue name)
                | arg :: rest =>
                    if startsWithDash arg
                    then inl (OptionValueLooksLikeOption arg name)
                    else
                      inr (tt,
                           set_tables
                             (assigned name definition
                                (castArgument arg (OptionDefinition.type definition)) t)
                             (set_args rest st))
                end
          end
        else inl TypeError
    end.
Proof.
  unfold consumeToggleOrOption. rewrite bind_eq. unfold theTables.
  destruct (tables st) as [t|] eqn:Ht; [|reflexivity].
  destruct (JSObject.hasMethod (optionDefinitionMap t)); [|reflexivity].
  cbn [negb].
  destruct (optionDefinitionMap t !! name) as [definition|]; [|reflexivity].
  rewrite bind_eq, (satisfy_eq _ _ _ t Ht).
  destruct (OptionDefinition.toggle definition).
  - rewrite assignOption_eq. reflexivity.
  - rewrite consumeOption_eq. cbn [args set_tables].
    destruct (args st) as [|arg rest]; [reflexivity|].
    destruct (startsWithDash arg); [reflexivity|].
    rewrite assignOption_eq. reflexivity.
Qed.

Lemma assigned_optionDefinitionMap name definition v t :
  optionDefinitionMap (assigned name definition v t) = optionDefinitionMap t.
Proof. unfold assigned, satisfied. destruct (OptionDefinition.required _); reflexivity. Qed.

Lemma assigned_definitionPrototype name definition v t :
  definitionPrototype (assigned name definition v t) = definitionPrototype t.
Proof. unfold assigned, satisfied. destruct (OptionDefinition.required _); reflexivity. Qed.

Lemma assigned_definitionOf name definition v t n :
  definitionOf (assigned name definition v t) n = definitionOf t n.
Proof.
  unfold definitionOf.
  rewrite assigned_optionDefinitionMap, assigned_definitionPrototype. reflexivity.
Qed.

Lemma assigned_flagToNameMapping name definition v t :
  flagToNameMapping (assigned name definition v t) = flagToNameMapping t.
Proof. unfold assigned, satisfied. destruct (OptionDefinition.required _); reflexivity. Qed.

Lemma assigned_commandOptions name definition v t :
  commandOptions (assigned name definition v t)
  = JSObject.assign name v (commandOptions t).
Proof. unfold assigned, satisfied. destruct (OptionDefinition.required _); reflexivity. Qed.

Lemma assigned_requiredOptionMap name definition v t :
  requiredOptionMap (assigned name definition v t)
  = if OptionDefinition.required definition
    then JSObject.remove name (requiredOptionMap t)
    else requiredOptionMap t.
Proof. unfold assigned, satisfied. destruct (OptionDefinition.required _); reflexivity. Qed.

Lemma assigned_flagDefinition name definition v t c :
  flagDefinition (assigned name definition v t) c = flagDefinition t c.
Proof.
  unfold flagDefinition. rewrite assigned_flagToNameMapping.
  destruct (flagToNameMapping t !! String c EmptyString) as [n|]; [|reflexivity].
  cbn. rewrite assigned_definitionOf. reflexivity.
Qed.

Lemma assigned_isRequired name definition v t n :
  isRequired (assigned name definition v t) n = isRequired t n.
Proof. unfold isRequired. rewrite assigned_definitionOf. reflexivity. Qed.

Lemma assigned_flagNames name definition v t flags :
  flagNames (assigned name definition v t) flags = flagNames t flags.
Proof. unfold flagNames. rewrite assigned_flagToNameMapping. reflexivity. Qed.

(** One turn of the loop of [consumeFlags]. *)
Lemma consumeFlags_cons c rest st :
  consumeFlags (String c rest) st
  = match tables st with
    | None => inl (UnknownOptionFlag (String c EmptyString))
    | Some t =>
        if JSObject.hasMethod (flagToNameMapping t) then
          match flagToNameMapping t !! String c EmptyString with
          | None => inl (UnknownOptionFlag (String c EmptyString))
          | Some name =>
              match definitionOf t name with
              | None => inl TypeError
              | Some definition =>
                  if OptionDefinition.toggle definition
                  then consumeFlags rest
                         (set_tables (assigned name definition (VBoolean true) t) st)
                  else if bool_decide (rest = EmptyString) then
                    match args st with
                    | [] => inl (MissingOptionValue name)
                    | arg :: queue =>
                        if startsWithDash arg
                        then inl (OptionValueLooksLikeOption arg name)
                        else
                          inr (tt,
                               set_tables
                                 (assigned name definition
                                    (castArgument arg (OptionDefinition.type definition))
                                    t)
                                 (set_args queue st))
                    end
                  else inl NonTerminalFlagTakesValue
              end
          end
        else inl TypeError
    end.
Proof.
  cbn [consumeFlags]. rewrite bind_eq. cbn [get].
  destruct (tables st) as [t|] eqn:Ht; [|reflexivity].
  destruct (JSObject.hasMethod (flagToNameMapping t)); [|reflexivity].
  cbn [negb].
  destruct (flagToNameMapping t !! String c EmptyString) as [name|]; [|reflexivity].
  destruct (definitionOf t name) as [definition|]; [|reflexivity].
  step_bind. rewrite (satisfy_eq _ _ _ t Ht). step_bind.
  destruct (OptionDefinition.toggle definition).
  - rewrite assignOption_eq. reflexivity.
  - case_bool_decide as Hrest; [|reflexivity]. subst rest.
    rewrite consumeOption_eq. cbn [args set_tables].
    destruct (args st) as [|arg queue]; [reflexivity|].
    destruct (startsWithDash arg); [reflexivity|].
    rewrite assignOption_eq. reflexivity.
Qed.

Lemma consumeFlags_nil st : consumeFlags EmptyString st = inr (tt, st).
Proof. reflexivity. Qed.

Lemma optionStep_refl st : optionStep [] st st.
Proof.
  split; try reflexivity; [left; reflexivity|].
  destruct (tables st); [|done].
  repeat split. rewrite filter_nil. set_solver.
Qed.

(** The tables after a reference to [name] that succeeded. *)
Lemma optionStep_assigned name definition v t st queue :
  tables st = Some t ->
  definitionOf t name = Some definition ->
  (queue = args st \/ exists arg, args st = arg :: queue /\ startsWithDash arg = false) ->
  optionStep [name] st (set_tables (assigned name definition v t) (set_args queue st)).
Proof.
  intros Ht Hd Hq.
  split;
    cbn [tables set_tables set_args args commandArgs commandExtraArgs
           pendingParamDefinitions]; auto.
  rewrite Ht, assigned_optionDefinitionMap, assigned_definitionPrototype,
    assigned_flagToNameMapping, assigned_requiredOptionMap.
  repeat split. unfold isRequired.
  rewrite filter_cons, filter_nil. rewrite Hd.
  destruct (OptionDefinition.required definition).
  - rewrite decide_True by done. rewrite dom_remove. set_solver.
  - rewrite decide_False by done. set_solver.
Qed.

(** An own key of the definition table is read as such. *)
Lemma definitionOf_own t name definition :
  optionDefinitionMap t !! name = Some definition ->
  definitionOf t name = Some definition.
Proof. unfold definitionOf. intros ->. reflexivity. Qed.

(** A cluster consumed without a throw. *)
Lemma consumeFlags_step flags : forall st st' u,
  consumeFlags flags st = inr (u, st') ->
  optionStep (match tables st with Some t => flagNames t flags | None => [] end) st st'.
Proof.
  induction flags as [|c rest IH]; intros st st' u.
  - rewrite consumeFlags_nil. intros [= _ <-].
    replace (match tables st with Some t => flagNames t EmptyString | None => [] end)
      with (@nil string) by (destruct (tables st); reflexivity).
    apply optionStep_refl.
  - rewrite consumeFlags_cons.
    destruct (tables st) as [t|] eqn:Ht; [|discriminate].
    destruct (JSObject.hasMethod (flagToNameMapping t)); [|discriminate].
    unfold flagNames. cbn [list_ascii_of_string omap list_omap].
    destruct (flagToNameMapping t !! String c EmptyString) as [name|]; [|discriminate].
    destruct (definitionOf t name) as [definition|] eqn:Hd; [|discriminate].
    destruct (OptionDefinition.toggle definition).
    + intros Hrest. apply IH in Hrest. cbn [tables set_tables] in Hrest.
      rewrite assigned_flagNames in Hrest.
      pose proof (optionStep_assigned name definition (VBoolean true) t st (args st)
                    Ht Hd (or_introl eq_refl)) as H1.
      rewrite set_args_id in H1.
      destruct H1 as [A1 B1 C1 D1 E1], Hrest as [A2 B2 C2 D2 E2].
      cbn [tables set_tables args commandArgs commandExtraArgs
             pendingParamDefinitions] in *.
      split; auto.
      rewrite Ht in *. destruct (tables st') as [t'|]; [|done].
      destruct E1 as (E1a & E1p & E1b & E1c), E2 as (E2a & E2p & E2b & E2c).
      repeat split; [congruence|congruence|congruence|].
      rewrite E2c, E1c. fold (flagNames t rest).
      rewrite filter_cons.
      assert (Hreq : forall n, isRequired (assigned name definition (VBoolean true) t) n
                               = isRequired t n) by (intros; apply assigned_isRequired).
      rewrite (list_filter_iff _ (λ n, isRequired t n = true) (flagNames t rest))
        by (intros n; rewrite Hreq; done).
      rewrite filter_cons, filter_nil.
      destruct (decide (isRequired t name = true)); set_solver.
    + case_bool_decide as Hlast; [|discriminate]. subst rest.
      destruct (args st) as [|arg queue] eqn:Ha; [discriminate|].
      destruct (startsWithDash arg) eqn:Hdash; [discriminate|].
      intros [= _ <-]. cbn [list_ascii_of_string omap list_omap].
      apply optionStep_assigned; eauto.
Qed.

(** The three ways the loop classifies a token that is not a help request. *)
Lemma consumeToken_long name st :
  consumeToken ("--" +:+ name) st = consumeToggleOrOption name st.
Proof. reflexivity. Qed.

Lemma consumeToken_cluster flags st :
  charAt 0 flags <> Some "-"%char ->
  consumeToken ("-" +:+ flags) st = consumeFlags flags st.
Proof.
  intros H. unfold consumeToken. cbn.
  rewrite bool_decide_false; [reflexivity|].
  intros E. apply H. destruct flags; exact E.
Qed.

Lemma consumeToken_positional arg st :
  startsWithDash arg = false ->
  consumeToken arg st = consumeArgument arg st.
Proof. unfold consumeToken. intros ->. reflexivity. Qed.

(** A token that starts with a hyphen is [--name] or [-flags]. *)
Lemma startsWithDash_cases arg :
  startsWithDash arg = true ->
  (exists name, arg = "--" +:+ name)
  \/ (exists flags, arg = "-" +:+ flags /\ charAt 0 flags <> Some "-"%char).
Proof.
  unfold startsWithDash. intros H%bool_decide_eq_true.
  destruct arg as [|c arg]; [discriminate|]. cbn in H. injection H as ->.
  destruct (decide (charAt 0 arg = Some "-"%char)) as [E|E].
  - left. destruct arg as [|c arg]; [discriminate|]. cbn in E. injection E as ->.
    exists arg. reflexivity.
  - right. exists arg. split; [reflexivity|exact E].
Qed.

(** A token that starts with a hyphen, consumed without a throw. *)
Lemma consumeToken_option arg st st' u :
  startsWithDash arg = true ->
  consumeToken arg st = inr (u, st') ->
  optionStep (tokenNames st arg) st st'.
Proof.
  intros Hdash Hrun. unfold tokenNames, referredNames. rewrite Hdash.
  destruct (startsWithDash_cases arg Hdash) as [[name ->]|(flags & -> & Hflags)].
  - rewrite consumeToken_long, consumeToggleOrOption_eq in Hrun.
    cbn [String.append charAt String.get bool_decide substr].
    rewrite bool_decide_true by reflexivity.
    destruct (tables st) as [t|] eqn:Ht; [|discriminate].
    destruct (JSObject.hasMethod (optionDefinitionMap t)); [|discriminate].
    destruct (optionDefinitionMap t !! name) as [definition|] eqn:Hd; [|discriminate].
    apply definitionOf_own in Hd.
    destruct (OptionDefinition.toggle definition).
    + injection Hrun as _ <-.
      rewrite <- (set_args_id st) at 2.
      apply optionStep_assigned; auto.
    + destruct (args st) as [|v queue] eqn:Ha; [discriminate|].
      destruct (startsWithDash v) eqn:Hv; [discriminate|].
      injection Hrun as _ <-.
      apply optionStep_assigned; eauto.
  - rewrite consumeToken_cluster in Hrun by assumption.
    apply consumeFlags_step in Hrun.
    replace (bool_decide (charAt 1 ("-" +:+ flags) = Some "-"%char)) with false.
    + exact Hrun.
    + symmetry. apply bool_decide_eq_false. destruct flags; exact Hflags.
Qed.

(** Consuming a token never lengthens the queue, and what it removes is not
    a help request. *)
Lemma consumeToken_args arg st st' u :
  consumeToken arg st = inr (u, st') ->
  args st' = args st
  \/ exists v, args st = v :: args st' /\ startsWithDash v = false.
Proof.
  destruct (startsWithDash arg) eqn:Hdash.
  - intros H. apply (consumeToken_option _ _ _ _ Hdash) in H. apply H.
  - rewrite consumeToken_positional by assumption. unfold consumeArgument.
    destruct (pendingParamDefinitions st); intros [= _ <-]; left; reflexivity.
Qed.

Lemma isHelp_startsWithDash arg : isHelp arg = true -> startsWithDash arg = true.
Proof.
  unfold isHelp. intros H.
  repeat (apply orb_true_iff in H as [H|H]);
    apply bool_decide_eq_true in H; subst arg; reflexivity.
Qed.

(** One turn of the [while] loop. *)
Lemma consumeTokens_turn fuel st arg rest :
  args st = arg :: rest ->
  consumeTokens (S fuel) st
  = if isHelp arg then Some HelpRequested
    else match consumeToken arg (set_args rest st) with
         | inl e => Some (Thrown e)
         | inr (_, st') => consumeTokens fuel st'
         end.
Proof. intros H. cbn [consumeTokens]. rewrite H. reflexivity. Qed.

(** The loop never runs out of turns when given one per token. *)
Lemma consumeTokens_total fuel : forall st,
  length (args st) <= fuel -> is_Some (consumeTokens fuel st).
Proof.
  induction fuel as [|fuel IH]; intros st Hlen.
  - destruct (args st) eqn:Ha; [|cbn in Hlen; lia].
    cbn. rewrite Ha. eauto.
  - destruct (args st) as [|arg rest] eqn:Ha.
    + cbn. rewrite Ha. eauto.
    + rewrite (consumeTokens_turn _ _ _ _ Ha).
      destruct (isHelp arg); [eauto|].
      destruct (consumeToken arg (set_args rest st)) as [e|[u st']] eqn:Hrun; [eauto|].
      apply IH. apply consumeToken_args in Hrun. cbn [args set_args] in Hrun.
      destruct Hrun as [->|(v & -> & _)]; cbn [length] in Hlen; lia.
Qed.

(** More turns than needed change nothing. *)
Lemma consumeTokens_total_more fuel : forall fuel' st exit,
  consumeTokens fuel st = Some exit ->
  fuel <= fuel' ->
  consumeTokens fuel' st = Some exit.
Proof.
  induction fuel as [|fuel IH]; intros fuel' st exit Hrun Hle.
  - cbn in Hrun. destruct (args st) eqn:Ha; [|discriminate].
    destruct fuel'; cbn; rewrite Ha; exact Hrun.
  - destruct fuel' as [|fuel']; [lia|].
    destruct (args st) as [|arg rest] eqn:Ha.
    + cbn in Hrun |- *. rewrite Ha in Hrun |- *. exact Hrun.
    + rewrite (consumeTokens_turn _ _ _ _ Ha) in Hrun.
      rewrite (consumeTokens_turn _ _ _ _ Ha).
      destruct (isHelp arg); [exact Hrun|].
      destruct (consumeToken arg (set_args rest st)) as [e|[u st1]];
        [exact Hrun|].
      apply IH; [exact Hrun|lia].
Qed.

(** An invariant of the turns that do not throw holds when the queue is
    exhausted. *)
Lemma consumeTokens_invariant (Inv : Invocation -> Prop) :
  (forall st arg rest st' u,
      args st = arg :: rest -> isHelp arg = false ->
      consumeToken arg (set_args rest st) = inr (u, st') ->
      Inv st -> Inv st') ->
  forall fuel st st',
    consumeTokens fuel st = Some (Exhausted st') ->
    Inv st -> Inv st' /\ args st' = [].
Proof.
  intros Hstep. induction fuel as [|fuel IH]; intros st st' Hrun Hinv.
  - cbn in Hrun. destruct (args st) eqn:Ha; [|discriminate].
    injection Hrun as <-. auto.
  - destruct (args st) as [|arg rest] eqn:Ha.
    + cbn in Hrun. rewrite Ha in Hrun. injection Hrun as <-. auto.
    + rewrite (consumeTokens_turn _ _ _ _ Ha) in Hrun.
      destruct (isHelp arg) eqn:Hh; [discriminate|].
      destruct (consumeToken arg (set_args rest st)) as [e|[u st1]] eqn:Hone;
        [discriminate|].
      eapply IH; eauto.
Qed.

(** [load] always ends: with help, with a throw, or with the dispatch. *)
Lemma load_total command commandSequence args cwd :
  is_Some (load command commandSequence args cwd).
Proof.
  unfold load.
  destruct (consumeTokens_total (length args) (initial command args)) as [x ->];
    [reflexivity|].
  destruct x; eauto.
Qed.

(** ** The classifier *)

(** C10. A token that is exactly [-], taken from the queue by the loop, is
    not a help request and is an empty flag cluster: it throws nothing and
    leaves every variable of the invocation as it was, so no option value
    changes, no parameter is bound and nothing is added to the overflow
    list; the loop goes on with the next token, and [load] ends as it does
    without that leading token. *)
Theorem C10_lone_hyphen :
  isHelp "-" = false
  /\ (forall st, consumeToken "-" st = inr (tt, st))
  /\ (forall fuel st rest,
        consumeTokens (S fuel) (set_args ("-" :: rest) st)
        = consumeTokens fuel (set_args rest st))
  /\ (forall command commandSequence rest cwd,
        load command commandSequence ("-" :: rest) cwd
        = load command commandSequence rest cwd).
Proof.
  split; [reflexivity|]. split; [reflexivity|]. split.
  - intros fuel st rest. reflexivity.
  - intros command commandSequence rest cwd. reflexivity.
Qed.

(** With a help request in the queue the loop never reaches the
    dispatch. *)
Lemma consumeTokens_help fuel : forall st token,
  length (args st) <= fuel ->
  token ∈ args st -> isHelp token = true ->
  consumeTokens fuel st = Some HelpRequested
  \/ exists e, consumeTokens fuel st = Some (Thrown e).
Proof.
  induction fuel as [|fuel IH]; intros st token Hlen Hin Hhelp.
  - destruct (args st); [inversion Hin|cbn in Hlen; lia].
  - destruct (args st) as [|arg rest] eqn:Ha; [inversion Hin|].
    rewrite (consumeTokens_turn _ _ _ _ Ha).
    destruct (isHelp arg) eqn:Hh; [auto|].
    destruct (consumeToken arg (set_args rest st)) as [e|[u st1]] eqn:Hone; [eauto|].
    apply elem_of_cons in Hin as [->|Hin]; [congruence|].
    apply consumeToken_args in Hone. cbn [args set_args] in Hone.
    cbn [length] in Hlen.
    destruct Hone as [E|(v & E & Hv)].
    + apply (IH st1 token); [rewrite E; lia|rewrite E; exact Hin|exact Hhelp].
    + subst rest. cbn [length] in Hlen.
      apply elem_of_cons in Hin as [->|Hin].
      * apply isHelp_startsWithDash in Hhelp. congruence.
      * apply (IH st1 token); [lia|exact Hin|exact Hhelp].
Qed.

(** Positional tokens ahead of a help request are bound, then help is
    requested. *)
Lemma consumeTokens_positionals_help pre : forall fuel st token post,
  args st = pre ++ token :: post ->
  length pre < fuel ->
  Forall (λ a, startsWithDash a = false) pre ->
  isHelp token = true ->
  consumeTokens fuel st = Some HelpRequested.
Proof.
  induction pre as [|a pre IH]; intros fuel st token post Ha Hfuel Hpre Hhelp.
  - destruct fuel as [|fuel]; [lia|].
    rewrite (consumeTokens_turn _ _ _ _ Ha), Hhelp. reflexivity.
  - destruct fuel as [|fuel]; [lia|]. cbn [length] in Hfuel.
    rewrite <- app_comm_cons in Ha.
    rewrite (consumeTokens_turn _ _ _ _ Ha).
    apply Forall_cons in Hpre as [Hdash Hpre].
    destruct (isHelp a) eqn:Hh.
    { apply isHelp_startsWithDash in Hh. congruence. }
    rewrite consumeToken_positional by assumption.
    unfold consumeArgument. cbn [args set_args pendingParamDefinitions].
    destruct (pendingParamDefinitions st);
      (eapply IH; [reflexivity|lia|exact Hpre|exact Hhelp]).
Qed.

(** Tokens queued behind those a turn consumes do not change the turn. *)
Lemma consumeFlags_frame flags extra : forall st st' u,
  consumeFlags flags st = inr (u, st') ->
  consumeFlags flags (set_args (args st ++ extra) st)
  = inr (u, set_args (args st' ++ extra) st').
Proof.
  induction flags as [|c rest IH]; intros st st' u.
  - rewrite !consumeFlags_nil. intros [= <- <-]. reflexivity.
  - rewrite !consumeFlags_cons. cbn [tables set_args args].
    destruct (tables st) as [t|]; [|discriminate].
    destruct (JSObject.hasMethod (flagToNameMapping t)); [|discriminate].
    destruct (flagToNameMapping t !! String c EmptyString) as [name|]; [|discriminate].
    destruct (definitionOf t name) as [definition|]; [|discriminate].
    destruct (OptionDefinition.toggle definition).
    + intros Hrun. apply IH in Hrun. exact Hrun.
    + case_bool_decide; [|discriminate].
      destruct (args st) as [|arg queue]; [discriminate|].
      rewrite <- app_comm_cons.
      destruct (startsWithDash arg); [discriminate|].
      intros [= <- <-]. reflexivity.
Qed.

Lemma consumeToken_frame arg extra st st' u :
  consumeToken arg st = inr (u, st') ->
  consumeToken arg (set_args (args st ++ extra) st)
  = inr (u, set_args (args st' ++ extra) st').
Proof.
  destruct (startsWithDash arg) eqn:Hdash.
  - destruct (startsWithDash_cases arg Hdash) as [[name ->]|(flags & -> & Hflags)].
    + rewrite !consumeToken_long, !consumeToggleOrOption_eq.
      cbn [tables set_args args].
      destruct (tables st) as [t|]; [|discriminate].
      destruct (JSObject.hasMethod (optionDefinitionMap t)); [|discriminate].
      destruct (optionDefinitionMap t !! name) as [definition|]; [|discriminate].
      destruct (OptionDefinition.toggle definition).
      * intros [= <- <-]. reflexivity.
      * destruct (args st) as [|v queue]; [discriminate|].
        rewrite <- app_comm_cons.
        destruct (startsWithDash v); [discriminate|].
        intros [= <- <-]. reflexivity.
    + rewrite !consumeToken_cluster by assumption. apply consumeFlags_frame.
  - rewrite !consumeToken_positional by assumption. unfold consumeArgument.
    cbn [pendingParamDefinitions set_args args].
    destruct (pendingParamDefinitions st); intros [= <- <-]; reflexivity.
Qed.

(** Tokens that are consumed without a throw when they are the whole queue
    are consumed the same way ahead of a help request, which is then seen. *)
Lemma consumeTokens_then_help fuel : forall st st' token post,
  consumeTokens fuel st = Some (Exhausted st') ->
  isHelp token = true ->
  consumeTokens (S fuel) (set_args (args st ++ token :: post) st)
  = Some HelpRequested.
Proof.
  induction fuel as [|fuel IH]; intros st st' token post Hrun Hhelp.
  - cbn in Hrun. destruct (args st) eqn:Ha; [|discriminate].
    cbn. rewrite Hhelp. reflexivity.
  - destruct (args st) as [|arg rest] eqn:Ha.
    + cbn [app consumeTokens set_args args]. rewrite Hhelp. reflexivity.
    + rewrite (consumeTokens_turn _ _ _ _ Ha) in Hrun.
      rewrite (consumeTokens_turn _ _ arg (rest ++ token :: post)) by reflexivity.
      destruct (isHelp arg); [discriminate|].
      destruct (consumeToken arg (set_args rest st)) as [e|[u st1]] eqn:Hone;
        [discriminate|].
      apply (consumeToken_frame _ (token :: post)) in Hone.
      match goal with
      | |- context [consumeToken arg ?s] =>
          change s with (set_args (args (set_args rest st) ++ token :: post)
                           (set_args rest st))
      end.
      rewrite Hone. apply (IH st1 st'); assumption.
Qed.

(** C2, as the code has it. When the tail holds a help request, [execute]
    is never invoked: the invocation ends with the help operation, called
    with the command path, or with a throw raised on the way to the help
    request, the tokens being consumed from left to right.  When the tokens
    before a help request are consumed without a throw as a tail of their
    own, the invocation ends with the help operation; this is so when none
    of them starts with a hyphen. *)
Theorem C2_help_short_circuit (command : Command) (commandSequence : list string)
    (cwd : string) :
  (forall args token,
      token ∈ args -> isHelp token = true ->
      load command commandSequence args cwd = Some (Help commandSequence)
      \/ exists e, load command commandSequence args cwd = Some (Error e))
  /\ (forall pre token post st,
        isHelp token = true ->
        consumeTokens (length pre) (initial command pre) = Some (Exhausted st) ->
        load command commandSequence (pre ++ token :: post) cwd
        = Some (Help commandSequence))
  /\ (forall pre token post,
        isHelp token = true ->
        Forall (λ a, startsWithDash a = false) pre ->
        load command commandSequence (pre ++ token :: post) cwd
        = Some (Help commandSequence)).
Proof.
  split; [|split].
  - intros args token Hin Hhelp. unfold load.
    destruct (consumeTokens_help (length args) (initial command args) token)
      as [->|[e ->]]; eauto.
  - intros pre token post st Hhelp Hrun. unfold load.
    rewrite length_app. cbn [length]. rewrite Nat.add_succ_r.
    apply (consumeTokens_then_help _ _ _ token post) in Hrun; [|exact Hhelp].
    rewrite (consumeTokens_total_more _ _ _ _ Hrun); [reflexivity|lia].
  - intros pre token post Hhelp Hpre. unfold load.
    rewrite (consumeTokens_positionals_help pre _ _ token post); auto.
    simpl. rewrite length_app. cbn. lia.
Qed.

(** Help after a positional token, and after a toggle and a positional
    token. *)
Lemma C2_help_short_circuit_witness :
  "--help" ∈ ["widget"; "--help"; "-f"]
  /\ isHelp "--help" = true
  /\ Forall (λ a, startsWithDash a = false) ["widget"]
  /\ load create_command ["clime"; "create"] (["widget"] ++ "--help" :: ["-f"]) "/home"
     = Some (Help ["clime"; "create"])
  /\ load create_command ["clime"; "create"] (["-f"; "widget"] ++ "-h" :: []) "/home"
     = Some (Help ["clime"; "create"]).
Proof.
  split; [set_solver|]. split; [reflexivity|].
  split; [repeat constructor|]. split.
  - apply (proj2 (proj2 (C2_help_short_circuit create_command
                           ["clime"; "create"] "/home"))
             ["widget"] "--help" ["-f"]); [reflexivity|repeat constructor].
  - apply (proj1 (proj2 (C2_help_short_circuit create_command
                           ["clime"; "create"] "/home"))
             ["-f"; "widget"] "-h" []
             {| args := [];
                commandArgs := [VString "widget"];
                commandExtraArgs := [];
                tables :=
                  Some (assigned "force" force_option (VBoolean true)
                          (initialTables [force_option]));
                pendingParamDefinitions := [] |});
      reflexivity.
Defined.

(** C2 as stated fails: an unknown long option ahead of the help request
    throws before the help request is seen. *)
Lemma C2_counterexample :
  "--help" ∈ ["--bogus"; "--help"]
  /\ load create_command ["clime"; "create"] ["--bogus"; "--help"] "/home"
     = Some (Error (UnknownOptionName "bogus"))
  /\ ~ (forall command commandSequence args cwd token,
          token ∈ args -> isHelp token = true ->
          load command commandSequence args cwd = Some (Help commandSequence)).
Proof.
  split; [set_solver|]. split; [vm_compute; reflexivity|].
  intros H.
  specialize (H create_command ["clime"; "create"] ["--bogus"; "--help"] "/home"
                "--help").
  assert (Hin : "--help" ∈ ["--bogus"; "--help"]) by set_solver.
  specialize (H Hin eq_refl). vm_compute in H. discriminate H.
Qed.

(** ** The dispatcher *)

(** C7. Once the queue is exhausted, without help request or throw, fewer
    bound positional arguments than the required parameter count make
    [load] throw the count mismatch, with both numbers; [execute] is not
    invoked. *)
Theorem C7_insufficient_positionals (command : Command)
    (commandSequence : list string) (args : list string) (cwd : string)
    (st : Invocation) :
  consumeTokens (length args) (initial command args) = Some (Exhausted st) ->
  length (commandArgs st) < requiredParamsNumber command ->
  load command commandSequence args cwd
  = Some (Error (InsufficientPositionalArguments
                   (requiredParamsNumber command) (length (commandArgs st)))).
Proof.
  intros Hrun Hlt. unfold load, dispatch. rewrite Hrun.
  apply Nat.ltb_lt in Hlt. rewrite Hlt. reflexivity.
Qed.

(** The end-to-end example [create -f]. *)
Lemma C7_insufficient_positionals_witness :
  load create_command ["clime"; "create"] ["-f"] "/home"
  = Some (Error (InsufficientPositionalArguments 1 0)).
Proof.
  apply (C7_insufficient_positionals create_command ["clime"; "create"] ["-f"] "/home"
           {| args := [];
              commandArgs := [];
              commandExtraArgs := [];
              tables :=
                Some (assigned "force" force_option (VBoolean true)
                        (initialTables [force_option]));
              pendingParamDefinitions := [name_param] |}).
  - vm_compute. reflexivity.
  - cbn. lia.
Defined.

(** ** The tables built from the option definitions *)

Lemma initialTables_snoc definitions definition :
  initialTables (definitions ++ [definition])
  = register (initialTables definitions) definition.
Proof. unfold initialTables. rewrite fold_left_app. reflexivity. Qed.

Lemma filter_none {A : Type} (P : A -> Prop) `{forall x, Decision (P x)} (l : list A) :
  (forall x, x ∈ l -> ~ P x) -> filter P l = [].
Proof.
  induction l as [|x l IH]; intros Hl; [reflexivity|].
  rewrite filter_cons, decide_False by (apply Hl; set_solver).
  apply IH. intros y Hy. apply Hl. set_solver.
Qed.

Lemma declared_snoc definitions d name :
  declared (definitions ++ [d]) name
  = if bool_decide (OptionDefinition.name d = name) then Some d
    else declared definitions name.
Proof.
  unfold declared. rewrite filter_app, filter_cons, filter_nil.
  case_bool_decide.
  - rewrite decide_True by assumption. apply last_snoc.
  - rewrite decide_False by assumption. rewrite app_nil_r. reflexivity.
Qed.

Lemma flagged_snoc definitions d flag :
  flagged (definitions ++ [d]) flag
  = if bool_decide (truthy (OptionDefinition.flag d) = Some flag) then Some d
    else flagged definitions flag.
Proof.
  unfold flagged. rewrite filter_app, filter_cons, filter_nil.
  case_bool_decide.
  - rewrite decide_True by assumption. apply last_snoc.
  - rewrite decide_False by assumption. rewrite app_nil_r. reflexivity.
Qed.

Lemma declared_Some definitions name d :
  declared definitions name = Some d ->
  d ∈ definitions /\ OptionDefinition.name d = name.
Proof.
  unfold declared. intros H. apply last_Some_elem_of in H.
  apply list_elem_of_filter in H. tauto.
Qed.

Lemma declared_None definitions name :
  declared definitions name = None <->
  forall d, d ∈ definitions -> OptionDefinition.name d <> name.
Proof.
  unfold declared. rewrite last_None. split.
  - intros H d Hd E.
    assert (Hin : d ∈ filter (λ d, OptionDefinition.name d = name) definitions)
      by (apply list_elem_of_filter; auto).
    rewrite H in Hin. inversion Hin.
  - intros H. apply filter_none. exact H.
Qed.

Lemma declared_NoDup definitions d :
  NoDup (OptionDefinition.name <$> definitions) ->
  d ∈ definitions ->
  declared definitions (OptionDefinition.name d) = Some d.
Proof.
  induction definitions as [|d' definitions IH] using rev_ind; intros Hnd Hd.
  - inversion Hd.
  - rewrite declared_snoc.
    rewrite fmap_app in Hnd. apply NoDup_app in Hnd as (Hnd & Hdisj & _).
    apply elem_of_app in Hd as [Hd|Hd].
    + rewrite bool_decide_false; [apply IH; assumption|].
      intros E. apply (Hdisj (OptionDefinition.name d)).
      * apply list_elem_of_fmap. eauto.
      * rewrite <- E. cbn. set_solver.
    + apply list_elem_of_singleton in Hd. subst d'.
      rewrite bool_decide_true by reflexivity. reflexivity.
Qed.

Lemma flagged_Some definitions flag d :
  flagged definitions flag = Some d ->
  d ∈ definitions /\ truthy (OptionDefinition.flag d) = Some flag.
Proof.
  unfold flagged. intros H. apply last_Some_elem_of in H.
  apply list_elem_of_filter in H. tauto.
Qed.

Lemma flagged_NoDup definitions d flag :
  NoDup (omap (λ d, truthy (OptionDefinition.flag d)) definitions) ->
  d ∈ definitions ->
  truthy (OptionDefinition.flag d) = Some flag ->
  flagged definitions flag = Some d.
Proof.
  induction definitions as [|d' definitions IH] using rev_ind; intros Hnd Hd Hflag.
  - inversion Hd.
  - rewrite flagged_snoc.
    rewrite omap_app in Hnd. apply NoDup_app in Hnd as (Hnd & Hdisj & _).
    apply elem_of_app in Hd as [Hd|Hd].
    + rewrite bool_decide_false; [apply IH; assumption|].
      intros E. apply (Hdisj flag).
      * apply list_elem_of_omap. eauto.
      * cbn. rewrite E. set_solver.
    + apply list_elem_of_singleton in Hd. subst d'.
      rewrite bool_decide_true by assumption. reflexivity.
Qed.

(** The definition table holds, under every name but [__proto__], the
    definition declared last under it. *)
Lemma optionDefinitionMap_initial definitions name :
  optionDefinitionMap (initialTables definitions) !! name
  = if bool_decide (name = "__proto__") then None else declared definitions name.
Proof.
  induction definitions as [|d definitions IH] using rev_ind.
  - cbn. rewrite lookup_empty. case_bool_decide; reflexivity.
  - rewrite initialTables_snoc, declared_snoc. cbn [register optionDefinitionMap].
    case_bool_decide as Hp.
    + subst name. rewrite lookup_assign_proto. exact IH.
    + case_bool_decide as Hd.
      * subst name. apply lookup_assign_eq, Hp.
      * rewrite lookup_assign_ne by exact Hd. exact IH.
Qed.

(** Its prototype is the definition declared last under [__proto__]. *)
Lemma definitionPrototype_initial definitions :
  definitionPrototype (initialTables definitions) = declared definitions "__proto__".
Proof.
  induction definitions as [|d definitions IH] using rev_ind; [reflexivity|].
  rewrite initialTables_snoc, declared_snoc. cbn [register definitionPrototype].
  case_bool_decide; [reflexivity|exact IH].
Qed.

(** So a read of the definition table gives, under every name, the
    definition declared last under it. *)
Lemma definitionOf_initial definitions name :
  definitionOf (initialTables definitions) name = declared definitions name.
Proof.
  unfold definitionOf.
  rewrite optionDefinitionMap_initial, definitionPrototype_initial.
  case_bool_decide as Hp; [subst name; reflexivity|].
  destruct (declared definitions name); reflexivity.
Qed.

(** The flag table holds, under every flag but [__proto__], the name of
    the definition declared last with it. *)
Lemma flagToNameMapping_initial definitions flag :
  flagToNameMapping (initialTables definitions) !! flag
  = if bool_decide (flag = "__proto__") then None
    else OptionDefinition.name <$> flagged definitions flag.
Proof.
  induction definitions as [|d definitions IH] using rev_ind.
  - cbn. rewrite lookup_empty. case_bool_decide; reflexivity.
  - rewrite initialTables_snoc, flagged_snoc. cbn [register flagToNameMapping].
    destruct (truthy (OptionDefinition.flag d)) as [f|] eqn:Hf.
    + case_bool_decide as Hp.
      * subst flag. rewrite lookup_assign_proto. exact IH.
      * case_bool_decide as Hd.
        -- injection Hd as ->. apply lookup_assign_eq, Hp.
        -- rewrite lookup_assign_ne by congruence. exact IH.
    + rewrite (bool_decide_false (None = Some flag)) by discriminate. exact IH.
Qed.

(** The options record holds, under every name but [__proto__], the seed of
    the definition declared last under it. *)
Lemma commandOptions_initial definitions name :
  commandOptions (initialTables definitions) !! name
  = if bool_decide (name = "__proto__") then None
    else seed <$> declared definitions name.
Proof.
  induction definitions as [|d definitions IH] using rev_ind.
  - cbn. rewrite lookup_empty. case_bool_decide; reflexivity.
  - rewrite initialTables_snoc, declared_snoc. cbn [register commandOptions].
    replace (if OptionDefinition.toggle d
             then JSObject.assign (OptionDefinition.name d) (VBoolean false)
                    (commandOptions (initialTables definitions))
             else JSObject.assign (OptionDefinition.name d) (OptionDefinition.default d)
                    (commandOptions (initialTables definitions)))
      with (JSObject.assign (OptionDefinition.name d) (seed d)
              (commandOptions (initialTables definitions)))
      by (unfold seed; destruct (OptionDefinition.toggle d); reflexivity).
    case_bool_decide as Hp.
    + subst name. rewrite lookup_assign_proto. exact IH.
    + case_bool_decide as Hd.
      * subst name. rewrite lookup_assign_eq by exact Hp. reflexivity.
      * rewrite lookup_assign_ne by exact Hd. exact IH.
Qed.

(** Every name the flag table gives has a definition. *)
Lemma flagDefinition_initial definitions flag name :
  flagToNameMapping (initialTables definitions) !! flag = Some name ->
  is_Some (definitionOf (initialTables definitions) name).
Proof.
  rewrite flagToNameMapping_initial, definitionOf_initial.
  case_bool_decide; [discriminate|].
  destruct (flagged definitions flag) as [d|] eqn:Hd; [|discriminate].
  intros [= <-]. apply flagged_Some in Hd as [Hd _].
  destruct (declared definitions (OptionDefinition.name d)) eqn:E; [eauto|].
  exfalso. exact (proj1 (declared_None _ _) E d Hd eq_refl).
Qed.

(** The pending required options start as the names marked required,
    [__proto__] apart. *)
Lemma requiredOptionMap_initial definitions name :
  name ∈ JSObject.dom (requiredOptionMap (initialTables definitions))
  <-> name <> "__proto__"
      /\ exists d, d ∈ definitions /\ OptionDefinition.name d = name
                   /\ OptionDefinition.required d = true.
Proof.
  induction definitions as [|d definitions IH] using rev_ind.
  - cbn. split; [set_solver|]. intros (_ & d & Hd & _). inversion Hd.
  - rewrite initialTables_snoc. cbn [register requiredOptionMap].
    destruct (OptionDefinition.required d) eqn:Hreq.
    + rewrite dom_assignOrdered. case_bool_decide as Hp.
      * rewrite IH. split.
        -- intros (Hn & d' & Hd' & E & R). split; [exact Hn|]. exists d'. set_solver.
        -- intros (Hn & d' & [Hd'|Hd']%elem_of_app & E & R); [eauto|].
           apply list_elem_of_singleton in Hd'. subst d'. congruence.
      * rewrite elem_of_union, elem_of_singleton, IH. split.
        -- intros [->|(Hn & d' & Hd' & E & R)];
             (split; [assumption|]); [exists d|exists d']; set_solver.
        -- intros (Hn & d' & [Hd'|Hd']%elem_of_app & E & R); [right; eauto|].
           apply list_elem_of_singleton in Hd'. subst d'. left. auto.
    + rewrite IH. split.
      * intros (Hn & d' & Hd' & E & R). split; [exact Hn|]. exists d'. set_solver.
      * intros (Hn & d' & [Hd'|Hd']%elem_of_app & E & R); [eauto|].
        apply list_elem_of_singleton in Hd'. subst d'. congruence.
Qed.

(** [hasOwnProperty] is shadowed in the definition table exactly when a
    definition has that name, and in the flag table exactly when a
    definition has that flag. *)
Lemma hasMethod_optionDefinitionMap definitions :
  JSObject.hasMethod (optionDefinitionMap (initialTables definitions))
  = negb (bool_decide ("hasOwnProperty" ∈ OptionDefinition.name <$> definitions)).
Proof.
  unfold JSObject.hasMethod. rewrite optionDefinitionMap_initial.
  rewrite (bool_decide_false ("hasOwnProperty" = "__proto__")) by discriminate.
  destruct (declared definitions "hasOwnProperty") as [d|] eqn:E.
  - apply declared_Some in E as [Hd E].
    rewrite bool_decide_false by discriminate.
    rewrite bool_decide_true; [reflexivity|]. apply list_elem_of_fmap. eauto.
  - rewrite bool_decide_true by reflexivity.
    rewrite bool_decide_false; [reflexivity|].
    intros (d & E' & Hd)%list_elem_of_fmap.
    exact (proj1 (declared_None _ _) E d Hd (eq_sym E')).
Qed.

Lemma hasMethod_flagToNameMapping definitions :
  JSObject.hasMethod (flagToNameMapping (initialTables definitions))
  = negb (bool_decide
            ("hasOwnProperty" ∈ omap (λ d, truthy (OptionDefinition.flag d)) definitions)).
Proof.
  unfold JSObject.hasMethod. rewrite flagToNameMapping_initial.
  rewrite (bool_decide_false ("hasOwnProperty" = "__proto__")) by discriminate.
  destruct (flagged definitions "hasOwnProperty") as [d|] eqn:E.
  - apply flagged_Some in E as [Hd E]. cbn [fmap option_fmap option_map].
    rewrite bool_decide_false by discriminate.
    rewrite bool_decide_true; [reflexivity|]. apply list_elem_of_omap. eauto.
  - cbn [fmap option_fmap option_map]. rewrite bool_decide_true by reflexivity.
    rewrite bool_decide_false; [reflexivity|].
    intros (d & Hd & E')%list_elem_of_omap.
    unfold flagged in E. apply last_None in E.
    assert (Hd' : d ∈ filter (λ d, truthy (OptionDefinition.flag d)
                                   = Some "hasOwnProperty") definitions)
      by (apply list_elem_of_filter; auto).
    rewrite E in Hd'. inversion Hd'.
Qed.

(** ** Flag clusters *)

Lemma append_EmptyString (s : string) : s +:+ EmptyString = s.
Proof.
  induction s as [|c s IH]; [reflexivity|].
  change (String c s +:+ EmptyString) with (String c (s +:+ EmptyString)).
  rewrite IH. reflexivity.
Qed.

Lemma flagDefinition_Some t c name definition :
  flagDefinition t c = Some (name, definition)
  <-> flagToNameMapping t !! String c EmptyString = Some name
      /\ definitionOf t name = Some definition.
Proof.
  unfold flagDefinition.
  destruct (flagToNameMapping t !! String c EmptyString) as [n|]; cbn.
  - destruct (definitionOf t n) as [d|] eqn:Hd; cbn.
    + split; [intros [= -> ->]; auto|intros [[= ->] H]; congruence].
    + split; [discriminate|intros [[= ->] H]; congruence].
  - split; [discriminate|intros [H _]; discriminate].
Qed.

Lemma elem_of_flagNames t flags name :
  name ∈ flagNames t flags
  <-> exists c, c ∈ list_ascii_of_string flags
                /\ flagToNameMapping t !! String c EmptyString = Some name.
Proof. unfold flagNames. apply list_elem_of_omap. Qed.

Lemma allToggles_cons t c rest :
  allToggles t (String c rest) ->
  (exists name definition,
      flagDefinition t c = Some (name, definition)
      /\ OptionDefinition.toggle definition = true)
  /\ allToggles t rest.
Proof.
  intros H. split.
  - apply H. cbn. set_solver.
  - intros c' Hc'. apply H. cbn. set_solver.
Qed.

Lemma allToggles_assigned name definition v t flags :
  allToggles (assigned name definition v t) flags <-> allToggles t flags.
Proof.
  unfold allToggles. setoid_rewrite assigned_flagDefinition. reflexivity.
Qed.

(** A run of toggles at the head of a cluster. *)
Lemma consumeFlags_toggles pre : forall rest st t,
  tables st = Some t ->
  JSObject.hasMethod (flagToNameMapping t) = true ->
  allToggles t pre ->
  consumeFlags (pre +:+ rest) st = consumeFlags rest (set_tables (toggled pre t) st).
Proof.
  induction pre as [|c pre IH]; intros rest st t Ht Hm Hall.
  - cbn. rewrite set_tables_id by assumption. reflexivity.
  - apply allToggles_cons in Hall as [(name & definition & Hc & Htoggle) Hall].
    change (String c pre +:+ rest) with (String c (pre +:+ rest)).
    cbn [toggled]. rewrite consumeFlags_cons, Ht, Hm, Hc.
    apply flagDefinition_Some in Hc as [-> ->]. rewrite Htoggle.
    rewrite (IH rest _ (assigned name definition (VBoolean true) t));
      [reflexivity|reflexivity|rewrite assigned_flagToNameMapping; exact Hm|].
    apply allToggles_assigned, Hall.
Qed.

(** A cluster in a state whose flag table shadows [hasOwnProperty]. *)
Lemma consumeFlags_shadowed c rest st t :
  tables st = Some t ->
  JSObject.hasMethod (flagToNameMapping t) = false ->
  consumeFlags (String c rest) st = inl TypeError.
Proof. intros Ht Hm. rewrite consumeFlags_cons, Ht, Hm. reflexivity. Qed.

Lemma toggled_optionDefinitionMap flags : forall t,
  optionDefinitionMap (toggled flags t) = optionDefinitionMap t.
Proof.
  induction flags as [|c flags IH]; intros t; [reflexivity|]. cbn.
  destruct (flagDefinition t c) as [[name definition]|]; [|reflexivity].
  rewrite IH. apply assigned_optionDefinitionMap.
Qed.

Lemma toggled_definitionPrototype flags : forall t,
  definitionPrototype (toggled flags t) = definitionPrototype t.
Proof.
  induction flags as [|c flags IH]; intros t; [reflexivity|]. cbn.
  destruct (flagDefinition t c) as [[name definition]|]; [|reflexivity].
  rewrite IH. apply assigned_definitionPrototype.
Qed.

Lemma toggled_flagToNameMapping flags : forall t,
  flagToNameMapping (toggled flags t) = flagToNameMapping t.
Proof.
  induction flags as [|c flags IH]; intros t; [reflexivity|]. cbn.
  destruct (flagDefinition t c) as [[name definition]|]; [|reflexivity].
  rewrite IH. apply assigned_flagToNameMapping.
Qed.

Lemma toggled_flagDefinition flags t c :
  flagDefinition (toggled flags t) c = flagDefinition t c.
Proof.
  unfold flagDefinition, definitionOf.
  rewrite toggled_flagToNameMapping, toggled_optionDefinitionMap,
    toggled_definitionPrototype. reflexivity.
Qed.

(** After a cluster of toggles the options it refers to are [true],
    [__proto__] apart, and the others are as before. *)
Lemma toggled_commandOptions flags : forall t name,
  allToggles t flags ->
  commandOptions (toggled flags t) !! name
  = if decide (name ∈ flagNames t flags /\ name <> "__proto__")
    then Some (VBoolean true)
    else commandOptions t !! name.
Proof.
  induction flags as [|c flags IH]; intros t name Hall.
  - cbn. rewrite decide_False by (unfold flagNames; cbn; set_solver). reflexivity.
  - apply allToggles_cons in Hall as [(n & d & Hc & Htoggle) Hall].
    cbn [toggled]. rewrite Hc.
    rewrite IH by (apply allToggles_assigned, Hall).
    rewrite assigned_flagNames, assigned_commandOptions.
    apply flagDefinition_Some in Hc as [Hn Hd].
    assert (Hnames : flagNames t (String c flags) = n :: flagNames t flags).
    { unfold flagNames. cbn. rewrite Hn. reflexivity. }
    rewrite Hnames.
    destruct (decide (name ∈ flagNames t flags /\ name <> "__proto__")) as [Hin|Hin].
    + rewrite decide_True by set_solver. reflexivity.
    + destruct (decide (n = name)) as [->|Hne].
      * destruct (decide (name = "__proto__")) as [->|Hp].
        -- rewrite decide_False by tauto. rewrite assign_proto. reflexivity.
        -- rewrite decide_True by set_solver. apply lookup_assign_eq, Hp.
      * rewrite decide_False by set_solver. apply lookup_assign_ne, Hne.
Qed.

(** In a cluster consumed without a throw every flag is known and every
    flag but the last refers to a toggle. *)
Lemma consumeFlags_shape flags : forall st t u st',
  tables st = Some t ->
  consumeFlags flags st = inr (u, st') ->
  forall pre c post,
    flags = pre +:+ String c post ->
    exists name definition,
      flagDefinition t c = Some (name, definition)
      /\ (OptionDefinition.toggle definition = true \/ post = EmptyString).
Proof.
  induction flags as [|c0 flags IH]; intros st t u st' Ht Hrun pre c post Hsplit.
  - destruct pre; discriminate.
  - rewrite consumeFlags_cons, Ht in Hrun.
    destruct (JSObject.hasMethod (flagToNameMapping t)); [|discriminate].
    destruct (flagToNameMapping t !! String c0 EmptyString) as [name|] eqn:Hn;
      [|discriminate].
    destruct (definitionOf t name) as [definition|] eqn:Hd; [|discriminate].
    destruct pre as [|a pre]; cbn in Hsplit; injection Hsplit as <- ->.
    + exists name, definition. split; [apply flagDefinition_Some; auto|].
      destruct (OptionDefinition.toggle definition); [auto|].
      case_bool_decide; [auto|discriminate].
    + destruct (OptionDefinition.toggle definition).
      * destruct (IH (set_tables (assigned name definition (VBoolean true) t) st)
                    (assigned name definition (VBoolean true) t) _ _ eq_refl Hrun
                    pre c post eq_refl) as (n & d & Hc & Hlast).
        rewrite assigned_flagDefinition in Hc. eauto.
      * case_bool_decide as E; [|discriminate]. destruct pre; discriminate.
Qed.

(** C3, as the code has it. A long-option token [--name], consumed in a
    state whose definition table is the one built from the option
    definitions.  Without option definitions it throws, and so it does when
    some definition is named [hasOwnProperty]: the definition then stands
    where the table's method of that name is looked up, and every long
    option throws.  Else, when no definition has that name, or when the
    name is [__proto__], under which the table holds no definition, it
    throws for the unknown option.  When the name refers to a toggle, the
    option becomes [true] and the queue is left alone.  Otherwise the next
    token is its value: without a next token it throws for the missing
    value, with a next token that starts with a hyphen it throws as well,
    and else exactly that token leaves the queue and the option holds it,
    coerced to the declared type. *)
Theorem C3_long_option (definitions : list OptionDefinition.t)
    (st : Invocation) (name : string) :
  let token := "--" +:+ name in
  match tables st with
  | None => consumeToken token st = inl TypeError
  | Some t =>
      optionDefinitionMap t = optionDefinitionMap (initialTables definitions) ->
      if bool_decide ("hasOwnProperty" ∈ OptionDefinition.name <$> definitions)
      then consumeToken token st = inl TypeError
      else
        match optionDefinitionMap t !! name with
        | None =>
            (name = "__proto__"
             \/ forall d, d ∈ definitions -> OptionDefinition.name d <> name)
            /\ consumeToken token st = inl (UnknownOptionName name)
        | Some definition =>
            definition ∈ definitions
            /\ OptionDefinition.name definition = name
            /\ name <> "__proto__"
            /\ if OptionDefinition.toggle definition then
                 exists st' t',
                   consumeToken token st = inr (tt, st')
                   /\ tables st' = Some t'
                   /\ commandOptions t' !! name = Some (VBoolean true)
                   /\ args st' = args st
                   /\ optionStep [name] st st'
               else
                 match args st with
                 | [] => consumeToken token st = inl (MissingOptionValue name)
                 | arg :: rest =>
                     if startsWithDash arg
                     then consumeToken token st
                          = inl (OptionValueLooksLikeOption arg name)
                     else
                       exists st' t',
                         consumeToken token st = inr (tt, st')
                         /\ tables st' = Some t'
                         /\ commandOptions t' !! name
                            = Some (castArgument arg (OptionDefinition.type definition))
                         /\ args st' = rest
                         /\ optionStep [name] st st'
                 end
        end
  end.
Proof.
  intros token. unfold token. rewrite consumeToken_long, consumeToggleOrOption_eq.
  destruct (tables st) as [t|] eqn:Ht; [|reflexivity].
  intros Hodm. pose proof (hasMethod_optionDefinitionMap definitions) as Hm.
  rewrite <- Hodm in Hm. rewrite Hm.
  case_bool_decide as Hshadow; [reflexivity|]. cbn [negb].
  pose proof (optionDefinitionMap_initial definitions name) as Hinit.
  rewrite <- Hodm in Hinit.
  destruct (optionDefinitionMap t !! name) as [definition|] eqn:Hd.
  2:{ split; [|reflexivity].
      case_bool_decide as Hp; [left; exact Hp|right].
      apply declared_None. congruence. }
  case_bool_decide as Hp; [discriminate|]. symmetry in Hinit.
  apply declared_Some in Hinit as [Hin Hname].
  split; [exact Hin|]. split; [exact Hname|]. split; [exact Hp|].
  pose proof (definitionOf_own _ _ _ Hd) as Hof.
  destruct (OptionDefinition.toggle definition).
  - eexists _, _. split; [reflexivity|]. split; [reflexivity|].
    rewrite assigned_commandOptions, lookup_assign_eq by exact Hp.
    split; [reflexivity|]. split; [reflexivity|].
    rewrite <- (set_args_id st) at 2. apply optionStep_assigned; auto.
  - destruct (args st) as [|arg rest] eqn:Ha; [reflexivity|].
    destruct (startsWithDash arg) eqn:Hdash; [reflexivity|].
    eexists _, _. split; [reflexivity|]. split; [reflexivity|].
    rewrite assigned_commandOptions, lookup_assign_eq by exact Hp.
    split; [reflexivity|]. split; [reflexivity|].
    apply optionStep_assigned; eauto.
Qed.

(** [--token abc] stores the string and leaves the rest of the queue. *)
Lemma C3_long_option_witness :
  exists st' t',
    consumeToken "--token" (initial deploy_command ["abc"; "x"]) = inr (tt, st')
    /\ tables st' = Some t'
    /\ commandOptions t' !! "token" = Some (VString "abc")
    /\ args st' = ["x"].
Proof.
  destruct (C3_long_option [token_option; force_option]
              (initial deploy_command ["abc"; "x"]) "token" eq_refl)
    as (_ & _ & _ & st' & t' & H1 & H2 & H3 & H4 & _).
  exists st', t'. auto.
Defined.

(** C3 as stated fails: a toggle is declared under the name [__proto__],
    and the token [--__proto__] throws for an unknown option; and next to
    a definition named [hasOwnProperty], the token [--force] of the
    declared toggle [force] throws a type error. *)
Lemma C3_counterexample :
  proto_option ∈ [proto_option]
  /\ OptionDefinition.toggle proto_option = true
  /\ consumeToken "--__proto__" (initial proto_command [])
     = inl (UnknownOptionName "__proto__")
  /\ consumeToken "--force" (initial shadow_command []) = inl TypeError
  /\ ~ (forall definitions d st,
          tables st = Some (initialTables definitions) ->
          d ∈ definitions ->
          OptionDefinition.toggle d = true ->
          exists st' t',
            consumeToken ("--" +:+ OptionDefinition.name d) st = inr (tt, st')
            /\ tables st' = Some t'
            /\ commandOptions t' !! OptionDefinition.name d = Some (VBoolean true)).
Proof.
  split; [set_solver|]. split; [reflexivity|].
  split; [vm_compute; reflexivity|]. split; [vm_compute; reflexivity|].
  intros H.
  destruct (H [proto_option] proto_option (initial proto_command []) eq_refl)
    as (st' & t' & Hrun & _); [set_solver|reflexivity|].
  vm_compute in Hrun. discriminate Hrun.
Qed.

(** C4, as the code has it. A flag-cluster token [-flags], consumed in a
    state with tables [t].  Without tables every flag is unknown.  When a
    definition has the flag [hasOwnProperty], the name stands where the
    flag table's method of that name is looked up, and every cluster with
    a flag throws.  Else: when every flag refers to a toggle, each option
    referred to becomes [true], but for an option named [__proto__], under
    which the options record takes no value; the other options and the
    queue are left alone.  When the last flag refers to a value option and
    the flags before it to toggles, exactly the next token leaves the queue
    and becomes the value of that option, the toggles being [true]; a
    missing next token, or one that starts with a hyphen, throws.  A flag
    that is not the last and refers to a value option makes the token
    throw, and so does a flag that is not in the flag table; the throw
    names that flag's fault when the flags before it refer to toggles. *)
Theorem C4_flag_cluster (st : Invocation) (flags : string) :
  charAt 0 flags <> Some "-"%char ->
  let token := "-" +:+ flags in
  (tables st = None ->
   forall c rest, flags = String c rest ->
     consumeToken token st = inl (UnknownOptionFlag (String c EmptyString)))
  /\ forall t, tables st = Some t ->
     (JSObject.hasMethod (flagToNameMapping t) = false ->
      flags <> EmptyString ->
      consumeToken token st = inl TypeError)
     /\ (JSObject.hasMethod (flagToNameMapping t) = true ->
         (allToggles t flags ->
          exists st' t',
            consumeToken token st = inr (tt, st')
            /\ tables st' = Some t'
            /\ args st' = args st
            /\ (forall name, name ∈ flagNames t flags -> name <> "__proto__" ->
                  commandOptions t' !! name = Some (VBoolean true))
            /\ (forall name, name ∉ flagNames t flags \/ name = "__proto__" ->
                  commandOptions t' !! name = commandOptions t !! name))
         /\ (forall pre c name definition,
               flags = pre +:+ String c EmptyString ->
               allToggles t pre ->
               flagDefinition t c = Some (name, definition) ->
               OptionDefinition.toggle definition = false ->
               match args st with
               | [] => consumeToken token st = inl (MissingOptionValue name)
               | arg :: rest =>
                   if startsWithDash arg
                   then consumeToken token st
                        = inl (OptionValueLooksLikeOption arg name)
                   else
                     exists st' t',
                       consumeToken token st = inr (tt, st')
                       /\ tables st' = Some t'
                       /\ args st' = rest
                       /\ (name <> "__proto__" ->
                           commandOptions t' !! name
                           = Some (castArgument arg
                                     (OptionDefinition.type definition)))
                       /\ (forall toggle, toggle ∈ flagNames t pre ->
                             toggle <> "__proto__" ->
                             commandOptions t' !! toggle = Some (VBoolean true))
               end)
         /\ (forall pre c post name definition,
               flags = pre +:+ String c post ->
               post <> EmptyString ->
               flagDefinition t c = Some (name, definition) ->
               OptionDefinition.toggle definition = false ->
               exists e,
                 consumeToken token st = inl e
                 /\ (allToggles t pre -> e = NonTerminalFlagTakesValue))
         /\ (forall pre c post,
               flags = pre +:+ String c post ->
               flagToNameMapping t !! String c EmptyString = None ->
               exists e,
                 consumeToken token st = inl e
                 /\ (allToggles t pre ->
                     e = UnknownOptionFlag (String c EmptyString)))).
Proof.
  intros Hflags token. unfold token. rewrite consumeToken_cluster by assumption.
  split.
  { intros Hnone c rest ->. rewrite consumeFlags_cons, Hnone. reflexivity. }
  intros t Ht. split.
  { intros Hm Hne. destruct flags as [|c rest]; [contradiction|].
    apply (consumeFlags_shadowed _ _ _ t); assumption. }
  intros Hm. repeat split.
  - intros Hall. exists (set_tables (toggled flags t) st), (toggled flags t).
    split; [|split; [reflexivity|split; [reflexivity|split]]].
    + rewrite <- (append_EmptyString flags) at 1.
      rewrite (consumeFlags_toggles flags EmptyString st t) by assumption.
      reflexivity.
    + intros name Hin Hp. rewrite toggled_commandOptions by assumption.
      rewrite decide_True by auto. reflexivity.
    + intros name Hin. rewrite toggled_commandOptions by assumption.
      rewrite decide_False by tauto. reflexivity.
  - intros pre c name definition -> Hall Hc Htoggle.
    rewrite (consumeFlags_toggles pre _ st t) by assumption.
    rewrite consumeFlags_cons. cbn [tables set_tables args].
    rewrite toggled_flagToNameMapping, Hm.
    rewrite <- (toggled_flagDefinition pre) in Hc.
    pose proof Hc as Hc'. apply flagDefinition_Some in Hc' as [Hn Hd].
    rewrite toggled_flagToNameMapping in Hn. rewrite Hn, Hd.
    rewrite Htoggle, bool_decide_true by reflexivity.
    destruct (args st) as [|arg rest]; [reflexivity|].
    destruct (startsWithDash arg); [reflexivity|].
    eexists _, _. split; [reflexivity|]. split; [reflexivity|].
    split; [reflexivity|].
    rewrite assigned_commandOptions. split; [intros Hp; apply lookup_assign_eq, Hp|].
    intros toggle Hin Hp.
    rewrite lookup_assign_ne.
    + rewrite toggled_commandOptions by assumption.
      rewrite decide_True by auto. reflexivity.
    + intros <-. apply elem_of_flagNames in Hin as (c' & Hc' & Hn1).
      destruct (Hall c' Hc') as (n & d & Hcd & Hd1).
      rewrite toggled_flagDefinition in Hc.
      apply flagDefinition_Some in Hcd as [Hn' Hd'], Hc as [_ Hd''].
      congruence.
  - intros pre c post name definition -> Hpost Hc Htoggle.
    destruct (consumeFlags (pre +:+ String c post) st) as [e|[u st']] eqn:Hrun.
    + exists e. split; [reflexivity|]. intros Hall.
      rewrite (consumeFlags_toggles pre _ st t) in Hrun by assumption.
      rewrite consumeFlags_cons in Hrun. cbn [tables set_tables] in Hrun.
      rewrite toggled_flagToNameMapping, Hm in Hrun.
      rewrite <- (toggled_flagDefinition pre) in Hc.
      apply flagDefinition_Some in Hc as [Hn Hd].
      rewrite toggled_flagToNameMapping in Hn. rewrite Hn, Hd, Htoggle in Hrun.
      rewrite bool_decide_false in Hrun by assumption. congruence.
    + destruct (consumeFlags_shape _ _ _ _ _ Ht Hrun pre c post eq_refl)
        as (n & d & Hc' & [Hd|Hd]); [|contradiction].
      congruence.
  - intros pre c post -> Hc.
    destruct (consumeFlags (pre +:+ String c post) st) as [e|[u st']] eqn:Hrun.
    + exists e. split; [reflexivity|]. intros Hall.
      rewrite (consumeFlags_toggles pre _ st t) in Hrun by assumption.
      rewrite consumeFlags_cons in Hrun. cbn [tables set_tables] in Hrun.
      rewrite toggled_flagToNameMapping, Hm, Hc in Hrun. congruence.
    + destruct (consumeFlags_shape _ _ _ _ _ Ht Hrun pre c post eq_refl)
        as (n & d & Hc' & _).
      apply flagDefinition_Some in Hc' as [Hc' _]. congruence.
Qed.

(** [-ft abc]: the toggle is set and the value option takes the next
    token. *)
Lemma C4_flag_cluster_witness :
  exists st' t',
    consumeToken "-ft" (initial deploy_command ["abc"; "x"]) = inr (tt, st')
    /\ tables st' = Some t'
    /\ args st' = ["x"]
    /\ commandOptions t' !! "token" = Some (VString "abc")
    /\ commandOptions t' !! "force" = Some (VBoolean true).
Proof.
  assert (Hdash : charAt 0 "ft" <> Some "-"%char) by discriminate.
  assert (Hall : allToggles (initialTables [token_option; force_option]) "f").
  { intros c Hc. apply list_elem_of_singleton in Hc. subst c.
    exists "force", force_option. split; reflexivity. }
  destruct (proj2 (proj2 (C4_flag_cluster (initial deploy_command ["abc"; "x"]) "ft"
                            Hdash)
                     (initialTables [token_option; force_option]) eq_refl) eq_refl)
    as (_ & Hlast & _).
  destruct (Hlast "f" "t"%char "token" token_option eq_refl Hall eq_refl eq_refl)
    as (st' & t' & H1 & H2 & H3 & H4 & H5).
  exists st', t'. repeat split; try assumption.
  - apply H4. discriminate.
  - apply H5; [|discriminate].
    apply elem_of_flagNames. exists "f"%char. split; [cbn; set_solver|reflexivity].
Defined.

(** C4 as stated fails: the flag [p] refers to the toggle declared under
    the name [__proto__], the token [-p] is consumed, and the options
    record holds nothing under that name; and with the flag
    [hasOwnProperty] declared, the flag [f] of the toggle [force]
    throws. *)
Lemma C4_counterexample :
  allToggles (initialTables [proto_option]) "p"
  /\ "__proto__" ∈ flagNames (initialTables [proto_option]) "p"
  /\ (exists st' t',
        consumeToken "-p" (initial proto_command []) = inr (tt, st')
        /\ tables st' = Some t'
        /\ commandOptions t' !! "__proto__" = None)
  /\ ~ (forall st t flags,
          tables st = Some t ->
          charAt 0 flags <> Some "-"%char ->
          allToggles t flags ->
          exists st' t',
            consumeToken ("-" +:+ flags) st = inr (tt, st')
            /\ tables st' = Some t'
            /\ forall name, name ∈ flagNames t flags ->
                 commandOptions t' !! name = Some (VBoolean true)).
Proof.
  assert (Hall : allToggles (initialTables [proto_option]) "p").
  { intros c Hc. apply list_elem_of_singleton in Hc. subst c.
    exists "__proto__", proto_option. split; reflexivity. }
  assert (Hin : "__proto__" ∈ flagNames (initialTables [proto_option]) "p")
    by (vm_compute; repeat constructor).
  split; [exact Hall|]. split; [exact Hin|]. split.
  - eexists _, _. split; [vm_compute; reflexivity|]. split; reflexivity.
  - intros H.
    destruct (H (initial proto_command []) (initialTables [proto_option]) "p"
                eq_refl ltac:(discriminate) Hall) as (st' & t' & Hrun & Ht' & Hset).
    vm_compute in Hrun. injection Hrun as <-. injection Ht' as <-.
    specialize (Hset "__proto__" Hin). vm_compute in Hset. discriminate Hset.
Qed.

(** ** Required options *)

Lemma satisfiedBy_cons t arg rest :
  satisfiedBy t (arg :: rest)
  = list_to_set (filter (λ n, isRequired t n = true) (referredNames t arg))
    ∪ satisfiedBy t rest.
Proof.
  unfold satisfiedBy. cbn [mbind list_bind].
  rewrite filter_app, list_to_set_app_L. reflexivity.
Qed.

Lemma referredNames_positional t arg :
  startsWithDash arg = false -> referredNames t arg = [].
Proof. unfold referredNames. intros ->. reflexivity. Qed.

Lemma referredNames_tables t t0 arg :
  flagToNameMapping t = flagToNameMapping t0 ->
  referredNames t arg = referredNames t0 arg.
Proof. unfold referredNames, flagNames. intros ->. reflexivity. Qed.

Lemma isRequired_tables t t0 n :
  optionDefinitionMap t = optionDefinitionMap t0 ->
  definitionPrototype t = definitionPrototype t0 ->
  isRequired t n = isRequired t0 n.
Proof. unfold isRequired, definitionOf. intros -> ->. reflexivity. Qed.

Lemma elem_of_satisfiedBy t args name :
  name ∈ satisfiedBy t args <-> isRequired t name = true /\ supplied t args name.
Proof.
  unfold satisfiedBy, supplied.
  rewrite elem_of_list_to_set, list_elem_of_filter, list_elem_of_bind.
  split; intros (H & arg & H1 & H2); eauto.
Qed.

(** The pending required options through one turn of the loop. *)
Lemma pendingInvariant_turn t0 args0 st arg rest st' u :
  args st = arg :: rest ->
  consumeToken arg (set_args rest st) = inr (u, st') ->
  pendingInvariant t0 args0 st -> pendingInvariant t0 args0 st'.
Proof.
  intros Ha Hrun (t & Ht & Hodm & Hproto & Hftn & Hdom).
  rewrite Ha, satisfiedBy_cons in Hdom.
  destruct (startsWithDash arg) eqn:Hdash.
  - apply (consumeToken_option _ _ _ _ Hdash) in Hrun.
    destruct Hrun as [_ _ _ Hargs Htables].
    unfold tokenNames in Htables. cbn [tables set_tables set_args args] in *.
    rewrite Ht in Htables. destruct (tables st') as [t'|] eqn:Ht'; [|done].
    destruct Htables as (Hodm' & Hproto' & Hftn' & Hdom').
    exists t'. split; [exact Ht'|]. split; [congruence|]. split; [congruence|].
    split; [congruence|].
    rewrite <- Hdom, Hdom'.
    rewrite (referredNames_tables t t0) by assumption.
    rewrite (list_filter_iff (λ n, isRequired t n = true) (λ n, isRequired t0 n = true))
      by (intros n; rewrite (isRequired_tables t t0) by assumption; done).
    destruct Hargs as [->|(v & -> & Hv)].
    + set_solver.
    + rewrite (satisfiedBy_cons t0 v), (referredNames_positional t0 v) by assumption.
      rewrite filter_nil. set_solver.
  - rewrite consumeToken_positional in Hrun by assumption.
    rewrite referredNames_positional, filter_nil in Hdom by assumption.
    unfold consumeArgument in Hrun. cbn [set_args args tables pendingParamDefinitions] in Hrun.
    exists t.
    destruct (pendingParamDefinitions st); injection Hrun as _ <-;
      cbn [tables args]; (repeat split; [assumption..|]);
      rewrite <- Hdom; set_solver.
Qed.

Lemma elem_of_Object_keys (m : JSObject.ordered bool) name :
  name ∈ Object_keys m <-> name ∈ JSObject.dom m.
Proof. apply elem_of_keys. Qed.

(** At the end of the loop the pending required options are those that no
    token referred to, an option named [__proto__] never being pending. *)
Lemma pending_at_exhaustion command definitions args st :
  optionDefinitions command = Some definitions ->
  NoDup (OptionDefinition.name <$> definitions) ->
  consumeTokens (length args) (initial command args) = Some (Exhausted st) ->
  exists t,
    tables st = Some t
    /\ forall name,
         name ∈ Object_keys (requiredOptionMap t)
         <-> missingRequired definitions args name /\ name <> "__proto__".
Proof.
  intros Hdefs Hnd Hrun.
  destruct (consumeTokens_invariant
              (pendingInvariant (initialTables definitions) args)
              (fun st arg rest st' u Ha _ Hone Hinv =>
                 pendingInvariant_turn _ _ st arg rest st' u Ha Hone Hinv)
              _ _ _ Hrun) as [(t & Ht & Hodm & Hproto & Hftn & Hdom) Hargs].
  { exists (initialTables definitions). unfold initial. simpl.
    rewrite Hdefs. auto. }
  exists t. split; [exact Ht|]. intros name.
  rewrite Hargs in Hdom.
  replace (satisfiedBy (initialTables definitions) []) with (∅ : gset string)
    in Hdom by reflexivity.
  rewrite difference_empty_L in Hdom.
  rewrite elem_of_Object_keys, Hdom, elem_of_difference, elem_of_satisfiedBy,
    requiredOptionMap_initial.
  unfold missingRequired. split.
  - intros [[Hp Hreq] Hsup]. split; [|exact Hp]. split; [exact Hreq|].
    intros Hs. apply Hsup. split; [|exact Hs].
    destruct Hreq as (d & Hd & <- & Hr). unfold isRequired.
    rewrite definitionOf_initial, declared_NoDup by assumption. exact Hr.
  - intros [[Hreq Hsup] Hp]. split; [auto|]. intros [_ Hs]. auto.
Qed.

(** C5, as the code has it. Let the option names be unique, the queue be
    exhausted without help request or throw, and the bound positional
    arguments be as many as required.  When some option marked required,
    other than one named [__proto__], was referred to by no token, neither
    by long name nor by flag, [load] throws for the missing required
    options, and the names it reports are exactly the options marked
    required, other than [__proto__], that no token referred to; an option
    referred to by long name or by flag is not reported.  When every such
    option was referred to, [load] goes on to [execute].  (An option named
    [__proto__] is never pending: the table of pending options takes no
    entry under that name.) *)
Theorem C5_missing_required_options (command : Command)
    (definitions : list OptionDefinition.t) (commandSequence args : list string)
    (cwd : string) (st : Invocation) :
  optionDefinitions command = Some definitions ->
  NoDup (OptionDefinition.name <$> definitions) ->
  consumeTokens (length args) (initial command args) = Some (Exhausted st) ->
  requiredParamsNumber command <= length (commandArgs st) ->
  ((exists name, missingRequired definitions args name /\ name <> "__proto__") ->
   exists names,
     load command commandSequence args cwd
     = Some (Error (MissingRequiredOptions names))
     /\ forall name,
          name ∈ names
          <-> missingRequired definitions args name /\ name <> "__proto__")
  /\ ((forall name, missingRequired definitions args name -> name = "__proto__") ->
      exists arguments,
        load command commandSequence args cwd = Some (Execute arguments)).
Proof.
  intros Hdefs Hnd Hrun Hcount.
  destruct (pending_at_exhaustion _ _ _ _ Hdefs Hnd Hrun) as (t & Ht & Hkeys).
  unfold load, dispatch. rewrite Hrun, Ht.
  replace (length (commandArgs st) <? requiredParamsNumber command) with false
    by (symmetry; apply Nat.ltb_ge; exact Hcount).
  cbn [fmap option_fmap option_map compose].
  destruct (Object_keys (requiredOptionMap t)) as [|missing others] eqn:Hnames.
  - split.
    + intros [name Hmiss]. apply Hkeys in Hmiss. inversion Hmiss.
    + intros _. eauto.
  - split.
    + intros _. eauto.
    + intros Hnone. exfalso.
      assert (Hin : missing ∈ missing :: others) by set_solver.
      apply Hkeys in Hin as [Hmiss Hp]. exact (Hp (Hnone _ Hmiss)).
Qed.

(** [deploy widget -f] lacks the required option [token]. *)
Lemma C5_missing_required_options_witness :
  exists names,
    load deploy_command ["clime"; "deploy"] ["widget"; "-f"] "/home"
    = Some (Error (MissingRequiredOptions names))
    /\ forall name,
         name ∈ names
         <-> missingRequired [token_option; force_option] ["widget"; "-f"] name
             /\ name <> "__proto__".
Proof.
  assert (Hnd : NoDup (OptionDefinition.name <$> [token_option; force_option])).
  { cbn. repeat constructor; set_solver. }
  assert (Hmissing : exists name,
             missingRequired [token_option; force_option] ["widget"; "-f"] name
             /\ name <> "__proto__").
  { exists "token". split; [|discriminate]. split.
    - exists token_option. split; [set_solver|]. split; reflexivity.
    - intros (arg & Hin & Hname).
      apply elem_of_cons in Hin as [->|Hin]; [vm_compute in Hname; inversion Hname|].
      apply list_elem_of_singleton in Hin. subst arg.
      vm_compute in Hname. apply list_elem_of_singleton in Hname. discriminate. }
  apply (proj1 (C5_missing_required_options deploy_command
                  [token_option; force_option] ["clime"; "deploy"]
                  ["widget"; "-f"] "/home"
                  {| args := [];
                     commandArgs := [VString "widget"];
                     commandExtraArgs := [];
                     tables :=
                       Some (assigned "force" force_option (VBoolean true)
                               (initialTables [token_option; force_option]));
                     pendingParamDefinitions := [] |}
                  eq_refl Hnd eq_refl (le_n 1)) Hmissing).
Defined.

(** C5 as stated fails: with too few positional arguments the count
    mismatch is thrown first, whatever required options are missing; and a
    required option named [__proto__] that no token refers to is not
    reported, [load] going on to [execute]. *)
Lemma C5_counterexample :
  load deploy_command ["clime"; "deploy"] [] "/home"
  = Some (Error (InsufficientPositionalArguments 1 0))
  /\ load proto_command ["clime"] [] "/home"
     = Some (Execute [AOptions ∅;
                      AContext {| Context.cwd := "/home";
                                  Context.args := [];
                                  Context.commands := ["clime"] |}])
  /\ ~ (forall command definitions commandSequence args cwd d,
          optionDefinitions command = Some definitions ->
          d ∈ definitions ->
          OptionDefinition.required d = true ->
          ~ supplied (initialTables definitions) args (OptionDefinition.name d) ->
          exists names,
            load command commandSequence args cwd
            = Some (Error (MissingRequiredOptions names))
            /\ OptionDefinition.name d ∈ names).
Proof.
  split; [vm_compute; reflexivity|]. split; [vm_compute; reflexivity|].
  intros H.
  destruct (H deploy_command [token_option; force_option] ["clime"; "deploy"] []
              "/home" token_option eq_refl) as (names & Hload & _).
  - set_solver.
  - reflexivity.
  - intros (arg & Hin & _). inversion Hin.
  - vm_compute in Hload. discriminate Hload.
Qed.

(** ** Parameter slots and dispatch *)

Lemma slotsInvariant_initial command tokens :
  slotsInvariant (paramDefinitions command) tokens [] (initial command tokens).
Proof.
  unfold slotsInvariant, initial. simpl.
  repeat split; [lia|congruence|reflexivity].
Qed.

(** The parameter slots through one turn of the loop. *)
Lemma slotsInvariant_turn params args0 bound st arg rest st' u :
  args st = arg :: rest ->
  consumeToken arg (set_args rest st) = inr (u, st') ->
  slotsInvariant params args0 bound st ->
  exists bound', slotsInvariant params args0 bound' st'.
Proof.
  intros Ha Hrun (Hbound & Hlen & Hpending & Hextra & Hsub).
  rewrite Ha in Hsub.
  destruct (startsWithDash arg) eqn:Hdash.
  - apply (consumeToken_option _ _ _ _ Hdash) in Hrun.
    destruct Hrun as [H1 H2 H3 Hargs _].
    cbn [set_args args commandArgs commandExtraArgs pendingParamDefinitions] in *.
    exists bound. unfold slotsInvariant. rewrite H1, H2, H3.
    repeat split; try assumption.
    etransitivity; [|exact Hsub].
    apply sublist_app; [reflexivity|]. apply sublist_app; [reflexivity|].
    destruct Hargs as [->|(v & -> & _)].
    + apply sublist_cons, reflexivity.
    + do 2 apply sublist_cons. reflexivity.
  - rewrite consumeToken_positional in Hrun by assumption.
    unfold consumeArgument in Hrun.
    cbn [set_args args commandArgs commandExtraArgs pendingParamDefinitions tables]
      in Hrun.
    destruct (pendingParamDefinitions st) as [|definition pending] eqn:Hp;
      injection Hrun as _ <-.
    + exists bound. unfold slotsInvariant.
      cbn [args commandArgs commandExtraArgs pendingParamDefinitions].
      symmetry in Hpending. apply drop_nil_inv in Hpending.
      repeat split; try assumption.
      * rewrite drop_ge by assumption. reflexivity.
      * intros _. lia.
      * rewrite <- app_assoc. exact Hsub.
    + assert (Hlookup : params !! length bound = Some definition).
      { rewrite <- (Nat.add_0_r (length bound)), <- lookup_drop, <- Hpending.
        reflexivity. }
      assert (Hlt : length bound < length params)
        by (apply lookup_lt_is_Some; eauto).
      assert (Hnone : commandExtraArgs st = []).
      { destruct (commandExtraArgs st) eqn:E; [reflexivity|].
        assert (length bound = length params) by (apply Hextra; discriminate). lia. }
      exists (bound ++ [arg]). unfold slotsInvariant.
      cbn [args commandArgs commandExtraArgs pendingParamDefinitions].
      rewrite length_app. cbn [length].
      repeat split.
      * rewrite zip_with_app_l, zip_with_take_r, <- Hbound.
        rewrite <- fmap_drop, <- Hpending. reflexivity.
      * lia.
      * rewrite (drop_S _ _ _ Hlookup) in Hpending.
        injection Hpending as ->. rewrite Nat.add_1_r. reflexivity.
      * rewrite Hnone. congruence.
      * rewrite Hnone in *. cbn [app] in *. rewrite <- app_assoc. exact Hsub.
Qed.

(** The tables exist throughout exactly when the command has option
    definitions. *)
Lemma tables_turn st arg rest st' u :
  consumeToken arg (set_args rest st) = inr (u, st') ->
  (is_Some (tables st') <-> is_Some (tables st)).
Proof.
  intros Hrun. destruct (startsWithDash arg) eqn:Hdash.
  - apply (consumeToken_option _ _ _ _ Hdash) in Hrun.
    destruct Hrun as [_ _ _ _ Ht]. cbn [set_args tables] in Ht.
    destruct (tables st), (tables st'); try done; split; eauto.
  - rewrite consumeToken_positional in Hrun by assumption.
    unfold consumeArgument in Hrun. cbn [set_args pendingParamDefinitions tables] in Hrun.
    destruct (pendingParamDefinitions st); injection Hrun as _ <-; reflexivity.
Qed.

(** C9, as the code has it. Let the queue be exhausted without help request
    or throw, the bound positional arguments be as many as required and no
    required option be pending.  Then [execute] is invoked with, in this
    order: the tokens bound to the first parameters, each coerced to the
    type of its parameter in the order of declaration; the declared default
    of every parameter that no token was bound to, in the order of
    declaration; the options record, which is there exactly when the
    [optionDefinitions] of the command are defined, be they an empty list,
    and left out when they are undefined; and the context with the working
    directory, the overflow tokens and the command path.  The bound tokens followed by the overflow
    tokens appear in that order in the tail, and there is overflow only when
    every parameter has a token. *)
Theorem C9_dispatch (command : Command) (commandSequence args : list string)
    (cwd : string) (st : Invocation) :
  consumeTokens (length args) (initial command args) = Some (Exhausted st) ->
  requiredParamsNumber command <= length (commandArgs st) ->
  (forall t, tables st = Some t -> requiredOptionMap t = []) ->
  exists bound,
    length bound <= length (paramDefinitions command)
    /\ sublist (bound ++ commandExtraArgs st) args
    /\ (commandExtraArgs st <> [] -> length bound = length (paramDefinitions command))
    /\ (is_Some (tables st) <-> is_Some (optionDefinitions command))
    /\ load command commandSequence args cwd
       = Some (Execute
                 ((AValue <$>
                     zip_with castArgument bound
                       (ParamDefinition.type <$> paramDefinitions command)
                     ++ (ParamDefinition.default
                           <$> drop (length bound) (paramDefinitions command)))
                  ++ match tables st with
                     | Some t => [AOptions (commandOptions t)]
                     | None => []
                     end
                  ++ [AContext {| Context.cwd := cwd;
                                  Context.args := commandExtraArgs st;
                                  Context.commands := commandSequence |}])).
Proof.
  intros Hrun Hcount Hpending.
  destruct (consumeTokens_invariant
              (fun s => (is_Some (tables s) <-> is_Some (optionDefinitions command))
                        /\ exists bound,
                             slotsInvariant (paramDefinitions command) args bound s)
              (fun s arg rest s' u Ha _ Hone Hinv =>
                 conj (iff_trans (tables_turn s arg rest s' u Hone) (proj1 Hinv))
                      (match proj2 Hinv with
                       | ex_intro _ bound Hb =>
                           slotsInvariant_turn _ _ bound s arg rest s' u Ha Hone Hb
                       end))
              _ _ _ Hrun)
    as [[Htables (bound & Hbound & Hlen & Hpend & Hextra & Hsub)] Hargs].
  { split.
    - unfold initial. simpl. rewrite <- !not_eq_None_Some.
      destruct (optionDefinitions command); simpl; split; congruence.
    - exists []. apply slotsInvariant_initial. }
  exists bound. rewrite Hargs, app_nil_r in Hsub.
  split; [exact Hlen|]. split; [exact Hsub|]. split; [exact Hextra|].
  split; [exact Htables|].
  unfold load, dispatch. rewrite Hrun.
  replace (length (commandArgs st) <? requiredParamsNumber command) with false
    by (symmetry; apply Nat.ltb_ge; exact Hcount).
  rewrite Hbound, Hpend.
  destruct (tables st) as [t|] eqn:Ht; [|reflexivity].
  cbn [fmap option_fmap option_map compose].
  rewrite (Hpending t eq_refl). reflexivity.
Qed.

(** [create widget -f more]: one bound token, the options record, one
    overflow token. *)
Lemma C9_dispatch_witness :
  exists bound,
    length bound <= 1
    /\ sublist (bound ++ ["more"]) ["widget"; "-f"; "more"]
    /\ load create_command ["clime"; "create"] ["widget"; "-f"; "more"] "/home"
       = Some (Execute
                 ((AValue <$> zip_with castArgument bound [TString]
                              ++ (ParamDefinition.default
                                    <$> drop (length bound) [name_param]))
                  ++ [AOptions (<["force" := VBoolean true]>
                                  {["force" := VBoolean false]})]
                  ++ [AContext {| Context.cwd := "/home";
                                  Context.args := ["more"];
                                  Context.commands := ["clime"; "create"] |}])).
Proof.
  assert (Hpending : forall t,
             Some (assigned "force" force_option (VBoolean true)
                     (initialTables [force_option])) = Some t ->
             requiredOptionMap t = []).
  { intros t [= <-]. reflexivity. }
  destruct (C9_dispatch create_command ["clime"; "create"] ["widget"; "-f"; "more"]
              "/home"
              {| args := [];
                 commandArgs := [VString "widget"];
                 commandExtraArgs := ["more"];
                 tables :=
                   Some (assigned "force" force_option (VBoolean true)
                           (initialTables [force_option]));
                 pendingParamDefinitions := [] |}
              eq_refl (le_n 1) Hpending)
    as (bound & Hlen & Hsub & _ & _ & Hload).
  exists bound. split; [exact Hlen|]. split; [exact Hsub|]. exact Hload.
Defined.

(** C9 as stated fails: a command whose option definitions are an empty
    list declares no option, and [execute] is given the options record all
    the same, empty. *)
Lemma C9_counterexample :
  optionDefinitions empty_options_command = Some []
  /\ load empty_options_command ["clime"] [] "/home"
     = Some (Execute [AOptions ∅;
                      AContext {| Context.cwd := "/home";
                                  Context.args := [];
                                  Context.commands := ["clime"] |}])
  /\ ~ (forall command commandSequence args cwd arguments,
          load command commandSequence args cwd = Some (Execute arguments) ->
          ((forall options, AOptions options ∉ arguments)
           <-> forall definitions d,
                 optionDefinitions command = Some definitions -> d ∉ definitions)).
Proof.
  split; [reflexivity|]. split; [vm_compute; reflexivity|].
  intros H.
  specialize (H empty_options_command ["clime"] [] "/home" _ eq_refl).
  apply (proj2 H) with (options := ∅).
  - intros definitions d [= <-]. set_solver.
  - vm_compute. set_solver.
Qed.

(** ** End to end *)

(** The examples of the specification: [create widget -f] binds the
    parameter and sets the toggle; [create -f] throws the count mismatch;
    [create --help] asks for help with the command path. *)
Lemma parse_examples :
  parse tree_create require_create "clime"
    ["node"; "clime"; "create"; "widget"; "-f"] "/cli" "/home"
  = Some (Execute
            [AValue (VString "widget");
             AOptions (<["force" := VBoolean true]> {["force" := VBoolean false]});
             AContext {| Context.cwd := "/home";
                         Context.args := [];
                         Context.commands := ["clime"; "create"] |}])
  /\ parse tree_create require_create "clime"
       ["node"; "clime"; "create"; "-f"] "/cli" "/home"
     = Some (Error (InsufficientPositionalArguments 1 0))
  /\ parse tree_create require_create "clime"
       ["node"; "clime"; "create"; "--help"] "/cli" "/home"
     = Some (Help ["clime"; "create"]).
Proof. repeat split; vm_compute; reflexivity. Qed.

(** * Further properties *)

(** ** The command-name grammar *)

Lemma match_name_word (w : string) :
  forallb is_word (list_ascii_of_string w) = true ->
  forall word rest,
    Resolver.match_name word (w +:+ rest)
    = Resolver.match_name (word || negb (bool_decide (w = EmptyString))) rest.
Proof.
  induction w as [|c w IH]; intros Hw word rest.
  - cbn. rewrite orb_false_r. reflexivity.
  - cbn in Hw. apply andb_true_iff in Hw as [Hc Hw].
    change (String c w +:+ rest) with (String c (w +:+ rest)).
    cbn [Resolver.match_name]. rewrite Hc, (IH Hw).
    rewrite orb_true_r. reflexivity.
Qed.

Lemma isWordSegment_inv (s : string) :
  isWordSegment s = true ->
  s <> EmptyString /\ forallb is_word (list_ascii_of_string s) = true.
Proof.
  unfold isWordSegment. intros [H1 H2]%andb_true_iff. split; [|exact H2].
  apply negb_true_iff, bool_decide_eq_false in H1. exact H1.
Qed.

Lemma match_name_hyphenated (segments : list string) :
  Forall (λ s, isWordSegment s = true) segments ->
  Resolver.match_name true (hyphenated segments) = true.
Proof.
  induction 1 as [|segment rest Hs _ IH]; [reflexivity|].
  apply isWordSegment_inv in Hs as [Hne Hw].
  cbn [hyphenated].
  change ("-" +:+ segment +:+ hyphenated rest)
    with (String "-"%char (segment +:+ hyphenated rest)).
  cbn [Resolver.match_name].
  replace (is_word "-"%char) with false by reflexivity.
  rewrite bool_decide_true by reflexivity. cbn [andb].
  rewrite (match_name_word _ Hw), bool_decide_false by exact Hne. exact IH.
Qed.

Lemma match_name_inv (s : string) : forall word,
  Resolver.match_name word s = true ->
  exists w segments,
    forallb is_word (list_ascii_of_string w) = true
    /\ Forall (λ s, isWordSegment s = true) segments
    /\ s = w +:+ hyphenated segments
    /\ (word = false -> w <> EmptyString).
Proof.
  induction s as [|c s IH]; intros word Hm.
  - cbn in Hm. subst word. exists EmptyString, [].
    split; [reflexivity|]. split; [constructor|]. split; [reflexivity|].
    intros [=].
  - cbn [Resolver.match_name] in Hm. destruct (is_word c) eqn:Hc.
    + destruct (IH true Hm) as (w & segments & Hw & Hsegs & -> & _).
      exists (String c w), segments. repeat split; try assumption.
      * cbn. rewrite Hc, Hw. reflexivity.
      * discriminate.
    + destruct (bool_decide (c = "-"%char)) eqn:Hdash; [|discriminate].
      destruct word; [|discriminate]. cbn [andb] in Hm.
      apply bool_decide_eq_true in Hdash. subst c.
      destruct (IH false Hm) as (w & segments & Hw & Hsegs & -> & Hne).
      exists EmptyString, (w :: segments). repeat split.
      * constructor; [|exact Hsegs]. unfold isWordSegment.
        rewrite Hw, bool_decide_false by auto. reflexivity.
      * discriminate.
Qed.

(** X1. The automaton that stands for the command-name regular expression
    accepts exactly the non-empty runs of word characters (letters, digits,
    underscore) separated by single hyphens. *)
Theorem X1_command_name_grammar (arg : string) :
  Resolver.validCommandName arg = true
  <-> exists segments,
        segments <> []
        /\ Forall (λ s, isWordSegment s = true) segments
        /\ arg = joinHyphen segments.
Proof.
  unfold Resolver.validCommandName. split.
  - intros Hm. destruct (match_name_inv arg false Hm)
      as (w & segments & Hw & Hsegs & -> & Hne).
    exists (w :: segments). split; [discriminate|]. split; [|reflexivity].
    constructor; [|exact Hsegs]. unfold isWordSegment.
    rewrite Hw, bool_decide_false by auto. reflexivity.
  - intros (segments & Hne & Hsegs & ->).
    destruct Hsegs as [|segment rest Hs Hrest]; [contradiction|].
    apply isWordSegment_inv in Hs as [Hs Hw]. cbn [joinHyphen].
    rewrite (match_name_word _ Hw), bool_decide_false by exact Hs.
    apply match_name_hyphenated, Hrest.
Qed.

(** A token that starts with a hyphen, an option or a help request, is
    never a command name. *)
Lemma validCommandName_dash (arg : string) :
  startsWithDash arg = true -> Resolver.validCommandName arg = false.
Proof.
  unfold startsWithDash. intros H%bool_decide_eq_true.
  destruct arg as [|c arg]; [discriminate|]. cbn in H. injection H as ->.
  reflexivity.
Qed.

(** ** What the resolver returns *)

Section ResolverResults.

Variable existsSync : string -> bool.

Lemma find_possiblePaths_exists searchPath file :
  List.find existsSync (Resolver.possiblePaths searchPath) = Some file ->
  existsSync file = true.
Proof. intros H. apply find_some in H. apply H. Qed.

(** The loop of [parse] from any index on: it takes [k] tokens, records the
    names of those among them that have a module, in order, and either
    records nothing and leaves the result as it was, or ends on a module
    that exists with the arguments starting right behind the [k] tokens. *)
Lemma scan_result tokens : forall i searchPath r,
  exists k names,
    k <= length tokens
    /\ sublist names (take k tokens)
    /\ Forall (λ n, Resolver.validCommandName n = true) names
    /\ Resolver.commandSequence (Resolver.scan existsSync i tokens searchPath r)
       = Resolver.commandSequence r ++ names
    /\ ((k = 0 /\ names = [] /\ Resolver.scan existsSync i tokens searchPath r = r)
        \/ (1 <= k /\ names <> []
            /\ Resolver.argsIndex (Resolver.scan existsSync i tokens searchPath r)
               = i + k
            /\ existsSync
                 (Resolver.filename (Resolver.scan existsSync i tokens searchPath r))
               = true)).
Proof.
  induction tokens as [|arg rest IH]; intros i searchPath r.
  - exists 0, []. rewrite app_nil_r. cbn.
    split; [lia|]. split; [constructor|]. split; [constructor|].
    split; [reflexivity|]. left. auto.
  - cbn [Resolver.scan].
    destruct (Resolver.validCommandName arg) eqn:Hv.
    2:{ exists 0, []. rewrite app_nil_r. cbn.
        split; [lia|]. split; [constructor|]. split; [constructor|].
        split; [reflexivity|]. left. auto. }
    destruct (List.find existsSync _) as [file|] eqn:Hfind.
    + apply find_possiblePaths_exists in Hfind.
      match goal with
      | |- context [Resolver.scan _ (S i) rest ?sp ?r1] =>
          destruct (IH (S i) sp r1) as (k & names & Hk & Hsub & Hvalid & Hcs & Hend)
      end.
      exists (S k), (arg :: names). cbn [length take].
      split; [lia|]. split; [constructor; exact Hsub|].
      split; [constructor; assumption|].
      split; [rewrite Hcs; cbn; rewrite <- app_assoc; reflexivity|].
      right. split; [lia|]. split; [discriminate|].
      destruct Hend as [(-> & -> & ->)|(_ & _ & -> & ->)]; cbn; split; auto with lia.
    + destruct (existsSync (Resolver.Path_join searchPath arg)); cbn [negb].
      2:{ exists 0, []. rewrite app_nil_r. cbn.
          split; [lia|]. split; [constructor|]. split; [constructor|].
          split; [reflexivity|]. left. auto. }
      destruct (IH (S i) (Resolver.Path_join searchPath arg) r)
        as (k & names & Hk & Hsub & Hvalid & Hcs & Hend).
      destruct Hend as [(-> & -> & Hsame)|(Hk1 & Hne & Hidx & Hfile)].
      * exists 0, []. rewrite app_nil_r, Hsame. cbn.
        split; [lia|]. split; [constructor|]. split; [constructor|].
        split; [reflexivity|]. left. auto.
      * exists (S k), names. cbn [length take].
        split; [lia|]. split; [apply sublist_cons, Hsub|].
        split; [exact Hvalid|]. split; [exact Hcs|].
        right. rewrite Hidx. repeat split; auto with lia.
Qed.

(** X2. For every tree and argv the resolver takes some number [k] of the
    tokens behind the first two: the command path is the entry followed by
    names among those [k] tokens, in their order, all of them command
    names; the arguments of the command are the tokens behind the [k]
    taken, and [argsIndex] is [2 + k]. *)
Theorem X2_resolver_takes_a_prefix (entry : string) (argv : list string)
    (root : string) :
  let r := Resolver.resolve existsSync entry argv root in
  exists k names,
    k <= length (drop 2 argv)
    /\ Resolver.argsIndex r = 2 + k
    /\ Resolver.commandSequence r = entry :: names
    /\ sublist names (take k (drop 2 argv))
    /\ Forall (λ n, Resolver.validCommandName n = true) names
    /\ Resolver.resolvedArgs argv r = drop k (drop 2 argv).
Proof.
  intros r. unfold r, Resolver.resolve.
  match goal with
  | |- context [Resolver.scan _ 2 ?tokens root ?r0] =>
      destruct (scan_result tokens 2 root r0)
        as (k & names & Hk & Hsub & Hvalid & Hcs & Hend)
  end.
  exists k, names. split; [exact Hk|].
  assert (Hidx : Resolver.argsIndex
                   (Resolver.scan existsSync 2 (drop 2 argv) root
                      {| Resolver.filename :=
                           Resolver.Path_join root (Resolver.defaultEntry +:+ ".js");
                         Resolver.argsIndex := 2;
                         Resolver.commandSequence := [entry] |}) = 2 + k).
  { destruct Hend as [(-> & _ & ->)|(_ & _ & -> & _)]; reflexivity. }
  split; [exact Hidx|]. split; [exact Hcs|]. split; [exact Hsub|].
  split; [exact Hvalid|].
  unfold Resolver.resolvedArgs. rewrite Hidx, drop_drop. reflexivity.
Qed.

(** X3. The module the resolver hands to [load] exists in the tree, unless
    no token matched a module: then it is the default module of the root,
    whether that exists or not, the command path is the entry alone and all
    tokens behind the first two are arguments. *)
Theorem X3_resolved_module_exists (entry : string) (argv : list string)
    (root : string) :
  let r := Resolver.resolve existsSync entry argv root in
  (Resolver.filename r = Resolver.Path_join root "default.js"
   /\ Resolver.commandSequence r = [entry]
   /\ Resolver.resolvedArgs argv r = drop 2 argv)
  \/ (existsSync (Resolver.filename r) = true
      /\ 2 <= length (Resolver.commandSequence r)).
Proof.
  intros r. unfold r, Resolver.resolve.
  match goal with
  | |- context [Resolver.scan _ 2 ?tokens root ?r0] =>
      destruct (scan_result tokens 2 root r0)
        as (k & names & Hk & Hsub & Hvalid & Hcs & Hend)
  end.
  destruct Hend as [(-> & -> & ->)|(_ & Hne & _ & Hfile)].
  - left. repeat split.
  - right. split; [exact Hfile|]. rewrite Hcs.
    destruct names; [contradiction|]. cbn. lia.
Qed.

(** A walk over tokens that all have a module records each of them. *)
Lemma scan_allModules pre : forall i rest searchPath r,
  allModules existsSync searchPath pre = true ->
  Resolver.argsIndex r = i ->
  Resolver.scan existsSync i (pre ++ rest) searchPath r
  = Resolver.scan existsSync (i + length pre) rest (descend searchPath pre)
      {| Resolver.filename := lastFile existsSync searchPath pre (Resolver.filename r);
         Resolver.argsIndex := i + length pre;
         Resolver.commandSequence := Resolver.commandSequence r ++ pre |}.
Proof.
  induction pre as [|arg pre IH]; intros i rest searchPath r Hall Hidx.
  - cbn. rewrite Nat.add_0_r, app_nil_r. destruct r; cbn in *. subst. reflexivity.
  - cbn [allModules] in Hall. apply andb_true_iff in Hall as [Hm Hall].
    rewrite <- app_comm_cons, (scan_module existsSync) by exact Hm.
    rewrite (IH (S i)); [|exact Hall|cbn; lia].
    cbn [Resolver.filename Resolver.commandSequence lastFile length].
    change (descend searchPath (arg :: pre))
      with (descend (Resolver.Path_join searchPath arg) pre).
    rewrite <- app_assoc, Nat.add_succ_r. reflexivity.
Qed.

(** The result of a walk over tokens with modules that a hyphen ends. *)
Lemma resolve_allModules (entry root node script : string)
    (pre : list string) (arg : string) (post : list string) :
  allModules existsSync root pre = true ->
  startsWithDash arg = true ->
  Resolver.resolve existsSync entry (node :: script :: pre ++ arg :: post) root
  = {| Resolver.filename :=
         lastFile existsSync root pre (Resolver.Path_join root "default.js");
       Resolver.argsIndex := 2 + length pre;
       Resolver.commandSequence := entry :: pre |}.
Proof.
  intros Hall Hdash. unfold Resolver.resolve. cbn [drop]. rewrite drop_0.
  rewrite scan_allModules by (auto; reflexivity).
  cbn [Resolver.scan]. rewrite validCommandName_dash by exact Hdash.
  reflexivity.
Qed.

(** X4. When every token of [pre] has a module along the walk and the next
    token starts with a hyphen, the resolver records all of [pre] as the
    command path, the module of the last of them as the file, and hands
    that next token and everything behind it to the command. *)
Theorem X4_options_end_the_command_path (entry root node script : string)
    (pre : list string) (arg : string) (post : list string) :
  allModules existsSync root pre = true ->
  startsWithDash arg = true ->
  let argv := node :: script :: pre ++ arg :: post in
  Resolver.resolve existsSync entry argv root
  = {| Resolver.filename :=
         lastFile existsSync root pre (Resolver.Path_join root "default.js");
       Resolver.argsIndex := 2 + length pre;
       Resolver.commandSequence := entry :: pre |}
  /\ Resolver.resolvedArgs argv (Resolver.resolve existsSync entry argv root)
     = arg :: post.
Proof.
  intros Hall Hdash argv. unfold argv.
  rewrite resolve_allModules by assumption.
  split; [reflexivity|]. unfold Resolver.resolvedArgs.
  cbn [Resolver.argsIndex Nat.add drop]. apply drop_app_length.
Qed.

End ResolverResults.

(** X5. Help behind a resolved command path: when every token of [pre] has
    a module, the module of the last of them loads, and the next token is a
    help request, [parse] ends with the help operation called with the
    entry followed by [pre]. *)
Theorem X5_help_reports_the_command_path (existsSync : string -> bool)
    (require : string -> option Command) (entry root cwd node script : string)
    (pre : list string) (token : string) (post : list string) (command : Command) :
  allModules existsSync root pre = true ->
  isHelp token = true ->
  require (lastFile existsSync root pre (Resolver.Path_join root "default.js"))
  = Some command ->
  parse existsSync require entry (node :: script :: pre ++ token :: post) root cwd
  = Some (Help (entry :: pre)).
Proof.
  intros Hall Hhelp Hreq. unfold parse.
  rewrite resolve_allModules by (auto using isHelp_startsWithDash).
  cbn [Resolver.filename Resolver.commandSequence]. rewrite Hreq.
  unfold Resolver.resolvedArgs. cbn [Resolver.argsIndex Nat.add drop].
  rewrite drop_app_length.
  unfold load. cbn [length consumeTokens initial args]. rewrite Hhelp. reflexivity.
Qed.

(** ** The loop of [load] *)

(** X6. The loop of [load] ends: it takes at most one turn per token of the
    tail, so [load] always ends with help, a throw or the dispatch, and
    turns beyond the length of the tail change nothing. *)
Theorem X6_loop_terminates (command : Command) (commandSequence args : list string)
    (cwd : string) :
  (exists o, load command commandSequence args cwd = Some o)
  /\ forall fuel,
       length args <= fuel ->
       consumeTokens fuel (initial command args)
       = consumeTokens (length args) (initial command args).
Proof.
  split; [apply load_total|].
  intros fuel Hfuel.
  destruct (consumeTokens_total (length args) (initial command args)) as [exit Hexit];
    [reflexivity|].
  rewrite Hexit. apply (consumeTokens_total_more _ _ _ _ Hexit Hfuel).
Qed.

(** Positional tokens at the head of the queue are bound one per turn. *)
Lemma consumeTokens_positionals pre : forall fuel st queue,
  Forall (λ a, startsWithDash a = false) pre ->
  args st = pre ++ queue ->
  consumeTokens (length pre + fuel) st
  = consumeTokens fuel (set_args queue (boundPositionals pre st)).
Proof.
  induction pre as [|a pre IH]; intros fuel st queue Hpre Ha.
  - cbn [length Nat.add app] in *. f_equal.
    destruct st as [a0 ca ce t p]. cbn in *. subst.
    unfold boundPositionals, set_args. cbn.
    rewrite ?drop_nil, ?drop_0, !app_nil_r. reflexivity.
  - apply Forall_cons in Hpre as [Hdash Hpre].
    rewrite <- app_comm_cons in Ha. cbn [length Nat.add].
    rewrite (consumeTokens_turn _ _ _ _ Ha).
    destruct (isHelp a) eqn:Hh.
    { apply isHelp_startsWithDash in Hh. congruence. }
    rewrite consumeToken_positional by assumption.
    unfold consumeArgument. cbn [args set_args pendingParamDefinitions].
    destruct (pendingParamDefinitions st) as [|d p] eqn:Hp.
    + rewrite (IH fuel _ queue) by (auto; reflexivity). f_equal.
      unfold boundPositionals, set_args.
      cbn [args commandArgs commandExtraArgs tables pendingParamDefinitions
             fmap list_fmap length drop].
      rewrite Hp. cbn [fmap list_fmap length drop].
      rewrite !zip_with_nil_r, !drop_nil, <- !app_assoc. reflexivity.
    + rewrite (IH fuel _ queue) by (auto; reflexivity). f_equal.
      unfold boundPositionals, set_args.
      cbn [args commandArgs commandExtraArgs tables pendingParamDefinitions].
      rewrite Hp. cbn [fmap list_fmap length drop zip_with].
      rewrite <- !app_assoc. reflexivity.
Qed.

(** X7. A tail without any token that starts with a hyphen.  [load] throws
    the count mismatch when the tokens, or the parameters, are fewer than
    required; else it throws for the required options of the command, as
    [Object.keys] lists them in the table of pending options built from
    the definitions, if there is one; else it invokes [execute] with the
    first tokens coerced to the types of the parameters in order, the
    defaults of the parameters left, the options record as it was seeded,
    and the context whose overflow list holds the tokens beyond the
    parameters, verbatim. *)
Theorem X7_positional_tail (command : Command) (commandSequence tail : list string)
    (cwd : string) :
  Forall (λ a, startsWithDash a = false) tail ->
  load command commandSequence tail cwd
  = Some
      (let got := min (length tail) (length (paramDefinitions command)) in
       if got <? requiredParamsNumber command
       then Error (InsufficientPositionalArguments (requiredParamsNumber command) got)
       else
         match requiredNames command with
         | Some (missing :: others) => Error (MissingRequiredOptions (missing :: others))
         | _ => Execute (positionalArguments command commandSequence tail cwd)
         end).
Proof.
  intros Htail. unfold load.
  pose proof (consumeTokens_positionals tail 0 (initial command tail) [] Htail
                (eq_sym (app_nil_r _))) as Hrun.
  rewrite Nat.add_0_r in Hrun. rewrite Hrun.
  cbn [consumeTokens args set_args]. f_equal.
  unfold dispatch, boundPositionals, initial, requiredNames, positionalArguments.
  cbn [args set_args commandArgs commandExtraArgs tables pendingParamDefinitions app].
  rewrite length_zip_with, length_fmap.
  destruct (_ <? _); [reflexivity|].
  destruct (optionDefinitions command) as [definitions|]; cbn; [|reflexivity].
  destruct (Object_keys (requiredOptionMap (initialTables definitions)));
    reflexivity.
Qed.

(** ** Tokens that are not what they look like *)

(** X8. The token [--] is no end-of-options marker: behind positional
    tokens it is looked up as the option with the empty name, and unless an
    option of that name is declared [load] throws: for the unknown option
    when the command has option definitions, none of them named
    [hasOwnProperty], and a type error when it has none or when one of them
    has that name. *)
Theorem X8_double_hyphen_throws (command : Command)
    (commandSequence pre post : list string) (cwd : string) :
  Forall (λ a, startsWithDash a = false) pre ->
  (forall definitions d,
      optionDefinitions command = Some definitions ->
      d ∈ definitions -> OptionDefinition.name d <> EmptyString) ->
  load command commandSequence (pre ++ "--" :: post) cwd
  = Some (Error (match optionDefinitions command with
                 | Some definitions =>
                     if bool_decide ("hasOwnProperty"
                                       ∈ OptionDefinition.name <$> definitions)
                     then TypeError
                     else UnknownOptionName EmptyString
                 | None => TypeError
                 end)).
Proof.
  intros Hpre Hnames. unfold load.
  rewrite length_app. cbn [length].
  rewrite (consumeTokens_positionals pre _ _ ("--" :: post)) by auto.
  rewrite (consumeTokens_turn _ _ "--" post) by reflexivity.
  replace (isHelp "--") with false by reflexivity.
  rewrite (consumeToken_long EmptyString), consumeToggleOrOption_eq.
  cbn [tables set_args boundPositionals initial].
  destruct (optionDefinitions command) as [definitions|] eqn:Hdefs; cbn; [|reflexivity].
  rewrite hasMethod_optionDefinitionMap.
  case_bool_decide; [reflexivity|]. cbn [negb].
  rewrite optionDefinitionMap_initial.
  rewrite (bool_decide_false (EmptyString = "__proto__")) by discriminate.
  destruct (declared definitions EmptyString) as [d|] eqn:Hd; [|reflexivity].
  apply declared_Some in Hd as [Hin Hname].
  exfalso. exact (Hnames _ d eq_refl Hin Hname).
Qed.

(** Without tables every option token but the lone hyphen throws. *)
Lemma consumeToken_no_tables arg st :
  tables st = None ->
  startsWithDash arg = true ->
  arg <> "-" ->
  consumeToken arg st
  = inl (if bool_decide (charAt 1 arg = Some "-"%char) then TypeError
         else UnknownOptionFlag (substr 1 (String.substring 0 2 arg))).
Proof.
  intros Ht Hdash Hne.
  destruct (startsWithDash_cases arg Hdash) as [[name ->]|(flags & -> & Hflags)].
  - rewrite consumeToken_long, consumeToggleOrOption_eq, Ht. reflexivity.
  - rewrite consumeToken_cluster by assumption.
    destruct flags as [|c flags]; [contradiction|].
    rewrite consumeFlags_cons, Ht.
    rewrite bool_decide_false by exact Hflags.
    destruct flags; reflexivity.
Qed.

Lemma consumeTokens_no_tables fuel : forall st token,
  length (args st) <= fuel ->
  tables st = None ->
  token ∈ args st -> startsWithDash token = true -> token <> "-" ->
  consumeTokens fuel st = Some HelpRequested
  \/ exists e, consumeTokens fuel st = Some (Thrown e).
Proof.
  induction fuel as [|fuel IH]; intros st token Hlen Ht Hin Hdash Hne.
  - destruct (args st); [inversion Hin|cbn in Hlen; lia].
  - destruct (args st) as [|arg rest] eqn:Ha; [inversion Hin|].
    rewrite (consumeTokens_turn _ _ _ _ Ha).
    destruct (isHelp arg) eqn:Hh; [auto|].
    destruct (consumeToken arg (set_args rest st)) as [e|[u st1]] eqn:Hone; [eauto|].
    assert (Ht1 : tables st1 = None).
    { apply tables_turn in Hone. cbn [tables set_args] in Hone. rewrite Ht in Hone.
      destruct (tables st1); [|reflexivity].
      destruct (proj1 Hone) as [? [=]]. eauto. }
    apply elem_of_cons in Hin as [->|Hin].
    { rewrite consumeToken_no_tables in Hone by assumption. discriminate. }
    apply consumeToken_args in Hone. cbn [args set_args] in Hone.
    cbn [length] in Hlen.
    destruct Hone as [E|(v & E & Hv)].
    + apply (IH st1 token); [rewrite E; lia|exact Ht1|rewrite E; exact Hin|auto..].
    + subst rest. cbn [length] in Hlen.
      apply elem_of_cons in Hin as [->|Hin]; [congruence|].
      apply (IH st1 token); [lia|exact Ht1|exact Hin|auto..].
Qed.

(** X9. A command without option definitions takes no option: a tail that
    holds a token starting with a hyphen, other than the lone hyphen, never
    reaches [execute]; and when only positional tokens come before such a
    token that is no help request, [load] throws on it, for the unguarded
    access to the missing table if it is a long option and for the unknown
    first flag if it is a cluster. *)
Theorem X9_no_options_declared (command : Command)
    (commandSequence : list string) (cwd : string) :
  optionDefinitions command = None ->
  (forall args token,
      token ∈ args -> startsWithDash token = true -> token <> "-" ->
      load command commandSequence args cwd = Some (Help commandSequence)
      \/ exists e, load command commandSequence args cwd = Some (Error e))
  /\ (forall pre token post,
        Forall (λ a, startsWithDash a = false) pre ->
        startsWithDash token = true -> token <> "-" -> isHelp token = false ->
        load command commandSequence (pre ++ token :: post) cwd
        = Some (Error (if bool_decide (charAt 1 token = Some "-"%char) then TypeError
                       else UnknownOptionFlag (substr 1 (String.substring 0 2 token))))).
Proof.
  intros Hnone. split.
  - intros args token Hin Hdash Hne. unfold load.
    destruct (consumeTokens_no_tables (length args) (initial command args) token)
      as [->|[e ->]]; eauto.
    unfold initial. simpl. rewrite Hnone. reflexivity.
  - intros pre token post Hpre Hdash Hne Hhelp. unfold load.
    rewrite length_app. cbn [length].
    rewrite (consumeTokens_positionals pre _ _ (token :: post)) by auto.
    rewrite (consumeTokens_turn _ _ token post) by reflexivity.
    rewrite Hhelp, consumeToken_no_tables; auto.
    cbn [tables set_args boundPositionals initial]. rewrite Hnone. reflexivity.
Qed.

(** ** How references to options compose *)

Lemma isHelp_long name : name <> "help" -> isHelp ("--" +:+ name) = false.
Proof.
  intros H. unfold isHelp.
  rewrite !orb_false_iff, !bool_decide_eq_false.
  repeat split; try discriminate. intros [= E]. auto.
Qed.

Lemma isHelp_cluster flags :
  charAt 0 flags <> Some "-"%char ->
  isHelp ("-" +:+ flags) = bool_decide (flags = "h") || bool_decide (flags = "?").
Proof.
  intros H. unfold isHelp.
  rewrite (bool_decide_false (_ = "--help")).
  - rewrite orb_false_r.
    f_equal; apply bool_decide_ext;
      (split; intros E;
       [change ("-" +:+ flags) with (String "-"%char flags) in E; injection E as E;
        exact E
       |rewrite E; reflexivity]).
  - intros E. apply H. change ("-" +:+ flags) with (String "-"%char flags) in E.
    injection E as ->. reflexivity.
Qed.

(** Turns beyond the length of the queue change nothing. *)
Lemma consumeTokens_enough fuel st :
  length (args st) <= fuel ->
  consumeTokens fuel st = consumeTokens (length (args st)) st.
Proof.
  intros Hfuel.
  destruct (consumeTokens_total (length (args st)) st) as [exit Hexit];
    [reflexivity|].
  rewrite Hexit. apply (consumeTokens_total_more _ _ _ _ Hexit Hfuel).
Qed.

(** [load] is the loop from the initial state, then the dispatch. *)
Lemma load_loop command commandSequence tail cwd fuel :
  length tail <= fuel ->
  load command commandSequence tail cwd
  = match consumeTokens fuel (set_args tail (initial command [])) with
    | None => None
    | Some (Exhausted st) => Some (dispatch command commandSequence cwd st)
    | Some HelpRequested => Some (Help commandSequence)
    | Some (Thrown e) => Some (Error e)
    end.
Proof.
  intros Hfuel. unfold load.
  change (initial command tail) with (set_args tail (initial command [])).
  rewrite (consumeTokens_enough fuel) by exact Hfuel. reflexivity.
Qed.

(** X10. A flag and the long name it stands for are interchangeable.  Let
    none of the option definitions have the name or the flag
    [hasOwnProperty], and let the flag table built from them give [name]
    for the flag character [c].  In a state whose lookup tables are the
    built ones, a turn of the loop at the token made of a hyphen and [c]
    ends as a turn at the token [--name], and so does the rest of the
    loop; hence [load] ends the same for the two tokens at the head of a
    tail.  The tokens [-h], [-?] and [--help] are help requests, and the
    name [__proto__] is known by its flag only. *)
Theorem X10_flag_is_long_name (definitions : list OptionDefinition.t)
    (c : ascii) (name : string) :
  "hasOwnProperty" ∉ OptionDefinition.name <$> definitions ->
  "hasOwnProperty" ∉ omap (λ d, truthy (OptionDefinition.flag d)) definitions ->
  flagToNameMapping (initialTables definitions) !! String c EmptyString = Some name ->
  c ∉ ["-"; "h"; "?"]%char ->
  name <> "help" ->
  name <> "__proto__" ->
  (forall st t queue fuel,
      tables st = Some t ->
      lookupTablesOf definitions t ->
      consumeTokens fuel
        (set_args (String "-"%char (String c EmptyString) :: queue) st)
      = consumeTokens fuel (set_args (("--" +:+ name) :: queue) st))
  /\ (forall command commandSequence queue cwd,
        optionDefinitions command = Some definitions ->
        load command commandSequence
          (String "-"%char (String c EmptyString) :: queue) cwd
        = load command commandSequence (("--" +:+ name) :: queue) cwd).
Proof.
  intros Hnames Hflags Hflag0 Hc Hhelp Hp.
  assert (Hloop : forall st t queue fuel,
             tables st = Some t ->
             lookupTablesOf definitions t ->
             consumeTokens fuel
               (set_args (String "-"%char (String c EmptyString) :: queue) st)
             = consumeTokens fuel (set_args (("--" +:+ name) :: queue) st)).
  { intros st t queue fuel Ht (Hodm & Hproto & Hftn).
    assert (Hflag : flagToNameMapping t !! String c EmptyString = Some name)
      by (rewrite Hftn; exact Hflag0).
    destruct fuel as [|fuel]; [reflexivity|].
    change (String "-"%char (String c EmptyString))
      with ("-" +:+ String c EmptyString).
    assert (Hdash : charAt 0 (String c EmptyString) <> Some "-"%char).
    { cbn. intros [= ->]. apply Hc. set_solver. }
    assert (Hm1 : JSObject.hasMethod (optionDefinitionMap t) = true).
    { rewrite Hodm, hasMethod_optionDefinitionMap, bool_decide_false by assumption.
      reflexivity. }
    assert (Hm2 : JSObject.hasMethod (flagToNameMapping t) = true).
    { rewrite Hftn, hasMethod_flagToNameMapping, bool_decide_false by assumption.
      reflexivity. }
    assert (Hof : definitionOf t name = declared definitions name).
    { rewrite <- definitionOf_initial. unfold definitionOf. rewrite Hodm, Hproto.
      reflexivity. }
    assert (Hown : optionDefinitionMap t !! name = declared definitions name).
    { rewrite Hodm, optionDefinitionMap_initial, bool_decide_false by exact Hp.
      reflexivity. }
    assert (Hdef : is_Some (declared definitions name)).
    { rewrite <- definitionOf_initial.
      apply (flagDefinition_initial _ (String c EmptyString)). exact Hflag0. }
    destruct Hdef as [definition Hdef]. rewrite Hdef in Hof, Hown.
    rewrite (consumeTokens_turn _ _ ("-" +:+ String c EmptyString) queue)
      by reflexivity.
    rewrite (consumeTokens_turn _ _ ("--" +:+ name) queue) by reflexivity.
    rewrite isHelp_cluster, isHelp_long by assumption.
    rewrite !bool_decide_false by (intros [= ->]; apply Hc; set_solver).
    cbn [orb].
    rewrite consumeToken_cluster by assumption.
    rewrite consumeToken_long, consumeToggleOrOption_eq, consumeFlags_cons.
    cbn [tables set_args args]. rewrite Ht, Hflag, Hm1, Hm2, Hof, Hown.
    destruct (OptionDefinition.toggle definition); [reflexivity|].
    rewrite bool_decide_true by reflexivity. reflexivity. }
  split; [exact Hloop|].
  intros command commandSequence queue cwd Hdefs.
  rewrite !(load_loop _ _ _ _ (S (length queue))) by reflexivity.
  rewrite (Hloop _ (initialTables definitions)); [reflexivity| |repeat split].
  unfold initial. simpl. rewrite Hdefs. reflexivity.
Qed.

Lemma assigned_assigned name definition v w t :
  assigned name definition v (assigned name definition w t)
  = assigned name definition v t.
Proof.
  unfold assigned, satisfied, set_commandOptions, set_requiredOptionMap.
  destruct (OptionDefinition.required definition);
    cbn [commandOptions optionDefinitionMap definitionPrototype requiredOptionMap
           flagToNameMapping];
    rewrite assign_assign, ?remove_remove; reflexivity.
Qed.

(** X11. Repeating a long option other than [--help], in a state whose
    definition table holds a definition under the name.  A toggle given
    twice in a row is a toggle given once: the loop ends the same way.  A
    value option given again overrides: the loop at [--name a --name]
    ends as the loop at [--name], the next token being the value or the
    cause of the throw, so that the last value wins and the earlier one
    leaves no trace.  Hence [load] ends the same for the two tails. *)
Theorem X11_repeated_option (name : string) (definition : OptionDefinition.t) :
  name <> "help" ->
  let token := "--" +:+ name in
  let loop (repeated once : list string) :=
    (forall st t fuel,
        tables st = Some t ->
        optionDefinitionMap t !! name = Some definition ->
        consumeTokens (S (S fuel)) (set_args repeated st)
        = consumeTokens (S fuel) (set_args once st))
    /\ (forall command definitions commandSequence cwd,
          optionDefinitions command = Some definitions ->
          optionDefinitionMap (initialTables definitions) !! name = Some definition ->
          load command commandSequence repeated cwd
          = load command commandSequence once cwd) in
  if OptionDefinition.toggle definition then
    forall queue, loop (token :: token :: queue) (token :: queue)
  else
    forall a queue,
      startsWithDash a = false ->
      loop (token :: a :: token :: queue) (token :: queue).
Proof.
  intros Hhelp token. unfold token. cbv zeta.
  pose proof (isHelp_long name Hhelp) as Hh.
  destruct (OptionDefinition.toggle definition) eqn:Htoggle.
  - intros queue.
    assert (Hloop : forall st t fuel,
               tables st = Some t ->
               optionDefinitionMap t !! name = Some definition ->
               consumeTokens (S (S fuel))
                 (set_args (("--" +:+ name) :: ("--" +:+ name) :: queue) st)
               = consumeTokens (S fuel) (set_args (("--" +:+ name) :: queue) st)).
    { intros st t fuel Ht Hd.
      rewrite (consumeTokens_turn (S fuel) _ ("--" +:+ name)
                 (("--" +:+ name) :: queue)) by reflexivity.
      rewrite (consumeTokens_turn fuel _ ("--" +:+ name) queue) by reflexivity.
      rewrite Hh, !consumeToken_long, !consumeToggleOrOption_eq.
      cbn [tables set_args args]. rewrite Ht.
      destruct (JSObject.hasMethod (optionDefinitionMap t)) eqn:Hm; [|reflexivity].
      rewrite Hd, Htoggle.
      rewrite (consumeTokens_turn fuel _ ("--" +:+ name) queue) by reflexivity.
      rewrite Hh, consumeToken_long, consumeToggleOrOption_eq.
      cbn [tables set_tables set_args args].
      rewrite assigned_optionDefinitionMap, Hm, Hd, Htoggle, assigned_assigned.
      reflexivity. }
    split; [exact Hloop|].
    intros command definitions commandSequence cwd Hdefs Hd.
    rewrite (load_loop _ _ (_ :: _ :: queue) _ (S (S (length queue))))
      by reflexivity.
    rewrite (load_loop _ _ (_ :: queue) _ (S (length queue))) by reflexivity.
    rewrite (Hloop _ (initialTables definitions)); [reflexivity| |exact Hd].
    unfold initial. simpl. rewrite Hdefs. reflexivity.
  - intros a queue Ha.
    assert (Hloop : forall st t fuel,
               tables st = Some t ->
               optionDefinitionMap t !! name = Some definition ->
               consumeTokens (S (S fuel))
                 (set_args (("--" +:+ name) :: a :: ("--" +:+ name) :: queue) st)
               = consumeTokens (S fuel) (set_args (("--" +:+ name) :: queue) st)).
    { intros st t fuel Ht Hd.
      rewrite (consumeTokens_turn (S fuel) _ ("--" +:+ name)
                 (a :: ("--" +:+ name) :: queue)) by reflexivity.
      rewrite (consumeTokens_turn fuel _ ("--" +:+ name) queue) by reflexivity.
      rewrite Hh, !consumeToken_long, !consumeToggleOrOption_eq.
      cbn [tables set_args args]. rewrite Ht.
      destruct (JSObject.hasMethod (optionDefinitionMap t)) eqn:Hm; [|reflexivity].
      rewrite Hd, Htoggle, Ha.
      rewrite (consumeTokens_turn fuel _ ("--" +:+ name) queue) by reflexivity.
      rewrite Hh, consumeToken_long, consumeToggleOrOption_eq.
      cbn [tables set_tables set_args args].
      rewrite assigned_optionDefinitionMap, Hm, Hd, Htoggle.
      destruct queue as [|b queue]; [reflexivity|].
      destruct (startsWithDash b); [reflexivity|].
      rewrite assigned_assigned. reflexivity. }
    split; [exact Hloop|].
    intros command definitions commandSequence cwd Hdefs Hd.
    rewrite (load_loop _ _ (_ :: a :: _ :: queue) _ (S (S (S (length queue)))))
      by reflexivity.
    rewrite (load_loop _ _ (_ :: queue) _ (S (S (length queue))))
      by (cbn [length]; lia).
    rewrite (Hloop _ (initialTables definitions)); [reflexivity| |exact Hd].
    unfold initial. simpl. rewrite Hdefs. reflexivity.
Qed.


(** ** The tables, with unique names and flags *)

Lemma dom_initialTables definitions :
  dom (commandOptions (initialTables definitions))
  = list_to_set (OptionDefinition.name <$> definitions) ∖ {["__proto__"]}
  /\ dom (optionDefinitionMap (initialTables definitions))
     = list_to_set (OptionDefinition.name <$> definitions) ∖ {["__proto__"]}.
Proof.
  assert (Hdeclared : forall name,
             is_Some (declared definitions name)
             <-> name ∈ OptionDefinition.name <$> definitions).
  { intros name. rewrite list_elem_of_fmap. split.
    - intros [d Hd]. apply declared_Some in Hd as [Hd E]. eauto.
    - intros (d & -> & Hd).
      destruct (declared definitions (OptionDefinition.name d)) eqn:E; [eauto|].
      exfalso. exact (proj1 (declared_None _ _) E d Hd eq_refl). }
  split; apply set_eq; intros name;
    rewrite elem_of_dom, elem_of_difference, elem_of_list_to_set, elem_of_singleton,
      <- Hdeclared.
  - rewrite commandOptions_initial. case_bool_decide as Hp.
    + split; [intros [? [=]]|tauto].
    + rewrite fmap_is_Some. tauto.
  - rewrite optionDefinitionMap_initial. case_bool_decide as Hp.
    + split; [intros [? [=]]|tauto].
    + tauto.
Qed.

(** The pending required options start in the order of declaration. *)
Lemma own_requiredOptionMap_initial definitions :
  NoDup (OptionDefinition.name <$> definitions) ->
  JSObject.own (requiredOptionMap (initialTables definitions))
  = declaredRequired definitions.
Proof.
  unfold declaredRequired.
  induction definitions as [|d definitions IH] using rev_ind; intros Hnd;
    [reflexivity|].
  rewrite fmap_app in Hnd. apply NoDup_app in Hnd as (Hnd & Hdisj & _).
  rewrite initialTables_snoc, filter_app, fmap_app, filter_app.
  cbn [register requiredOptionMap]. rewrite filter_cons, filter_nil.
  destruct (OptionDefinition.required d) eqn:Hreq.
  - rewrite decide_True by reflexivity. cbn [fmap list_fmap].
    rewrite filter_cons, filter_nil, own_assignOrdered, (IH Hnd).
    case_bool_decide as Hp.
    + rewrite decide_False by tauto. rewrite app_nil_r. reflexivity.
    + rewrite decide_True by exact Hp.
      rewrite bool_decide_false; [reflexivity|].
      intros Hin. apply list_elem_of_filter in Hin as [_ Hin].
      apply list_elem_of_fmap in Hin as (d' & E & Hd').
      apply list_elem_of_filter in Hd' as [_ Hd'].
      apply (Hdisj (OptionDefinition.name d)).
      * apply list_elem_of_fmap. eauto.
      * cbn. set_solver.
  - rewrite decide_False by congruence. cbn [fmap list_fmap].
    rewrite filter_nil, app_nil_r. apply IH, Hnd.
Qed.

Lemma indexKeys_none keys :
  Forall (λ key, JSObject.arrayIndex key = None) keys ->
  JSObject.indexKeys keys = [] /\ filter (λ key, JSObject.arrayIndex key = None) keys = keys.
Proof.
  unfold JSObject.indexKeys.
  induction 1 as [|key keys Hkey Hkeys [IH1 IH2]]; [auto|].
  cbn [foldr]. rewrite Hkey, filter_cons, decide_True by exact Hkey.
  split; [exact IH1|]. rewrite IH2. reflexivity.
Qed.

(** X13. With unique option names and unique flags, the tables built from
    the option definitions give every definition back.  A definition under
    another name than [__proto__] is in the definition table under its
    name, and the options record holds its seed, [false] for a toggle and
    the declared default for a value option.  A definition named
    [__proto__] is in no table: the definition table has it as its
    prototype and the options record holds nothing for it.  A flag of one
    character leads to the name and the definition either way.  The own
    keys of the options record are the declared names but [__proto__]; and
    when no name is an array index, [Object.keys] lists the pending
    required options in the order of their declaration, [__proto__]
    apart. *)
Theorem X13_tables_round_trip (definitions : list OptionDefinition.t) :
  NoDup (OptionDefinition.name <$> definitions) ->
  NoDup (omap (λ d, truthy (OptionDefinition.flag d)) definitions) ->
  let t := initialTables definitions in
  (forall d, d ∈ definitions ->
     let name := OptionDefinition.name d in
     (if bool_decide (name = "__proto__")
      then optionDefinitionMap t !! name = None
           /\ definitionPrototype t = Some d
           /\ commandOptions t !! name = None
      else optionDefinitionMap t !! name = Some d
           /\ commandOptions t !! name = Some (seed d))
     /\ forall c, OptionDefinition.flag d = Some (String c EmptyString) ->
          flagDefinition t c = Some (name, d))
  /\ dom (commandOptions t)
     = list_to_set (OptionDefinition.name <$> definitions) ∖ {["__proto__"]}
  /\ (Forall (λ d, JSObject.arrayIndex (OptionDefinition.name d) = None) definitions ->
      Object_keys (requiredOptionMap t) = declaredRequired definitions).
Proof.
  intros Hnames Hflags t. split; [|split; [apply dom_initialTables|]].
  - intros d Hd name. unfold t, name. split.
    + rewrite optionDefinitionMap_initial, commandOptions_initial,
        definitionPrototype_initial.
      case_bool_decide as Hp.
      * rewrite <- Hp, declared_NoDup by assumption. auto.
      * rewrite declared_NoDup by assumption. auto.
    + intros c Hc. apply flagDefinition_Some. split.
      * rewrite flagToNameMapping_initial.
        rewrite bool_decide_false by discriminate.
        rewrite (flagged_NoDup _ d) by (try assumption; rewrite Hc; reflexivity).
        reflexivity.
      * rewrite definitionOf_initial. apply declared_NoDup; assumption.
  - intros Hindex. unfold t, Object_keys, JSObject.keys.
    rewrite own_requiredOptionMap_initial by assumption.
    assert (Hnone : Forall (λ key, JSObject.arrayIndex key = None)
                      (declaredRequired definitions)).
    { apply Forall_forall. intros key Hkey. unfold declaredRequired in Hkey.
      apply list_elem_of_filter in Hkey as [_ Hkey].
      apply list_elem_of_fmap in Hkey as (d & -> & Hd).
      apply list_elem_of_filter in Hd as [_ Hd].
      exact (proj1 (Forall_forall _ _) Hindex d Hd). }
    destruct (indexKeys_none _ Hnone) as [-> ->]. reflexivity.
Qed.

(** ** What [execute] is invoked with *)

(** The parameter slots through one turn, telling where the token went. *)
Lemma slots_turn params args0 bound st arg rest st' u :
  args st = arg :: rest ->
  consumeToken arg (set_args rest st) = inr (u, st') ->
  slotsInvariant params args0 bound st ->
  (commandExtraArgs st' = commandExtraArgs st
   /\ slotsInvariant params args0 bound st')
  \/ (startsWithDash arg = false
      /\ ((commandExtraArgs st' = commandExtraArgs st
           /\ slotsInvariant params args0 (bound ++ [arg]) st')
          \/ (commandExtraArgs st' = commandExtraArgs st ++ [arg]
              /\ slotsInvariant params args0 bound st'))).
Proof.
  intros Ha Hrun (Hbound & Hlen & Hpending & Hextra & Hsub).
  rewrite Ha in Hsub.
  destruct (startsWithDash arg) eqn:Hdash.
  - left. apply (consumeToken_option _ _ _ _ Hdash) in Hrun.
    destruct Hrun as [H1 H2 H3 Hargs _].
    cbn [set_args args commandArgs commandExtraArgs pendingParamDefinitions] in *.
    split; [exact H2|]. unfold slotsInvariant. rewrite H1, H2, H3.
    repeat split; try assumption.
    etransitivity; [|exact Hsub].
    apply sublist_app; [reflexivity|]. apply sublist_app; [reflexivity|].
    destruct Hargs as [->|(v & -> & _)].
    + apply sublist_cons, reflexivity.
    + do 2 apply sublist_cons. reflexivity.
  - right. split; [reflexivity|].
    rewrite consumeToken_positional in Hrun by assumption.
    unfold consumeArgument in Hrun.
    cbn [set_args args commandArgs commandExtraArgs pendingParamDefinitions tables]
      in Hrun.
    destruct (pendingParamDefinitions st) as [|definition pending] eqn:Hp;
      injection Hrun as _ <-.
    + right. split; [reflexivity|]. unfold slotsInvariant.
      cbn [args commandArgs commandExtraArgs pendingParamDefinitions].
      symmetry in Hpending. apply drop_nil_inv in Hpending.
      repeat split; try assumption.
      * rewrite drop_ge by assumption. reflexivity.
      * intros _. lia.
      * rewrite <- app_assoc. exact Hsub.
    + left. split; [reflexivity|].
      assert (Hlookup : params !! length bound = Some definition).
      { rewrite <- (Nat.add_0_r (length bound)), <- lookup_drop, <- Hpending.
        reflexivity. }
      assert (Hlt : length bound < length params)
        by (apply lookup_lt_is_Some; eauto).
      assert (Hnone : commandExtraArgs st = []).
      { destruct (commandExtraArgs st) eqn:E; [reflexivity|].
        assert (length bound = length params) by (apply Hextra; discriminate). lia. }
      unfold slotsInvariant.
      cbn [args commandArgs commandExtraArgs pendingParamDefinitions].
      rewrite length_app. cbn [length].
      repeat split.
      * rewrite zip_with_app_l, zip_with_take_r, <- Hbound.
        rewrite <- fmap_drop, <- Hpending. reflexivity.
      * lia.
      * rewrite (drop_S _ _ _ Hlookup) in Hpending.
        injection Hpending as ->. rewrite Nat.add_1_r. reflexivity.
      * rewrite Hnone. congruence.
      * rewrite Hnone in *. cbn [app] in *. rewrite <- app_assoc. exact Hsub.
Qed.

(** [load] reaches [execute] only through the dispatch of an exhausted
    queue. *)
Lemma load_Execute_inv command commandSequence tail cwd arguments :
  load command commandSequence tail cwd = Some (Execute arguments) ->
  exists st,
    consumeTokens (length tail) (initial command tail) = Some (Exhausted st)
    /\ dispatch command commandSequence cwd st = Execute arguments.
Proof.
  unfold load.
  destruct (consumeTokens (length tail) (initial command tail)) as [[st| |e]|];
    try discriminate.
  intros [= H]. eauto.
Qed.

Lemma dispatch_Execute_inv command commandSequence cwd st arguments :
  dispatch command commandSequence cwd st = Execute arguments ->
  requiredParamsNumber command <= length (commandArgs st)
  /\ (forall t, tables st = Some t -> Object_keys (requiredOptionMap t) = [])
  /\ arguments
     = (AValue <$> commandArgs st
                   ++ (ParamDefinition.default <$> pendingParamDefinitions st))
       ++ match tables st with
          | Some t => [AOptions (commandOptions t)]
          | None => []
          end
       ++ [AContext {| Context.cwd := cwd;
                       Context.args := commandExtraArgs st;
                       Context.commands := commandSequence |}].
Proof.
  unfold dispatch.
  destruct (length (commandArgs st) <? requiredParamsNumber command) eqn:Hcount;
    [discriminate|].
  apply Nat.ltb_ge in Hcount.
  destruct (tables st) as [t|]; cbn [fmap option_fmap option_map compose].
  - destruct (Object_keys (requiredOptionMap t)) eqn:Hkeys; [|discriminate].
    intros [= <-]. split; [exact Hcount|]. split; [|reflexivity].
    intros t' [= <-]. exact Hkeys.
  - intros [= <-]. split; [exact Hcount|]. split; [|reflexivity]. discriminate.
Qed.

(** X14. Whenever [load] invokes [execute], the arguments are: one value
    for every declared parameter, the first ones tokens of the tail coerced
    to the types of their parameters and the others the declared defaults;
    then the options record, there exactly when the command has option
    definitions; then the context with the working directory, the overflow
    tokens and the command path.  The bound tokens followed by the overflow
    tokens appear in that order in the tail, none of them starts with a
    hyphen, at least the required number of parameters is bound, and there
    is overflow only when every parameter is bound. *)
Theorem X14_execute_arguments (command : Command)
    (commandSequence tail : list string) (cwd : string) (arguments : list argument) :
  load command commandSequence tail cwd = Some (Execute arguments) ->
  exists bound extra options,
    arguments
    = (AValue <$> zip_with castArgument bound
                    (ParamDefinition.type <$> paramDefinitions command)
                  ++ (ParamDefinition.default
                        <$> drop (length bound) (paramDefinitions command)))
      ++ options
      ++ [AContext {| Context.cwd := cwd;
                      Context.args := extra;
                      Context.commands := commandSequence |}]
    /\ match optionDefinitions command with
       | Some _ => exists o, options = [AOptions o]
       | None => options = []
       end
    /\ length arguments
       = length (paramDefinitions command) + length options + 1
    /\ sublist (bound ++ extra) tail
    /\ Forall (λ a, startsWithDash a = false) (bound ++ extra)
    /\ requiredParamsNumber command <= length bound
    /\ length bound <= length (paramDefinitions command)
    /\ (extra <> [] -> length bound = length (paramDefinitions command)).
Proof.
  intros Hload.
  destruct (load_Execute_inv _ _ _ _ _ Hload) as (st & Hrun & Hdispatch).
  destruct (dispatch_Execute_inv _ _ _ _ _ Hdispatch) as (Hcount & _ & ->).
  destruct (consumeTokens_invariant
              (fun s => (is_Some (tables s) <-> is_Some (optionDefinitions command))
                        /\ exists bound,
                             slotsInvariant (paramDefinitions command) tail bound s
                             /\ Forall (λ a, startsWithDash a = false)
                                  (bound ++ commandExtraArgs s)))
    with (fuel := length tail) (st := initial command tail) (st' := st)
    as [[Htables (bound & (Hbound & Hlen & Hpend & Hextra & Hsub) & Hclean)] Hargs].
  - intros s arg rest s' u Ha _ Hone [Ht (bound & Hslots & Hclean)].
    split; [rewrite (tables_turn s arg rest s' u Hone); exact Ht|].
    destruct (slots_turn _ _ _ _ _ _ _ _ Ha Hone Hslots)
      as [[He Hs]|[Hdash [[He Hs]|[He Hs]]]].
    + exists bound. rewrite He. auto.
    + exists (bound ++ [arg]). rewrite He. split; [exact Hs|].
      apply Forall_app in Hclean as [H1 H2].
      repeat (apply Forall_app; split); auto.
    + exists bound. rewrite He. split; [exact Hs|].
      apply Forall_app in Hclean as [H1 H2].
      repeat (apply Forall_app; split); auto.
  - exact Hrun.
  - split.
    + unfold initial. simpl. rewrite <- !not_eq_None_Some.
      destruct (optionDefinitions command); simpl; split; congruence.
    + exists []. split; [apply slotsInvariant_initial|]. constructor.
  - rewrite Hargs, app_nil_r in Hsub.
    exists bound, (commandExtraArgs st),
      (match tables st with Some t => [AOptions (commandOptions t)] | None => [] end).
    rewrite Hbound, Hpend.
    split; [reflexivity|]. split.
    { destruct (optionDefinitions command), (tables st); eauto.
      - destruct (proj2 Htables) as [? [=]]. eauto.
      - destruct (proj1 Htables) as [? [=]]. eauto. }
    split.
    { rewrite !length_app, length_fmap, length_app, length_zip_with, !length_fmap,
        length_drop. cbn [length]. lia. }
    split; [exact Hsub|]. split; [exact Hclean|].
    rewrite Hbound, length_zip_with, length_fmap in Hcount.
    repeat split; [lia|exact Hlen|exact Hextra].
Qed.

(** ** The options record at dispatch *)








(** ** Coercion of numerals and of blank tokens *)


Lemma is_space_cases (c : ascii) :
  is_space c = true ->
  c ∈ [ascii_of_N 9; ascii_of_N 10; ascii_of_N 11; ascii_of_N 12; ascii_of_N 13;
       ascii_of_N 32; ascii_of_N 160].
Proof.
  intros H. destruct c as [[] [] [] [] [] [] [] []];
    vm_compute in H; try discriminate H; vm_compute; repeat constructor.
Qed.

(** Run a proof once per element of a concrete list. *)
Ltac each_case H :=
  repeat (apply elem_of_cons in H as [->|H]); [..|inversion H].

Lemma skip_space_blank (l : list ascii) :
  forallb is_space l = true -> skip_space l = [].
Proof.
  induction l as [|c l IH]; [reflexivity|]. cbn.
  intros [Hc Hl]%andb_true_iff. rewrite Hc. auto.
Qed.







(** Rounding to a double *)









(** Tokens that start with a zero: a decimal fraction, a decimal exponent,
    leading zeros, and the three radix prefixes. *)
Lemma Number_leading_zero :
  JS.Number "0.5" = Finite false 1 (-1)
  /\ JS.Number "0e3" = Finite false 0 0
  /\ JS.Number "05" = Finite false 5 0
  /\ JS.Number "0x1F" = Finite false 31 0
  /\ JS.Number "0b101" = Finite false 5 0
  /\ JS.Number "0o17" = Finite false 15 0
  /\ JS.Number "0x" = NaN.
Proof. repeat split; vm_compute; reflexivity. Qed.


(** X17. An empty token, or one made of white space only, parses as the
    number zero and is [false] as a Boolean. *)
Theorem X17_blank_coercion (arg : string) :
  forallb is_space (list_ascii_of_string arg) = true ->
  castArgument arg TNumber = VNumber (Finite false 0 0)
  /\ castArgument arg TBoolean = VBoolean false.
Proof.
  intros Hl.
  assert (Hnum : Number arg = Finite false 0 0).
  { unfold Number, trim. rewrite (skip_space_blank _ Hl). reflexivity. }
  unfold castArgument. rewrite Hnum. split; [reflexivity|].
  rewrite bool_decide_false; [reflexivity|].
  destruct arg as [|c arg]; [discriminate|].
  cbn in Hl. apply andb_true_iff in Hl as [Hc _].
  apply is_space_cases in Hc. each_case Hc; discriminate.
Qed.

(** ** The default root *)

Lemma list_ascii_of_string_app (a b : string) :
  list_ascii_of_string (a +:+ b) = list_ascii_of_string a ++ list_ascii_of_string b.
Proof.
  induction a as [|c a IH]; [reflexivity|].
  change (String c a +:+ b) with (String c (a +:+ b)). cbn. rewrite IH. reflexivity.
Qed.

Lemma string_of_list_ascii_app (a b : list ascii) :
  string_of_list_ascii (a ++ b) = string_of_list_ascii a +:+ string_of_list_ascii b.
Proof.
  induction a as [|c a IH]; [reflexivity|]. cbn [app string_of_list_ascii].
  rewrite IH. reflexivity.
Qed.

(** Inside a segment the automaton gathers characters. *)
Lemma tailSegments_segment sep (g : list ascii) : forall acc rest,
  sep ∉ g ->
  tailSegments sep (Some acc) (g ++ rest) = tailSegments sep (Some (acc ++ g)) rest.
Proof.
  induction g as [|c g IH]; intros acc rest Hsep.
  - rewrite app_nil_r. reflexivity.
  - cbn [app tailSegments]. rewrite bool_decide_false by set_solver.
    rewrite IH by set_solver. rewrite <- app_assoc. reflexivity.
Qed.

Lemma list_ascii_of_separated sep (segments : list string) :
  list_ascii_of_string (separated sep segments)
  = concat ((λ g, sep :: list_ascii_of_string g) <$> segments).
Proof.
  induction segments as [|g segments IH]; [reflexivity|].
  cbn [separated fmap list_fmap concat].
  rewrite list_ascii_of_string_app, IH. reflexivity.
Qed.

(** The automaton accepts admissible segments, each behind a separator. *)
Lemma tailSegments_accepts sep (segments : list string) : forall acc,
  Forall (isPackageSegment sep) segments ->
  tailSegments sep (Some acc)
    (concat ((λ g, sep :: list_ascii_of_string g) <$> segments))
  = admissible acc.
Proof.
  induction segments as [|g segments IH]; intros acc Hall; [reflexivity|].
  apply Forall_cons in Hall as [[Hg Hsep] Hall].
  cbn [fmap list_fmap concat app tailSegments].
  rewrite bool_decide_true by reflexivity.
  rewrite tailSegments_segment by exact Hsep. cbn [app].
  rewrite (IH _ Hall), Hg. apply andb_true_r.
Qed.

(** Whatever it has read, the automaton rejects a tail that goes through a
    segment [node_modules]. *)
Lemma tailSegments_rejects sep (u : list ascii) : forall segment w,
  sep ∉ node_modules ->
  tailSegments sep segment (u ++ sep :: node_modules ++ sep :: w) = false.
Proof.
  intros segment w Hsep. revert segment.
  assert (Hhere : forall segment,
             tailSegments sep segment (sep :: node_modules ++ sep :: w) = false).
  { intros segment. cbn [tailSegments]. rewrite bool_decide_true by reflexivity.
    assert (Hnm : tailSegments sep (Some []) (node_modules ++ sep :: w) = false).
    { rewrite tailSegments_segment by exact Hsep. cbn [app tailSegments].
      rewrite bool_decide_true by reflexivity.
      unfold admissible. rewrite (bool_decide_true (node_modules = node_modules))
        by reflexivity.
      rewrite andb_false_r. reflexivity. }
    destruct segment; rewrite Hnm; [apply andb_false_r|reflexivity]. }
  induction u as [|c u IH]; intros segment; [apply Hhere|].
  cbn [app tailSegments].
  destruct (bool_decide (c = sep)), segment; rewrite ?IH, ?andb_false_r; reflexivity.
Qed.

Lemma sep_not_in_node_modules (sep : ascii) :
  sep = "/"%char \/ sep = "\"%char -> sep ∉ node_modules.
Proof.
  intros [->| ->] H; vm_compute in H;
    repeat (apply elem_of_cons in H as [H|H]; [discriminate H|]); inversion H.
Qed.

(** The match does not start before the last [node_modules] segment. *)
Lemma matchesHere_before sep (c : ascii) (b w : list ascii) :
  sep ∉ node_modules ->
  matchesHere sep (c :: b ++ sep :: node_modules ++ sep :: w) = false.
Proof.
  intros Hsep. unfold matchesHere.
  destruct (bool_decide (c = sep)); [|reflexivity]. cbn [andb].
  destruct (decide (length node_modules <= length b)) as [Hlen|Hlen].
  - rewrite drop_app_le by exact Hlen.
    rewrite tailSegments_rejects by exact Hsep. apply andb_false_r.
  - rewrite bool_decide_false; [reflexivity|].
    intros Htake. apply Hsep. rewrite <- Htake.
    rewrite take_app_ge by lia.
    apply elem_of_app. right.
    destruct (length node_modules - length b) eqn:E; [lia|].
    cbn. set_solver.
Qed.

Lemma stripNodeModules_installed sep (base : list ascii) (segments : list string) :
  sep ∉ node_modules ->
  segments <> [] ->
  Forall (isPackageSegment sep) segments ->
  stripNodeModules sep
    (base ++ sep :: node_modules
          ++ concat ((λ g, sep :: list_ascii_of_string g) <$> segments))
  = base.
Proof.
  intros Hsep Hne Hall.
  destruct segments as [|g segments]; [contradiction|].
  induction base as [|c base IH].
  - cbn [app stripNodeModules].
    replace (matchesHere sep _) with true; [reflexivity|].
    symmetry. unfold matchesHere.
    rewrite bool_decide_true by reflexivity.
    rewrite take_app_length, drop_app_length.
    rewrite bool_decide_true by reflexivity. cbn [andb].
    apply Forall_cons in Hall as [[Hg Hsepg] Hall].
    cbn [fmap list_fmap concat app tailSegments].
    rewrite bool_decide_true by reflexivity.
    rewrite tailSegments_segment by exact Hsepg. cbn [app].
    rewrite (tailSegments_accepts _ _ _ Hall). exact Hg.
  - cbn [app stripNodeModules].
    cbn [fmap list_fmap concat app] in *.
    rewrite matchesHere_before by exact Hsep. rewrite IH. reflexivity.
Qed.

(** X18. For a module installed under [node_modules], the default root is
    the [cli] directory beside that [node_modules]: when [__dirname] is
    [base], the segment [node_modules] and one or more directory names that
    are not [node_modules], the module directory is [base], whatever
    [base] is, and on a system whose separator is the slash the root is
    [base/cli], or the relative path [cli] when [base] is empty. *)
Theorem X18_root_of_installed_module (sep : ascii) (base : string)
    (segments : list string) :
  sep = "/"%char \/ sep = "\"%char ->
  segments <> [] ->
  Forall (isPackageSegment sep) segments ->
  moduleDir sep (base +:+ String sep "node_modules" +:+ separated sep segments)
  = base
  /\ (sep = "/"%char ->
      root (base +:+ "/node_modules" +:+ separated "/"%char segments)
      = if bool_decide (base = EmptyString) then "cli"
        else Resolver.Path_join base "cli").
Proof.
  intros Hsep Hne Hall.
  assert (Hdir : moduleDir sep
                   (base +:+ String sep "node_modules" +:+ separated sep segments)
                 = base).
  { unfold moduleDir.
    rewrite list_ascii_of_string_app.
    change (String sep "node_modules" +:+ separated sep segments)
      with (String sep ("node_modules" +:+ separated sep segments)).
    cbn [list_ascii_of_string].
    rewrite list_ascii_of_string_app, list_ascii_of_separated.
    change (list_ascii_of_string "node_modules") with node_modules.
    rewrite stripNodeModules_installed;
      auto using sep_not_in_node_modules, string_of_list_ascii_of_string. }
  split; [exact Hdir|].
  intros ->. unfold root.
  change ("/node_modules" +:+ separated "/"%char segments)
    with (String "/"%char "node_modules" +:+ separated "/"%char segments).
  rewrite Hdir. reflexivity.
Qed.

(** What the getter removes, if anything, starts with a segment
    [node_modules] that has a separator on both sides. *)
Lemma stripNodeModules_prefix sep (l : list ascii) :
  exists suffix,
    l = stripNodeModules sep l ++ suffix
    /\ (suffix = [] \/ exists w, suffix = sep :: node_modules ++ sep :: w).
Proof.
  induction l as [|c l (suffix & Hl & Hsuffix)].
  - exists []. cbn. auto.
  - cbn [stripNodeModules]. destruct (matchesHere sep (c :: l)) eqn:Hm.
    + exists (c :: l). split; [reflexivity|]. right.
      unfold matchesHere in Hm.
      apply andb_true_iff in Hm as [[Hc Htake]%andb_true_iff Htail].
      apply bool_decide_eq_true in Hc, Htake. subst c.
      rewrite <- (take_drop (length node_modules) l), Htake.
      destruct (drop (length node_modules) l) as [|c w]; [discriminate|].
      cbn [tailSegments] in Htail.
      destruct (bool_decide (c = sep)) eqn:Hc; [|discriminate].
      apply bool_decide_eq_true in Hc. subst c. eauto.
    + exists suffix. split; [|exact Hsuffix]. cbn [app]. rewrite <- Hl.
      reflexivity.
Qed.

(** X19. The getter never does anything but cut a tail: the module
    directory is [__dirname] without a suffix that is empty or starts with
    a separator, [node_modules] and a separator; so a path without a
    segment [node_modules] followed by another segment is left whole. *)
Theorem X19_module_directory_is_a_prefix (sep : ascii) (dirname : string) :
  exists suffix,
    dirname = moduleDir sep dirname +:+ suffix
    /\ (suffix = EmptyString
        \/ exists rest, suffix = String sep "node_modules" +:+ String sep rest).
Proof.
  destruct (stripNodeModules_prefix sep (list_ascii_of_string dirname))
    as (suffix & Hl & Hsuffix).
  exists (string_of_list_ascii suffix). split.
  - unfold moduleDir. rewrite <- string_of_list_ascii_app, <- Hl.
    symmetry. apply string_of_list_ascii_of_string.
  - destruct Hsuffix as [->|[w ->]]; [left; reflexivity|].
    right. exists (string_of_list_ascii w).
    cbn [string_of_list_ascii]. f_equal.
    all: rewrite ?string_of_list_ascii_app; reflexivity.
Qed.

(** ** Instances *)

(** X4 on the tree of the end-to-end examples: [create -f]. *)
Lemma X4_options_end_the_command_path_witness :
  Resolver.resolve tree_create "clime" ["node"; "clime"; "create"; "-f"] "/cli"
  = {| Resolver.filename := "/cli/create/default.js";
       Resolver.argsIndex := 3;
       Resolver.commandSequence := ["clime"; "create"] |}
  /\ Resolver.resolvedArgs ["node"; "clime"; "create"; "-f"]
       (Resolver.resolve tree_create "clime" ["node"; "clime"; "create"; "-f"] "/cli")
     = ["-f"].
Proof.
  exact (X4_options_end_the_command_path tree_create "clime" "/cli" "node" "clime"
           ["create"] "-f" [] eq_refl eq_refl).
Defined.

(** X5 on the same tree: [create --help]. *)
Lemma X5_help_reports_the_command_path_witness :
  parse tree_create require_create "clime"
    ["node"; "clime"; "create"; "--help"] "/cli" "/home"
  = Some (Help ["clime"; "create"]).
Proof.
  exact (X5_help_reports_the_command_path tree_create require_create "clime" "/cli"
           "/home" "node" "clime" ["create"] "--help" [] create_command
           eq_refl eq_refl eq_refl).
Defined.

(** X6: ten turns for the two tokens of [create widget -f]. *)
Lemma X6_loop_terminates_witness :
  consumeTokens 10 (initial create_command ["widget"; "-f"])
  = consumeTokens 2 (initial create_command ["widget"; "-f"]).
Proof.
  apply (proj2 (X6_loop_terminates create_command ["clime"; "create"]
                  ["widget"; "-f"] "/home") 10).
  simpl. lia.
Defined.

(** X7: [deploy site extra] lacks the required option [token]; the
    required options [beta] and [alpha] are reported in the order of their
    declaration, behind the option [7], which is an array index; and a
    required option named [__proto__] is not missed. *)
Lemma X7_positional_tail_witness :
  load deploy_command ["clime"; "deploy"] ["site"; "extra"] "/home"
  = Some (Error (MissingRequiredOptions ["token"]))
  /\ load beta_alpha_command ["clime"] [] "/home"
     = Some (Error (MissingRequiredOptions ["beta"; "alpha"]))
  /\ load beta_alpha_7_command ["clime"] [] "/home"
     = Some (Error (MissingRequiredOptions ["7"; "beta"; "alpha"]))
  /\ load proto_command ["clime"] ["x"] "/home"
     = Some (Execute [AOptions ∅;
                      AContext {| Context.cwd := "/home";
                                  Context.args := ["x"];
                                  Context.commands := ["clime"] |}]).
Proof.
  split; [|split; [|split]].
  - exact (X7_positional_tail deploy_command ["clime"; "deploy"] ["site"; "extra"]
             "/home" ltac:(repeat constructor)).
  - exact (X7_positional_tail beta_alpha_command ["clime"] [] "/home"
             ltac:(constructor)).
  - exact (X7_positional_tail beta_alpha_7_command ["clime"] [] "/home"
             ltac:(constructor)).
  - exact (X7_positional_tail proto_command ["clime"] ["x"] "/home"
             ltac:(repeat constructor)).
Defined.

(** X8: [create widget -- x], and [--] next to a definition named
    [hasOwnProperty]. *)
Lemma X8_double_hyphen_throws_witness :
  load create_command ["clime"; "create"] (["widget"] ++ "--" :: ["x"]) "/home"
  = Some (Error (UnknownOptionName EmptyString))
  /\ load shadow_command ["clime"] ([] ++ "--" :: []) "/home"
     = Some (Error TypeError).
Proof.
  split.
  - apply (X8_double_hyphen_throws create_command ["clime"; "create"] ["widget"] ["x"]
             "/home").
    + repeat constructor.
    + intros definitions d [= <-] Hin. apply list_elem_of_singleton in Hin.
      subst d. discriminate.
  - apply (X8_double_hyphen_throws shadow_command ["clime"] [] [] "/home").
    + constructor.
    + intros definitions d [= <-] Hin.
      repeat (apply elem_of_cons in Hin as [->|Hin]; [discriminate|]).
      inversion Hin.
Defined.

(** X9: a long option given to a command without option definitions. *)
Lemma X9_no_options_declared_witness :
  load bare_command ["clime"] (["widget"] ++ "--force" :: []) "/home"
  = Some (Error TypeError)
  /\ load bare_command ["clime"] (["widget"] ++ "-fx" :: []) "/home"
     = Some (Error (UnknownOptionFlag "f")).
Proof.
  split.
  - apply (proj2 (X9_no_options_declared bare_command ["clime"] "/home" eq_refl)
             ["widget"] "--force" []);
      [repeat constructor|reflexivity|discriminate|reflexivity].
  - apply (proj2 (X9_no_options_declared bare_command ["clime"] "/home" eq_refl)
             ["widget"] "-fx" []);
      [repeat constructor|reflexivity|discriminate|reflexivity].
Defined.

(** A string is none of the strings of a list. *)
Ltac not_listed :=
  let H := fresh in
  intros H; vm_compute in H;
  repeat (apply elem_of_cons in H as [H|H]; [discriminate H|]); inversion H.

(** X10: [-t abc] and [--token abc]. *)
Lemma X10_flag_is_long_name_witness :
  load deploy_command ["clime"; "deploy"] ["-t"; "abc"] "/home"
  = load deploy_command ["clime"; "deploy"] ["--token"; "abc"] "/home".
Proof.
  apply (proj2 (X10_flag_is_long_name [token_option; force_option] "t"%char "token"
                  ltac:(not_listed) ltac:(not_listed) eq_refl ltac:(not_listed)
                  ltac:(discriminate) ltac:(discriminate))).
  reflexivity.
Defined.

(** X11: [--force --force x] and [--force x]; [--token a --token b] and
    [--token b]. *)
Lemma X11_repeated_option_witness :
  load create_command ["clime"; "create"] ["--force"; "--force"; "x"] "/home"
  = load create_command ["clime"; "create"] ["--force"; "x"] "/home"
  /\ load deploy_command ["clime"; "deploy"] ["--token"; "a"; "--token"; "b"] "/home"
     = load deploy_command ["clime"; "deploy"] ["--token"; "b"] "/home".
Proof.
  split.
  - apply (proj2 (X11_repeated_option "force" force_option ltac:(discriminate) ["x"])
             create_command [force_option]); reflexivity.
  - apply (proj2 (X11_repeated_option "token" token_option ltac:(discriminate)
                    "a" ["b"] eq_refl)
             deploy_command [token_option; force_option]); reflexivity.
Defined.


(** X13: the tables of [token] and [force]. *)
Lemma X13_tables_round_trip_witness :
  flagDefinition (initialTables [token_option; force_option]) "t"%char
  = Some ("token", token_option)
  /\ commandOptions (initialTables [token_option; force_option]) !! "force"
     = Some (VBoolean false)
  /\ Object_keys (requiredOptionMap (initialTables [token_option; force_option]))
     = ["token"].
Proof.
  assert (Hnames : NoDup (OptionDefinition.name <$> [token_option; force_option])).
  { cbn. repeat constructor; set_solver. }
  assert (Hflags : NoDup (omap (λ d, truthy (OptionDefinition.flag d))
                            [token_option; force_option])).
  { cbn. repeat constructor; set_solver. }
  destruct (X13_tables_round_trip [token_option; force_option] Hnames Hflags)
    as (Hall & _ & Hkeys).
  split; [|split].
  - assert (Hin : token_option ∈ [token_option; force_option]) by set_solver.
    destruct (Hall token_option Hin) as (_ & Hflag).
    exact (Hflag "t"%char eq_refl).
  - assert (Hin : force_option ∈ [token_option; force_option]) by set_solver.
    destruct (Hall force_option Hin) as ((_ & Hseed) & _). exact Hseed.
  - apply Hkeys. repeat constructor.
Defined.

(** X14 and X15 on [create widget -f more]. *)
Lemma create_widget_force_more :
  load create_command ["clime"; "create"] ["widget"; "-f"; "more"] "/home"
  = Some (Execute
            [AValue (VString "widget");
             AOptions (<["force" := VBoolean true]> {["force" := VBoolean false]});
             AContext {| Context.cwd := "/home";
                         Context.args := ["more"];
                         Context.commands := ["clime"; "create"] |}]).
Proof. vm_compute. reflexivity. Qed.

Lemma X14_execute_arguments_witness :
  exists bound extra,
    sublist (bound ++ extra) ["widget"; "-f"; "more"]
    /\ Forall (λ a, startsWithDash a = false) (bound ++ extra)
    /\ 1 <= length bound <= 1.
Proof.
  destruct (X14_execute_arguments _ _ _ _ _ create_widget_force_more)
    as (bound & extra & options & _ & _ & _ & Hsub & Hclean & Hmin & Hmax & _).
  exists bound, extra. auto.
Defined.



(** X17: the empty token and a token of two spaces. *)
Lemma X17_blank_coercion_witness :
  castArgument EmptyString TBoolean = VBoolean false
  /\ castArgument "  " TNumber = VNumber (Finite false 0 0).
Proof.
  split.
  - exact (proj2 (X17_blank_coercion EmptyString eq_refl)).
  - exact (proj1 (X17_blank_coercion "  " eq_refl)).
Defined.

(** X18: the package [clime] installed in the project [/home/u/app]. *)
Lemma X18_root_of_installed_module_witness :
  root "/home/u/app/node_modules/clime/bld" = "/home/u/app/cli"
  /\ root "/node_modules/clime" = "cli".
Proof.
  assert (Hsegment : forall g, g ∈ ["clime"; "bld"] -> isPackageSegment "/"%char g).
  { intros g Hg. repeat (apply elem_of_cons in Hg as [->|Hg]);
      [..|inversion Hg];
      (split; [reflexivity|]; intros H; vm_compute in H;
       repeat (apply elem_of_cons in H as [H|H]; [discriminate H|]); inversion H). }
  split.
  - apply (proj2 (X18_root_of_installed_module "/"%char "/home/u/app"
                    ["clime"; "bld"] (or_introl eq_refl) ltac:(discriminate)
                    ltac:(apply Forall_forall; intros g Hg; apply Hsegment; exact Hg))
             eq_refl).
  - apply (proj2 (X18_root_of_installed_module "/"%char EmptyString
                    ["clime"] (or_introl eq_refl) ltac:(discriminate)
                    ltac:(apply Forall_forall; intros g Hg; apply Hsegment;
                          set_solver))
             eq_refl).
Defined.
